(** * Headcount capacity model (app.py): shallow embedding and properties

    The program is a Streamlit script.  Its computational core is
    - the band table [TEAMS] with [TEAM_ORDER],
    - the construction of the [inputs] dictionary from the widget values,
    - [simulate], the monthly loop attrition -> hires -> promotions -> record,
    - a second, single-pool model at the end of the file.

    Python floats are IEEE-754 binary64 numbers.  The engine below is written
    once over an arithmetic interface [PyFloat] and instantiated twice:
    - [B64]: binary64 with round-to-nearest-even, built on the bit-level
      specification [SpecFloat] of the standard library.  This is the
      arithmetic the program runs on;
    - [Qc]: exact rational arithmetic, the reading of the program in which
      rounding is ignored ("up to floating-point tolerance").

    Python dictionaries are [gmap]s keyed by band name; a dictionary lookup
    that raises [KeyError] is the [None] of the option monad. *)

From Stdlib Require Import ZArith QArith Qcanon Lia.
From Stdlib Require Import Floats.SpecFloat.
From stdpp Require Import base option list strings gmap fin_maps numbers pretty.

Set Default Proof Using "Type".
Local Open Scope Z_scope.

(** ** Arithmetic interface *)

Class PyFloat (F : Type) := {
  fadd : F → F → F;      (* x + y *)
  fsub : F → F → F;      (* x - y *)
  fmul : F → F → F;      (* x * y *)
  fdiv : F → F → F;      (* x / y, used with the divisor 100.0 only *)
  fgtb : F → F → bool;   (* x > y *)
  fleb : F → F → bool;   (* x <= y *)
  of_int : Z → F;        (* float(n), and the literals 0.0, 1.0, 100.0 *)
  round1 : F → F;        (* round(x, 1) *)
}.

Declare Scope py_scope.
Delimit Scope py_scope with py.
Infix "⊕" := fadd (at level 50, left associativity) : py_scope.
Infix "⊖" := fsub (at level 50, left associativity) : py_scope.
Infix "⊗" := fmul (at level 40, left associativity) : py_scope.
Infix "⊘" := fdiv (at level 40, left associativity) : py_scope.
Infix ">.?" := fgtb (at level 70, no associativity) : py_scope.
Infix "<=.?" := fleb (at level 70, no associativity) : py_scope.
Local Open Scope py_scope.

(** Python's [max(a, b)] on two arguments returns [a] unless [b > a]. *)
Definition pymax `{PyFloat F} (a b : F) : F := if b >.? a then b else a.

(** [0.0 <= x] *)
Definition nonneg `{PyFloat F} (x : F) : Prop := (of_int 0 <=.? x) = true.

(** Round the rational [n / d], [0 < d], to the nearest integer, ties to
    even: what [round] does with the exact value of its argument. *)
Definition round_half_even (n : Z) (d : Z) : Z :=
  let q := n / d in
  let r := n mod d in
  match 2 * r ?= d with
  | Lt => q
  | Gt => q + 1
  | Eq => if Z.even q then q else q + 1
  end.

(** ** Binary64 *)

Module B64.
Definition prec : Z := 53.
Definition emax : Z := 1024.

Definition add := SFadd prec emax.
Definition sub := SFsub prec emax.
Definition mul := SFmul prec emax.
Definition div := SFdiv prec emax.
Definition gtb (x y : spec_float) : bool := SFltb y x.
Definition leb (x y : spec_float) : bool := SFleb x y.
Definition of_Z (n : Z) : spec_float := binary_normalize prec emax n 0 false.

(** [round(x, 1)]: the exact value of [x] is rounded to one decimal, ties
    to even, and the decimal is read back as the nearest binary64 number.
    Infinities, NaN, zeros and integer-valued numbers are returned as they
    are. *)
Definition round_1 (x : spec_float) : spec_float :=
  match x with
  | S754_finite s m e =>
      if 0 <=? e then x
      else
        let tenths := round_half_even (Z.pos m * 10) (2 ^ (- e)) in
        match tenths with
        | Z.pos t => div (S754_finite s t 0) (S754_finite false 10 0)
        | _ => S754_zero s
        end
  | _ => x
  end.
End B64.

#[export] Instance spec_float_eq_dec : EqDecision spec_float.
Proof. solve_decision. Defined.

#[export] Instance b64_float : PyFloat spec_float := {
  fadd := B64.add; fsub := B64.sub; fmul := B64.mul; fdiv := B64.div;
  fgtb := B64.gtb; fleb := B64.leb; of_int := B64.of_Z; round1 := B64.round_1;
}.

(** ** Exact rational arithmetic *)

Module Exact.
Definition of_Z (n : Z) : Qc := Q2Qc (inject_Z n).
Definition gtb (x y : Qc) : bool := bool_decide (y < x)%Qc.
Definition leb (x y : Qc) : bool := bool_decide (x ≤ y)%Qc.

Definition round_1 (x : Qc) : Qc :=
  let y := (x * Q2Qc (inject_Z 10))%Qc in
  Q2Qc (round_half_even (Qnum y) (Z.pos (Qden y)) # 10).
End Exact.

#[export] Instance exact_float : PyFloat Qc := {
  fadd := Qcplus; fsub := Qcminus; fmul := Qcmult; fdiv := Qcdiv;
  fgtb := Exact.gtb; fleb := Exact.leb; of_int := Exact.of_Z; round1 := Exact.round_1;
}.

(** ** Dates *)

Record date := Date { year : Z; month : Z }.

(** [pd.date_range(start="2025-01-01", end="2026-12-01", freq="MS")] *)
Definition months_index : list date :=
  y ← [2025; 2026]; m ← seqZ 1 12; [Date y m].

Definition is_quarter_end (dt : date) : bool :=
  bool_decide (month dt ∈ [3; 6; 9; 12]).

(** [dt.strftime("%Y-%m")] *)
Definition pad_left (width : nat) (s : string) : string :=
  String.concat "" (replicate (width - String.length s) "0"%string) +:+ s.
Definition strftime_Y_m (dt : date) : string :=
  pad_left 4 (pretty (year dt)) +:+ "-" +:+ pad_left 2 (pretty (month dt)).

(** ** Loops over a list whose body may raise *)

Fixpoint for_each {A S : Type} (body : A → S → option S) (l : list A) (s : S)
    : option S :=
  match l with
  | [] => Some s
  | x :: l' => s' ← body x s; for_each body l' s'
  end.

Section Engine.
Context {F : Type} `{PyFloat F}.

(** *** Data *)

(** What the four widgets of one band return: two integers and two
    percentages. *)
Record widget_values := Widgets {
  w_start : Z; w_hires : Z; w_attr : F; w_promo : F;
}.

(** An entry of [TEAMS]. *)
Record band := Band {
  team : string; segment : string; promo_to : option string;
  defaults : widget_values;
}.

(** An entry of [inputs]. *)
Record band_input := BandInput {
  i_segment : string; starting : F; hires : F; attr : F; promo : F;
  i_promo_to : option string;
}.

(** A row of the promotion table. *)
Record promo_row := PromoRow {
  quarter_end : string; from_band : string; to_band : string;
  promoted_hc : F;
}.

(** A row of the headcount table: [row["Month"]], [row[t]] for the bands and
    [row["Total"]] (no band of the table is called Month or Total). *)
Record row := Row {
  r_month : date; r_bands : gmap string F; r_total : F;
}.

Definition TEAM_ORDER (teams : list band) : list string := team <$> teams.

(** *** Inputs (lines 58-128) *)

Definition band_inputs (b : band) (w : widget_values) : band_input :=
  let promo_widget :=
    match promo_to b with
    | None => of_int 0
    | Some _ => w_promo w
    end in
  {| i_segment := segment b;
     starting := of_int (w_start w);
     hires := of_int (w_hires w);
     attr := w_attr w ⊘ of_int 100;
     promo := promo_widget ⊘ of_int 100;
     i_promo_to := promo_to b |}.

Definition build_inputs (teams : list band) (ui : string → widget_values)
    : gmap string band_input :=
  foldl (λ inputs b, <[team b := band_inputs b (ui (team b))]> inputs) ∅ teams.

(** The widgets before the user touches them. *)
Definition default_ui (teams : list band) (key : string) : widget_values :=
  match list_find (λ b, team b = key) teams with
  | Some (_, b) => defaults b
  | None => Widgets 0 0 (of_int 0) (of_int 0)
  end.

(** *** The monthly loop (lines 135-186) *)

Section Simulate.
Variable team_order : list string.
Variable inputs : gmap string band_input.

(** [hc = {t: inputs[t]["starting"] for t in TEAM_ORDER}] *)
Definition init_hc : option (gmap string F) :=
  for_each (λ t hc, i ← inputs !! t; Some (<[t := starting i]> hc))
           team_order ∅.

(** [hc[t] = hc[t] * (1.0 - inputs[t]["attr"])] *)
Definition attrition (t : string) (hc : gmap string F)
    : option (gmap string F) :=
  h ← hc !! t; i ← inputs !! t;
  Some (<[t := h ⊗ (of_int 1 ⊖ attr i)]> hc).

(** [hc[t] = hc[t] + inputs[t]["hires"]] *)
Definition hire (t : string) (hc : gmap string F)
    : option (gmap string F) :=
  h ← hc !! t; i ← inputs !! t;
  Some (<[t := h ⊕ hires i]> hc).

(** [moves = {t: 0.0 for t in TEAM_ORDER}] *)
Definition init_moves : gmap string F :=
  foldl (λ moves t, <[t := of_int 0]> moves) ∅ team_order.

(** First pass: [moves[t] = hc[t] * inputs[t]["promo"]] unless the band
    has no successor. *)
Definition compute_move (hc : gmap string F) (t : string)
    (moves : gmap string F) : option (gmap string F) :=
  i ← inputs !! t;
  match i_promo_to i with
  | None => Some moves
  | Some _ => h ← hc !! t; Some (<[t := h ⊗ promo i]> moves)
  end.

(** Second pass: one iteration of the "apply moves" loop. *)
Definition apply_move (moves : gmap string F) (dt : date) (t : string)
    (st : gmap string F * list promo_row)
    : option (gmap string F * list promo_row) :=
  let '(hc, promo_rows) := st in
  i ← inputs !! t;
  match i_promo_to i with
  | None => Some (hc, promo_rows)
  | Some to_team =>
      amt ← moves !! t;
      h ← hc !! t;
      let hc := <[t := h ⊖ amt]> hc in
      h' ← hc !! to_team;
      let hc := <[to_team := h' ⊕ amt]> hc in
      Some (hc, promo_rows ++
                [PromoRow (strftime_Y_m dt) t to_team (round1 amt)])
  end.

Definition compute_moves (hc : gmap string F) : option (gmap string F) :=
  for_each (compute_move hc) team_order init_moves.

(** The second pass, with the order in which the source bands are
    visited as a parameter; the program visits them in [TEAM_ORDER]. *)
Definition apply_moves (order : list string) (moves : gmap string F)
    (dt : date) (st : gmap string F * list promo_row)
    : option (gmap string F * list promo_row) :=
  for_each (apply_move moves dt) order st.

Definition promotions (dt : date) (st : gmap string F * list promo_row)
    : option (gmap string F * list promo_row) :=
  moves ← compute_moves st.1;
  apply_moves team_order moves dt st.

(** [row[t] = max(0.0, hc[t])] for every band, then the total. *)
Definition record_bands (hc : gmap string F) : option (gmap string F) :=
  for_each (λ t bands, h ← hc !! t; Some (<[t := pymax (of_int 0) h]> bands))
           team_order ∅.

(** [sum(row[t] for t in TEAM_ORDER)]: a left fold starting from 0. *)
Definition row_total (bands : gmap string F) : option F :=
  for_each (λ t acc, v ← bands !! t; Some (acc ⊕ v)) team_order (of_int 0).

Definition record (dt : date) (hc : gmap string F) : option row :=
  bands ← record_bands hc;
  total ← row_total bands;
  Some (Row dt bands total).

(** The running state of the loop: [hc], [rows], [promo_rows]. *)
Record sim_state := SimState {
  s_hc : gmap string F; s_rows : list row; s_promo_rows : list promo_row;
}.

(** Body of [for dt in dates]. *)
Definition month_step (dt : date) (s : sim_state) : option sim_state :=
  hc ← for_each attrition team_order (s_hc s);
  hc ← for_each hire team_order hc;
  '(hc, promo_rows) ←
    (if is_quarter_end dt then promotions dt (hc, s_promo_rows s)
     else Some (hc, s_promo_rows s));
  r ← record dt hc;
  Some (SimState hc (s_rows s ++ [r]) promo_rows).

Definition run (dates : list date) : option sim_state :=
  hc ← init_hc;
  for_each month_step dates (SimState hc [] []).

(** [simulate()] returns the two tables. *)
Definition simulate_on (dates : list date)
    : option (list row * list promo_row) :=
  s ← run dates; Some (s_rows s, s_promo_rows s).
End Simulate.

(** The band table of the program. *)
Definition pct (n : Z) : F := of_int n.
Definition TEAMS : list band := [
  Band "1-2"     "SMB"  (Some "3-4"%string)     (Widgets 10 1  (pct 2) (pct 5));
  Band "3-4"     "SMB"  (Some "5-9"%string)     (Widgets 36 20 (pct 5) (pct 30));
  Band "5-9"     "SMB"  (Some "10-19"%string)   (Widgets 15 15 (pct 2) (pct 20));
  Band "10-19"   "CMRL" (Some "20-29"%string)   (Widgets 88 4  (pct 3) (pct 10));
  Band "20-29"   "CMRL" (Some "30-49"%string)   (Widgets 44 1  (pct 2) (pct 10));
  Band "30-49"   "CMRL" (Some "50-99"%string)   (Widgets 30 1  (pct 2) (pct 7));
  Band "50-99"   "MM"   (Some "100-149"%string) (Widgets 27 0  (pct 2) (pct 6));
  Band "100-149" "MM"   None                    (Widgets 10 0  (pct 2) (pct 0))
].

(** [simulate()] as the program calls it, for the widget values [ui]. *)
Definition simulate (ui : string → widget_values)
    : option (list row * list promo_row) :=
  simulate_on (TEAM_ORDER TEAMS) (build_inputs TEAMS ui) months_index.

(** *** The single-pool model (lines 297-305) *)

Definition simple_step (monthly_hires : Z) (monthly_attrition : F) (hc : F) : F :=
  let hc := hc ⊗ (of_int 1 ⊖ monthly_attrition ⊘ of_int 100) in
  hc ⊕ of_int monthly_hires.

(** The value of [hc] after each month and the list [headcount]. *)
Fixpoint simple_loop (monthly_hires : Z) (monthly_attrition : F)
    (months : list date) (hc : F) (headcount : list F) : F * list F :=
  match months with
  | [] => (hc, headcount)
  | _ :: months' =>
      let hc := simple_step monthly_hires monthly_attrition hc in
      simple_loop monthly_hires monthly_attrition months' hc
                  (headcount ++ [round1 hc])
  end.

Definition simple_model (starting_headcount monthly_hires : Z)
    (monthly_attrition : F) (months : list date) : F * list F :=
  simple_loop monthly_hires monthly_attrition months
              (of_int starting_headcount) [].

(** *** Validity of a configuration (spec, section 4.1) *)

(** starting headcount >= 0, hires >= 0, attrition in [0,1), promotion in
    [0,1] *)
Definition rates_ok (i : band_input) : bool :=
  (of_int 0 <=.? starting i) && (of_int 0 <=.? hires i) &&
  (of_int 0 <=.? attr i) && (of_int 1 >.? attr i) &&
  (of_int 0 <=.? promo i) && (promo i <=.? of_int 1).

Definition is_terminal (inputs : gmap string band_input) (t : string) : bool :=
  match inputs !! t with
  | Some i => bool_decide (i_promo_to i = None)
  | None => false
  end.

(** The part of validity the loop needs in order not to raise: band names
    are distinct, every band has its entry in [inputs], and a successor is
    a band of the table. *)
Definition well_formed (order : list string)
    (inputs : gmap string band_input) : bool :=
  bool_decide (NoDup order) &&
  forallb (λ t, match inputs !! t with
                | Some i => match i_promo_to i with
                            | Some to_team => bool_decide (to_team ∈ order)
                            | None => true
                            end
                | None => false
                end) order.

Definition valid_config (order : list string)
    (inputs : gmap string band_input) : bool :=
  well_formed order inputs &&
  forallb (λ t, match inputs !! t with
                | Some i => rates_ok i && bool_decide (i_promo_to i ≠ Some t)
                | None => false
                end) order &&
  bool_decide (length (filter (λ t, is_terminal inputs t = true) order) = 1%nat).

(** The shape of steps 1 and 2: band [t] is replaced by a function of its
    own value. *)
Definition pointwise (g : string → F → option F) (t : string)
    (hc : gmap string F) : option (gmap string F) :=
  h ← hc !! t; v ← g t h; Some (<[t := v]> hc).

(** What one iteration of the second pass does to [hc] ... *)
Definition apply_move_hc (inputs : gmap string band_input)
    (moves : gmap string F) (t : string) (hc : gmap string F)
    : option (gmap string F) :=
  i ← inputs !! t;
  match i_promo_to i with
  | None => Some hc
  | Some to_team =>
      amt ← moves !! t;
      h ← hc !! t;
      let hc := <[t := h ⊖ amt]> hc in
      h' ← hc !! to_team;
      Some (<[to_team := h' ⊕ amt]> hc)
  end.

(** ... and the row it appends to [promo_rows], if any. *)
Definition promo_event (inputs : gmap string band_input)
    (moves : gmap string F) (dt : date) (t : string) : option promo_row :=
  i ← inputs !! t;
  to_team ← i_promo_to i;
  amt ← moves !! t;
  Some (PromoRow (strftime_Y_m dt) t to_team (round1 amt)).

(** The amount the first pass stores for a band with a successor. *)
Definition move_amount (inputs : gmap string band_input)
    (hc : gmap string F) (t : string) : option F :=
  i ← inputs !! t; _ ← i_promo_to i; h ← hc !! t; Some (h ⊗ promo i).

(** Every band of the table has a headcount. *)
Definition bands_present (order : list string) (hc : gmap string F) : Prop :=
  ∀ t, t ∈ order → is_Some (hc !! t).

#[export] Instance bands_present_dec order hc :
  Decision (bands_present order hc).
Proof.
  refine (cast_if (decide (Forall (λ t, is_Some (hc !! t)) order)));
    unfold bands_present; by rewrite <-Forall_forall.
Defined.

(** The values [hc] takes in the single-pool model, month after month. *)
Fixpoint simple_trace (monthly_hires : Z) (monthly_attrition : F)
    (months : list date) (hc : F) : list F :=
  match months with
  | [] => []
  | _ :: months' =>
      let hc := simple_step monthly_hires monthly_attrition hc in
      hc :: simple_trace monthly_hires monthly_attrition months' hc
  end.

(** A row of the promotion table names a band with a successor. *)
Definition row_has_successor (inputs : gmap string band_input)
    (e : promo_row) : Prop :=
  ∃ i, inputs !! from_band e = Some i ∧ i_promo_to i = Some (to_band e).

(** The amounts that the second pass adds to band [k], in the order in
    which it visits the source bands [l]. *)
Definition incoming (inputs : gmap string band_input)
    (moves : gmap string F) (k : string) (l : list string) : list F :=
  omap (λ t, i ← inputs !! t; to_team ← i_promo_to i;
             if decide (to_team = k) then moves !! t else None) l.

(** What identifies a row of the promotion table: the quarter-end label,
    the source band and the destination band. *)
Definition row_key (e : promo_row) : string * string * string :=
  (quarter_end e, from_band e, to_band e).

(** The key of the row that band [t] contributes at the quarter end [dt], if
    the band has a successor. *)
Definition promo_key (inputs : gmap string band_input) (dt : date)
    (t : string) : option (string * string * string) :=
  i ← inputs !! t; to_team ← i_promo_to i; Some (strftime_Y_m dt, t, to_team).

(** The keys of a headcount dictionary are exactly the bands of the table. *)
Definition exact_keys (order : list string) (hc : gmap string F) : Prop :=
  ∀ k, is_Some (hc !! k) ↔ k ∈ order.

(** What the iteration for source band [t] of the second pass does to the
    headcount [acc] of band [k]: the subtraction if [k] is the source, then
    the addition if [k] is the destination. *)
Definition band_effect (inputs : gmap string band_input)
    (moves : gmap string F) (k : string) (acc : F) (t : string) : F :=
  match inputs !! t ≫= i_promo_to, moves !! t with
  | Some to_team, Some amt =>
      let acc := if decide (t = k) then acc ⊖ amt else acc in
      if decide (to_team = k) then acc ⊕ amt else acc
  | _, _ => acc
  end.
End Engine.

Arguments widget_values : clear implicits.
Arguments band : clear implicits.
Arguments band_input : clear implicits.
Arguments promo_row : clear implicits.
Arguments row : clear implicits.
Arguments sim_state : clear implicits.


(** ** Concrete configurations *)

(** The program as it starts: the band table with the default widget values,
    in binary64. *)
Definition default_order : list string := TEAM_ORDER (TEAMS (F:=spec_float)).
Definition default_inputs : gmap string (band_input spec_float) :=
  build_inputs TEAMS (default_ui TEAMS).
Definition start_state : sim_state spec_float :=
  SimState (starting <$> default_inputs) [] [].

(** The same table in exact arithmetic. *)
Definition exact_order : list string := TEAM_ORDER (TEAMS (F:=Qc)).
Definition exact_inputs : gmap string (band_input Qc) :=
  build_inputs TEAMS (default_ui TEAMS).
Definition exact_start_state : sim_state Qc :=
  SimState (starting <$> exact_inputs) [] [].

(** The binary64 number nearest to the decimal [n / d]: what the literal
    denotes (division of two exactly represented integers is correctly
    rounded). *)
Definition decimal (n d : Z) : spec_float := B64.div (B64.of_Z n) (B64.of_Z d).

(** The example of the specification: the chain A -> B. *)
Definition AB : list (band spec_float) := [
  Band "A" "" (Some "B"%string) (Widgets 100 0 (B64.of_Z 10) (B64.of_Z 50));
  Band "B" "" None              (Widgets 0 0 (B64.of_Z 0) (B64.of_Z 0))
].
Definition first_quarter : list date := [Date 2025 1; Date 2025 2; Date 2025 3].

(** Every slider at 0 and no hires: the widgets of the program with
    attrition, hires and promotion all set to zero. *)
Definition zero_rates_ui (key : string) : widget_values spec_float :=
  Widgets (w_start (default_ui TEAMS key)) 0 (B64.of_Z 0) (B64.of_Z 0).

(** What is compared of the two tables of the program: the band columns of
    every row, the number of promotion rows and their amounts. *)
Definition tables_summary
    (tables : list (row spec_float) * list (promo_row spec_float))
    : list (list (option spec_float)) * nat * list spec_float :=
  (map (λ r : row spec_float, map (λ t, r_bands r !! t) default_order)
       (fst tables),
   length (snd tables),
   map promoted_hc (snd tables)).

(** The values the widgets can return.  [st.number_input] with integer
    arguments and [min_value=0] returns an integer from 0 up to the largest
    integer that JavaScript holds exactly, [2^53 - 1] (its default
    [max_value]); such an integer is a binary64 number, so [float(start)]
    and [float(hires)] are exact and do not raise [OverflowError].  The
    attrition slider returns one of 0.0, 0.5, ..., 15.0 and the promotion
    slider one of 0.0, 1.0, ..., 40.0. *)
Definition attr_slider : list spec_float :=
  (λ k, B64.div (B64.of_Z k) (B64.of_Z 2)) <$> seqZ 0 31.
Definition promo_slider : list spec_float := B64.of_Z <$> seqZ 0 41.
Definition widget_bounds (w : widget_values spec_float) : Prop :=
  0 ≤ w_start w ≤ 2 ^ 53 - 1 ∧ 0 ≤ w_hires w ≤ 2 ^ 53 - 1 ∧
  w_attr w ∈ attr_slider ∧ w_promo w ∈ promo_slider.

(** The rates that the inputs loop stores for these slider values. *)
Definition attr_rates : list spec_float :=
  (λ a, B64.div a (B64.of_Z 100)) <$> attr_slider.
Definition promo_rates : list spec_float :=
  (λ p, B64.div p (B64.of_Z 100)) <$> promo_slider.

(** An entry of [inputs] that the widgets can produce. *)
Definition reachable_input (i : band_input spec_float) : Prop :=
  (∃ n, 0 ≤ n ≤ 2 ^ 53 - 1 ∧ starting i = B64.of_Z n) ∧
  (∃ n, 0 ≤ n ≤ 2 ^ 53 - 1 ∧ hires i = B64.of_Z n) ∧
  attr i ∈ attr_rates ∧ promo i ∈ promo_rates.

(** Binary64 numbers that are finite, not negative (neither [-0.0] nor
    below zero) and of value [m * 2^e] at most [2^K]. *)
Definition below (K : Z) (x : spec_float) : Prop :=
  match x with
  | S754_zero false => True
  | S754_finite false m e => -1074 ≤ e ≤ 971 ∧ Z.pos m ≤ 2 ^ (K - e)
  | _ => False
  end.

#[export] Instance below_dec K x : Decision (below K x).
Proof. destruct x as [[]|[]| |[] m e]; simpl; apply _. Defined.

(** The binary64 number [x] is the integer [n], exactly: [x] is [+0.0] and
    [n] is 0, or [x] is [m * 2^e] with [e <= 0] and [m = n * 2^(-e)]. *)
Definition represents (n : Z) (x : spec_float) : Prop :=
  match x with
  | S754_zero false => n = 0
  | S754_finite false m e => e ≤ 0 ∧ Z.pos m = n * 2 ^ (- e)
  | _ => False
  end.

(** Positive finite binary64 numbers of value at least [2^j]. *)
Definition above (j : Z) (x : spec_float) : Prop :=
  match x with
  | S754_finite false m e => 2 ^ (j - e) ≤ Z.pos m
  | _ => False
  end.

(** The amount [y] can be taken from [x]: it is [0.0], or a power of two
    lies between the two. *)
Definition covers (x y : spec_float) : Prop :=
  y = S754_zero false ∨ ∃ j, -1074 ≤ j ∧ below j y ∧ above j x.

(** Every band has a finite non-negative headcount of at most [2^K]. *)
Definition bounded_hc (order : list string) (K : Z)
    (hc : gmap string spec_float) : Prop :=
  ∀ t, t ∈ order → ∃ h, hc !! t = Some h ∧ below K h.

(** The grand total of a headcount dictionary in exact arithmetic. *)
Definition total_of (order : list string) (hc : gmap string Qc) : Qc :=
  foldr (λ t acc, (default 0 (hc !! t) + acc)%Qc) 0%Qc order.

(** A move written with [alter]: it needs both bands to be present and then
    shifts [amt] from [t] to [to_team]. *)
Definition shift (t to_team : string) (amt : Qc) (hc : gmap string Qc)
    : option (gmap string Qc) :=
  if decide (is_Some (hc !! t) ∧ is_Some (hc !! to_team))
  then Some (alter (λ v, v + amt)%Qc to_team (alter (λ v, v - amt)%Qc t hc))
  else None.

(** What an iteration of the second pass is going to do, which does not
    depend on [hc]: raise ([None]), skip the band ([Some None]) or shift an
    amount to a successor. *)
Definition planned_move (inputs : gmap string (band_input Qc))
    (moves : gmap string Qc) (t : string) : option (option (string * Qc)) :=
  i ← inputs !! t;
  match i_promo_to i with
  | None => Some None
  | Some to_team => amt ← moves !! t; Some (Some (to_team, amt))
  end.

Definition perform (t : string) (m : option (string * Qc))
    (hc : gmap string Qc) : option (gmap string Qc) :=
  match m with
  | None => Some hc
  | Some (to_team, amt) => shift t to_team amt hc
  end.

(** Sums in exact arithmetic and over the integers. *)
Definition sum_over {A : Type} (f : A → Qc) (l : list A) : Qc :=
  foldr (λ x acc, (f x + acc)%Qc) 0%Qc l.
Definition sum_int {A : Type} (f : A → Z) (l : list A) : Z :=
  foldr (λ x acc, f x + acc) 0 l.

(** The widgets with hires, attrition and promotion set to zero, in exact
    arithmetic. *)
Definition exact_zero_ui (key : string) : widget_values Qc :=
  Widgets (w_start (default_ui (TEAMS (F:=Qc)) key)) 0 0%Qc 0%Qc.

(** The default widgets with one attrition percentage for every band. *)
Definition uniform_attrition_ui (A : Qc) (key : string) : widget_values Qc :=
  let d := default_ui (TEAMS (F:=Qc)) key in
  Widgets (w_start d) (w_hires d) A (w_promo d).

(** The solution of [x' = x * (1 - a) + E * a] after [n] steps from [x0]. *)
Definition closed_form (E a x0 : Qc) (n : nat) : Qc :=
  (E + (x0 - E) * (1 - a) ^ n)%Qc.

(** Every headcount of the dictionary is at least 0. *)
Definition all_nonneg (hc : gmap string Qc) : Prop :=
  map_Forall (λ _ h, (0 ≤ h)%Qc) hc.

(** The band table after an edit of one label: the comment above [TEAMS]
    says "edit names if Motive uses different labels", and here the last
    band is renamed from 100-149 to 100+ in its own entry while band 50-99
    still names 100-149 as its successor. *)
Definition relabelled : list (band spec_float) :=
  take 7 TEAMS
  ++ [Band "100+" "MM" None (Widgets 10 0 (B64.of_Z 2) (B64.of_Z 0))].

(** A table whose first band names a successor that is not a band. *)
Definition dangling : list (band spec_float) := [
  Band "A" "" (Some "C"%string) (Widgets 100 0 (B64.of_Z 10) (B64.of_Z 50));
  Band "B" "" None              (Widgets 0 0 (B64.of_Z 0) (B64.of_Z 0))
].

(** Order facts used by the reporting step; both instances satisfy them. *)
Class PyFloatLaws (F : Type) `{PyFloat F} : Prop := {
  gt_zero_nonneg : ∀ x : F, (x >.? of_int 0) = true → nonneg x;
  zero_nonneg : nonneg (of_int 0 : F);
  add_nonneg : ∀ x y : F, nonneg x → nonneg y → nonneg (x ⊕ y);
  zero_pct : (of_int 0 ⊘ of_int 100 : F) = of_int 0;
}.

(** * Properties *)

(** ** Loops *)

Section ForEach.
Context {A S : Type}.
Implicit Types (body : A → S → option S) (l : list A) (s : S).

Lemma for_each_cons body x l s :
  for_each body (x :: l) s = body x s ≫= for_each body l.
Proof. reflexivity. Qed.

Lemma for_each_app body l1 l2 s :
  for_each body (l1 ++ l2) s = for_each body l1 s ≫= for_each body l2.
Proof.
  revert s. induction l1 as [|x l1 IH]; intros s; simpl; [done|].
  destruct (body x s) as [s1|]; simpl; [apply IH|done].
Qed.

(** A property kept by every iteration is kept by the loop. *)
Lemma for_each_invariant (P : S → Prop) body l s s' :
  (∀ x s1 s2, x ∈ l → P s1 → body x s1 = Some s2 → P s2) →
  P s → for_each body l s = Some s' → P s'.
Proof.
  revert s. induction l as [|x l IH]; intros s Hstep HP Hrun; simpl in Hrun.
  - by simplify_eq.
  - destruct (body x s) as [s1|] eqn:Hb; simplify_eq/=.
    eapply IH; [|eapply Hstep; [left|..]; eauto|done].
    intros ???? ; apply Hstep. by right.
Qed.

(** If no iteration raises from a state satisfying the invariant, the loop
    does not raise. *)
Lemma for_each_total (P : S → Prop) body l s :
  (∀ x s1, x ∈ l → P s1 → ∃ s2, body x s1 = Some s2 ∧ P s2) →
  P s → ∃ s', for_each body l s = Some s' ∧ P s'.
Proof.
  revert s. induction l as [|x l IH]; intros s Hstep HP; simpl.
  - eauto.
  - destruct (Hstep x s) as (s1 & -> & HP1); [left|done|]. simpl.
    apply IH; [|done]. intros ????. apply Hstep; [by right|done].
Qed.

(** Iterations that commute can be run in any order. *)
Lemma for_each_Permutation body l1 l2 s :
  (∀ x y s0, body x s0 ≫= body y = body y s0 ≫= body x) →
  l1 ≡ₚ l2 → for_each body l1 s = for_each body l2 s.
Proof.
  intros Hcomm Hperm. revert s.
  induction Hperm as [|x l1 l2 _ IH|x y l|l1 l2 l3 _ IH1 _ IH2]; intros s.
  - done.
  - simpl. destruct (body x s); simpl; [apply IH|done].
  - assert (∀ a b, for_each body (a :: b :: l) s
                   = (body a s ≫= body b) ≫= for_each body l) as Hab
      by (intros a b; simpl; by destruct (body a s)).
    by rewrite !Hab, Hcomm.
  - by rewrite IH1.
Qed.
End ForEach.

Section EngineFacts.
Context {F : Type} `{PyFloat F}.
Variable order : list string.
Variable inputs : gmap string (band_input F).
Implicit Types (hc moves bands : gmap string F) (t k : string).

Lemma well_formed_spec :
  well_formed order inputs = true ↔
  NoDup order ∧
  ∀ t, t ∈ order → ∃ i, inputs !! t = Some i ∧
                        ∀ to_team, i_promo_to i = Some to_team → to_team ∈ order.
Proof.
  unfold well_formed.
  rewrite andb_true_iff, bool_decide_eq_true, forallb_forall.
  split; intros [Hnd Hall]; (split; [done|]).
  - intros t Ht%list_elem_of_In. specialize (Hall t Ht).
    destruct (inputs !! t) as [i|]; [|done]. exists i; split; [done|].
    intros to_team Hto. rewrite Hto in Hall. by apply bool_decide_eq_true in Hall.
  - intros t Ht%list_elem_of_In. destruct (Hall t Ht) as (i & -> & Hto).
    destruct (i_promo_to i) as [to_team|]; [|done].
    apply bool_decide_eq_true. by apply Hto.
Qed.

(** *** Loops that update every band from its own value *)

Lemma pointwise_loop (g : string → F → option F) l hc hc' :
  NoDup l → for_each (pointwise g) l hc = Some hc' →
  ∀ k, hc' !! k = if decide (k ∈ l) then hc !! k ≫= g k else hc !! k.
Proof.
  intros Hnd. revert hc.
  induction Hnd as [|x l Hx Hnd IH]; intros hc Hrun k; simpl in Hrun.
  - simplify_eq. by rewrite decide_False by set_solver.
  - destruct (pointwise g x hc) as [hc1|] eqn:Hp; [|done]. simpl in Hrun.
    unfold pointwise in Hp.
    destruct (hc !! x) as [h|] eqn:Hh; [|done]. simpl in Hp.
    destruct (g x h) as [v|] eqn:Hv; [|done]. simplify_eq/=.
    rewrite (IH _ Hrun k). destruct (decide (k = x)) as [->|Hne].
    + rewrite decide_False by done. rewrite decide_True by set_solver.
      by rewrite lookup_insert_eq, Hh.
    + rewrite lookup_insert_ne by done.
      destruct (decide (k ∈ l)) as [Hk|Hk].
      * rewrite decide_True; [done|by right].
      * rewrite decide_False; [done|]. by intros [?|?]%elem_of_cons.
Qed.

Lemma pointwise_loop_total (g : string → F → option F) l hc :
  NoDup l → (∀ t, t ∈ l → is_Some (hc !! t ≫= g t)) →
  is_Some (for_each (pointwise g) l hc).
Proof.
  intros Hnd. revert hc.
  induction Hnd as [|x l Hx Hnd IH]; intros hc Hall; simpl; [done|].
  destruct (Hall x) as [v Hv]; [left|].
  assert (pointwise g x hc = Some (<[x := v]> hc)) as ->.
  { unfold pointwise. destruct (hc !! x) as [h|]; [|done].
    simpl in *. by rewrite Hv. }
  simpl. apply IH. intros t Ht.
  rewrite lookup_insert_ne by set_solver. apply Hall. by right.
Qed.

Lemma attrition_pointwise t hc :
  attrition inputs t hc
  = pointwise (λ t h, i ← inputs !! t; Some (h ⊗ (of_int 1 ⊖ attr i))) t hc.
Proof.
  unfold attrition, pointwise. destruct (hc !! t); simpl; [|done].
  by destruct (inputs !! t).
Qed.

Lemma hire_pointwise t hc :
  hire inputs t hc
  = pointwise (λ t h, i ← inputs !! t; Some (h ⊕ hires i)) t hc.
Proof.
  unfold hire, pointwise. destruct (hc !! t); simpl; [|done].
  by destruct (inputs !! t).
Qed.

Lemma for_each_ext {A S} (body1 body2 : A → S → option S) l s :
  (∀ x s, body1 x s = body2 x s) → for_each body1 l s = for_each body2 l s.
Proof.
  intros Hext. revert s. induction l as [|x l IH]; intros s; simpl; [done|].
  rewrite Hext. destruct (body2 x s); simpl; [apply IH|done].
Qed.

Hypothesis Hwf : well_formed order inputs = true.

Local Lemma wf_nodup : NoDup order.
Proof using Hwf. by apply well_formed_spec in Hwf as [? _]. Qed.

Local Lemma wf_inputs t : t ∈ order → is_Some (inputs !! t).
Proof using Hwf.
  intros Ht. apply well_formed_spec in Hwf as [_ Hall].
  destruct (Hall t Ht) as (i & ? & _). by exists i.
Qed.

Local Lemma wf_successor t i to_team :
  t ∈ order → inputs !! t = Some i → i_promo_to i = Some to_team →
  to_team ∈ order.
Proof using Hwf.
  intros Ht Hi Hto. apply well_formed_spec in Hwf as [_ Hall].
  destruct (Hall t Ht) as (i' & ? & Hsucc). simplify_eq. by apply Hsucc.
Qed.

(** Step 1 on a state that has every band: nothing raises, and every band
    is multiplied by its own retention factor. *)
Lemma attrition_loop hc :
  bands_present order hc →
  ∃ hc1, for_each (attrition inputs) order hc = Some hc1 ∧
         bands_present order hc1 ∧
         (∀ t i h, t ∈ order → inputs !! t = Some i → hc !! t = Some h →
                   hc1 !! t = Some (h ⊗ (of_int 1 ⊖ attr i))) ∧
         (∀ k, k ∉ order → hc1 !! k = hc !! k).
Proof using Hwf.
  intros Hpres.
  rewrite (for_each_ext _ _ _ _ attrition_pointwise).
  edestruct (pointwise_loop_total
               (λ t h, i ← inputs !! t; Some (h ⊗ (of_int 1 ⊖ attr i)))
               order hc) as [hc1 Hrun]; [apply wf_nodup| |].
  { intros t Ht. destruct (Hpres t Ht) as [h ->], (wf_inputs t Ht) as [i Hi].
    simpl. rewrite Hi. by eexists. }
  exists hc1. split; [done|].
  pose proof (pointwise_loop _ _ _ _ wf_nodup Hrun) as Hlk.
  split_and!.
  - intros t Ht. rewrite Hlk, decide_True by done.
    destruct (Hpres t Ht) as [h ->], (wf_inputs t Ht) as [i Hi].
    simpl. rewrite Hi. by eexists.
  - intros t i h Ht Hi Hh. rewrite Hlk, decide_True by done.
    rewrite Hh. simpl. by rewrite Hi.
  - intros k Hk. by rewrite Hlk, decide_False.
Qed.

(** Step 2: every band receives its own hires. *)
Lemma hire_loop hc :
  bands_present order hc →
  ∃ hc2, for_each (hire inputs) order hc = Some hc2 ∧
         bands_present order hc2 ∧
         (∀ t i h, t ∈ order → inputs !! t = Some i → hc !! t = Some h →
                   hc2 !! t = Some (h ⊕ hires i)) ∧
         (∀ k, k ∉ order → hc2 !! k = hc !! k).
Proof using Hwf.
  intros Hpres.
  rewrite (for_each_ext _ _ _ _ hire_pointwise).
  edestruct (pointwise_loop_total
               (λ t h, i ← inputs !! t; Some (h ⊕ hires i))
               order hc) as [hc2 Hrun]; [apply wf_nodup| |].
  { intros t Ht. destruct (Hpres t Ht) as [h ->], (wf_inputs t Ht) as [i Hi].
    simpl. rewrite Hi. by eexists. }
  exists hc2. split; [done|].
  pose proof (pointwise_loop _ _ _ _ wf_nodup Hrun) as Hlk.
  split_and!.
  - intros t Ht. rewrite Hlk, decide_True by done.
    destruct (Hpres t Ht) as [h ->], (wf_inputs t Ht) as [i Hi].
    simpl. rewrite Hi. by eexists.
  - intros t i h Ht Hi Hh. rewrite Hlk, decide_True by done.
    rewrite Hh. simpl. by rewrite Hi.
  - intros k Hk. by rewrite Hlk, decide_False.
Qed.
End EngineFacts.

Section PromotionFacts.
Context {F : Type} `{PyFloat F}.
Variable order : list string.
Variable inputs : gmap string (band_input F).
Implicit Types (hc moves bands : gmap string F) (t k : string).

Lemma init_moves_lookup k :
  init_moves order !! k
  = if decide (k ∈ order) then Some (of_int 0) else None.
Proof.
  unfold init_moves.
  assert (∀ l acc, foldl (λ moves t, <[t := of_int 0]> moves) acc l !! k
                   = if decide (k ∈ l) then Some (of_int 0) else acc !! k)
    as Hgen.
  { induction l as [|x l IH]; intros acc; simpl.
    - done.
    - rewrite IH. destruct (decide (k ∈ l)) as [Hk|Hk].
      + rewrite decide_True; [done|by right].
      + destruct (decide (k = x)) as [->|Hne].
        * rewrite lookup_insert_eq. rewrite decide_True; [done|by left].
        * rewrite lookup_insert_ne by done.
          rewrite decide_False; [done|]. by intros [?|?]%elem_of_cons. }
  by rewrite Hgen, lookup_empty.
Qed.

(** The first pass reads [hc] only: whatever it has stored so far, the
    entry of a band with a successor is its headcount in [hc] times its
    rate, and the other entries are left as they were. *)
Lemma compute_move_loop hc l acc moves :
  for_each (compute_move inputs hc) l acc = Some moves →
  ∀ k, moves !! k
       = if decide (k ∈ l ∧ is_Some (inputs !! k ≫= i_promo_to))
         then move_amount inputs hc k else acc !! k.
Proof.
  revert acc. induction l as [|x l IH]; intros acc Hrun k; simpl in Hrun.
  - simplify_eq. rewrite decide_False; [done|].
    intros [[]%not_elem_of_nil _].
  - destruct (compute_move inputs hc x acc) as [acc1|] eqn:Hc; [|done].
    simpl in Hrun. rewrite (IH _ Hrun k). clear IH Hrun.
    unfold compute_move in Hc.
    destruct (inputs !! x) as [i|] eqn:Hi; [|done]. simpl in Hc.
    destruct (decide (k ∈ l ∧ is_Some (inputs !! k ≫= i_promo_to)))
      as [[Hk Hs]|Hn].
    { rewrite decide_True; [done|]. split; [by right|done]. }
    destruct (i_promo_to i) as [to_team|] eqn:Hto.
    + destruct (hc !! x) as [h|] eqn:Hh; [|done]. simplify_eq/=.
      destruct (decide (k = x)) as [->|Hne].
      * rewrite lookup_insert_eq. rewrite decide_True.
        -- unfold move_amount. by rewrite Hi; simpl; rewrite Hto; simpl; rewrite Hh.
        -- split; [by left|]. rewrite Hi. simpl. by rewrite Hto.
      * rewrite lookup_insert_ne by done. rewrite decide_False; [done|].
        intros [[?|?]%elem_of_cons ?]; [done|]. by apply Hn.
    + simplify_eq. rewrite decide_False; [done|].
      intros [[->|?]%elem_of_cons Hs]; [|by apply Hn].
      rewrite Hi in Hs. simpl in Hs. rewrite Hto in Hs. by destruct Hs.
Qed.

Lemma compute_moves_spec hc moves :
  compute_moves order inputs hc = Some moves →
  ∀ k, moves !! k
       = if decide (k ∈ order)
         then (if decide (is_Some (inputs !! k ≫= i_promo_to))
               then move_amount inputs hc k else Some (of_int 0))
         else None.
Proof.
  intros Hrun k. rewrite (compute_move_loop _ _ _ _ Hrun k).
  rewrite init_moves_lookup.
  destruct (decide (k ∈ order)), (decide (is_Some (inputs !! k ≫= i_promo_to)));
    try (rewrite decide_True by done; done);
    rewrite decide_False by (by intros [??]); done.
Qed.

(** The second pass, split in its two results. *)
Lemma apply_move_fst moves dt t hc promo_rows :
  fst <$> apply_move inputs moves dt t (hc, promo_rows)
  = apply_move_hc inputs moves t hc.
Proof.
  unfold apply_move, apply_move_hc.
  destruct (inputs !! t) as [i|]; simpl; [|done].
  destruct (i_promo_to i) as [to_team|]; simpl; [|done].
  destruct (moves !! t) as [amt|]; simpl; [|done].
  destruct (hc !! t) as [h|]; simpl; [|done].
  by destruct (<[t:=h ⊖ amt]> hc !! to_team).
Qed.

Lemma apply_move_snd moves dt t hc promo_rows st' :
  apply_move inputs moves dt t (hc, promo_rows) = Some st' →
  st'.2 = promo_rows ++ option_list (promo_event inputs moves dt t).
Proof.
  unfold apply_move, promo_event. intros Hst.
  destruct (inputs !! t) as [i|]; simpl in *; [|done].
  destruct (i_promo_to i) as [to_team|]; simpl in *;
    [|simplify_eq/=; by rewrite app_nil_r].
  destruct (moves !! t) as [amt|]; simpl in *; [|done].
  destruct (hc !! t) as [h|]; simpl in *; [|done].
  destruct (<[t:=h ⊖ amt]> hc !! to_team); by simplify_eq/=.
Qed.

Lemma apply_moves_fst l moves dt hc promo_rows :
  fst <$> apply_moves inputs l moves dt (hc, promo_rows)
  = for_each (apply_move_hc inputs moves) l hc.
Proof.
  unfold apply_moves. revert hc promo_rows.
  induction l as [|x l IH]; intros hc promo_rows; [done|].
  rewrite !for_each_cons, <-(apply_move_fst moves dt x hc promo_rows).
  destruct (apply_move inputs moves dt x (hc, promo_rows)) as [[hc1 pr1]|];
    simpl; [apply IH|done].
Qed.

Lemma apply_moves_snd l moves dt hc promo_rows st' :
  apply_moves inputs l moves dt (hc, promo_rows) = Some st' →
  st'.2 = promo_rows ++ omap (promo_event inputs moves dt) l.
Proof.
  unfold apply_moves. revert hc promo_rows.
  induction l as [|x l IH]; intros hc promo_rows Hrun.
  - simplify_eq/=. by rewrite app_nil_r.
  - rewrite for_each_cons in Hrun.
    destruct (apply_move inputs moves dt x (hc, promo_rows))
      as [[hc1 pr1]|] eqn:Hx; [|done].
    simpl in Hrun. rewrite (IH _ _ Hrun).
    apply apply_move_snd in Hx. simpl in Hx. rewrite Hx, <-app_assoc.
    f_equal. simpl. by destruct (promo_event inputs moves dt x).
Qed.

(** An iteration of the second pass keeps the set of bands. *)
Lemma apply_move_hc_present moves t hc hc' l :
  apply_move_hc inputs moves t hc = Some hc' →
  bands_present l hc → bands_present l hc'.
Proof.
  unfold apply_move_hc. intros Hst Hpres k Hk.
  destruct (inputs !! t) as [i|]; simpl in *; [|done].
  destruct (i_promo_to i) as [to_team|]; simpl in *;
    [|simplify_eq; by apply Hpres].
  destruct (moves !! t) as [amt|]; simpl in *; [|done].
  destruct (hc !! t) as [h|]; simpl in *; [|done].
  destruct (<[t:=h ⊖ amt]> hc !! to_team); simplify_eq/=.
  rewrite !lookup_insert_is_Some'. right; right. by apply Hpres.
Qed.

Hypothesis Hwf : well_formed order inputs = true.

Lemma compute_moves_total hc :
  bands_present order hc → is_Some (compute_moves order inputs hc).
Proof using Hwf.
  intros Hpres. unfold compute_moves.
  destruct (for_each_total (λ _, True) (compute_move inputs hc) order
              (init_moves order)) as (moves & -> & _); [|done|done].
  intros t moves Ht _. unfold compute_move.
  destruct (wf_inputs order inputs Hwf t Ht) as [i ->]. simpl.
  destruct (i_promo_to i); [|by eauto].
  destruct (Hpres t Ht) as [h ->]. simpl. by eauto.
Qed.

Lemma apply_moves_total moves dt hc promo_rows :
  bands_present order hc → bands_present order moves →
  ∃ hc' promo_rows',
    apply_moves inputs order moves dt (hc, promo_rows)
      = Some (hc', promo_rows') ∧ bands_present order hc'.
Proof using Hwf.
  intros Hpres Hmoves. unfold apply_moves.
  destruct (for_each_total (λ st, bands_present order st.1)
              (apply_move inputs moves dt) order (hc, promo_rows))
    as ([hc' pr'] & Hrun & Hpres'); [|done|by eauto].
  intros t [hc1 pr1] Ht Hp1. simpl in Hp1.
  assert (is_Some (apply_move_hc inputs moves t hc1)) as [hc2 Hhc2].
  { unfold apply_move_hc.
    destruct (wf_inputs order inputs Hwf t Ht) as [i Hi]. rewrite Hi. simpl.
    destruct (i_promo_to i) as [to_team|] eqn:Hto; [|done].
    destruct (Hmoves t Ht) as [amt ->], (Hp1 t Ht) as [h ->]. simpl.
    pose proof (wf_successor order inputs Hwf t i to_team Ht Hi Hto) as Hin.
    destruct (Hp1 _ Hin) as [h1 Hh1].
    destruct (<[t:=h ⊖ amt]> hc1 !! to_team) as [h'|] eqn:Hh'; [done|].
    apply lookup_insert_None in Hh' as [? _]. congruence. }
  pose proof (apply_move_fst moves dt t hc1 pr1) as Hfst.
  rewrite Hhc2 in Hfst.
  destruct (apply_move inputs moves dt t (hc1, pr1)) as [[hc2' pr2]|];
    simplify_eq/=.
  eexists; split; [done|]. simpl. by eapply apply_move_hc_present.
Qed.

Lemma compute_moves_present hc moves :
  compute_moves order inputs hc = Some moves →
  bands_present order hc → bands_present order moves.
Proof using Hwf.
  intros Hrun Hpres t Ht. rewrite (compute_moves_spec _ _ Hrun).
  rewrite decide_True by done. case_decide as Hs; [|done].
  unfold move_amount. destruct (inputs !! t) as [i|]; simpl in *; [|by destruct Hs].
  destruct (i_promo_to i); simpl in *; [|by destruct Hs].
  destruct (Hpres t Ht) as [h ->]. by eexists.
Qed.

(** Step 3 does not raise on a well-formed configuration. *)
Lemma promotions_total dt hc promo_rows :
  bands_present order hc →
  ∃ hc' promo_rows',
    promotions order inputs dt (hc, promo_rows) = Some (hc', promo_rows') ∧
    bands_present order hc'.
Proof using Hwf.
  intros Hpres. unfold promotions. simpl.
  destruct (compute_moves_total hc Hpres) as [moves Hm]. rewrite Hm. simpl.
  apply apply_moves_total; [done|]. by eapply compute_moves_present.
Qed.
End PromotionFacts.

Section StepFacts.
Context {F : Type} `{PyFloat F}.
Variable order : list string.
Variable inputs : gmap string (band_input F).
Implicit Types (hc moves bands : gmap string F) (t k : string).

(** Loops that fill a dictionary, one key per iteration. *)
Lemma fill_loop {X V} (m : string → option X) (g : X → V) l
    (acc res : gmap string V) :
  for_each (λ t acc, x ← m t; Some (<[t := g x]> acc)) l acc = Some res →
  ∀ k, res !! k = if decide (k ∈ l) then g <$> m k else acc !! k.
Proof.
  revert acc. induction l as [|x l IH]; intros acc Hrun k.
  - by simplify_eq/=.
  - rewrite for_each_cons in Hrun.
    destruct (m x) as [v|] eqn:Hv; [|done]. simpl in Hrun.
    rewrite (IH _ Hrun k). destruct (decide (k ∈ l)) as [Hk|Hk].
    + rewrite decide_True; [done|by right].
    + destruct (decide (k = x)) as [->|Hne].
      * rewrite lookup_insert_eq, decide_True, Hv; [done|by left].
      * rewrite lookup_insert_ne by done.
        rewrite decide_False; [done|]. by intros [?|?]%elem_of_cons.
Qed.

Lemma fill_loop_total {X V} (m : string → option X) (g : X → V) l
    (acc : gmap string V) :
  (∀ t, t ∈ l → is_Some (m t)) →
  is_Some (for_each (λ t acc, x ← m t; Some (<[t := g x]> acc)) l acc).
Proof.
  revert acc. induction l as [|x l IH]; intros acc Hall; [done|].
  rewrite for_each_cons. destruct (Hall x) as [v ->]; [left|]. simpl.
  apply IH. intros t Ht. apply Hall. by right.
Qed.

Lemma init_hc_spec hc :
  init_hc order inputs = Some hc →
  ∀ k, hc !! k = if decide (k ∈ order) then starting <$> inputs !! k else None.
Proof.
  intros Hrun k.
  by rewrite (fill_loop (λ t, inputs !! t) starting _ _ _ Hrun k), lookup_empty.
Qed.

(** The row records [max(0.0, hc[t])] for the bands of the table and
    nothing else. *)
Lemma record_bands_spec hc bands :
  record_bands order hc = Some bands →
  ∀ k, bands !! k
       = if decide (k ∈ order) then pymax (of_int 0) <$> hc !! k else None.
Proof.
  intros Hrun k.
  by rewrite (fill_loop (λ t, hc !! t) (pymax (of_int 0)) _ _ _ Hrun k),
       lookup_empty.
Qed.

Lemma record_total dt hc :
  bands_present order hc → is_Some (record order dt hc).
Proof.
  intros Hpres. unfold record.
  destruct (fill_loop_total (λ t, hc !! t) (pymax (of_int 0)) order ∅ Hpres)
    as [bands Hb].
  change (record_bands order hc = Some bands) in Hb. rewrite Hb. simpl.
  destruct (for_each_total (λ _, True)
              (λ t acc, v ← bands !! t; Some (acc ⊕ v)) order (of_int 0))
    as (total & Ht & _); [|done|].
  { intros t acc Ht _. rewrite (record_bands_spec _ _ Hb t).
    rewrite decide_True by done. destruct (Hpres t Ht) as [h ->]. by eauto. }
  unfold row_total. rewrite Ht. by eexists.
Qed.

(** One month, taken apart. *)
Lemma month_step_inv dt s s' :
  month_step order inputs dt s = Some s' →
  ∃ hc1 hc2 r,
    for_each (attrition inputs) order (s_hc s) = Some hc1 ∧
    for_each (hire inputs) order hc1 = Some hc2 ∧
    (if is_quarter_end dt then promotions order inputs dt (hc2, s_promo_rows s)
     else Some (hc2, s_promo_rows s)) = Some (s_hc s', s_promo_rows s') ∧
    record order dt (s_hc s') = Some r ∧
    s_rows s' = s_rows s ++ [r].
Proof.
  unfold month_step. intros Hstep.
  destruct (for_each (attrition inputs) order (s_hc s)) as [hc1|] eqn:H1;
    [|done].
  simpl in Hstep.
  destruct (for_each (hire inputs) order hc1) as [hc2|] eqn:H2; [|done].
  simpl in Hstep.
  destruct (if is_quarter_end dt
            then promotions order inputs dt (hc2, s_promo_rows s)
            else Some (hc2, s_promo_rows s)) as [[hc3 pr3]|] eqn:H3; [|done].
  simpl in Hstep.
  destruct (record order dt hc3) as [r|] eqn:Hr; [|done].
  simplify_eq/=. by exists hc1, hc2, r.
Qed.

Hypothesis Hwf : well_formed order inputs = true.

Lemma init_hc_total :
  ∃ hc, init_hc order inputs = Some hc ∧ bands_present order hc.
Proof using Hwf.
  destruct (fill_loop_total (λ t, inputs !! t) starting order ∅) as [hc Hrun].
  { intros t Ht. by apply (wf_inputs order inputs). }
  exists hc. split; [done|]. intros t Ht.
  rewrite (init_hc_spec _ Hrun), decide_True by done.
  destruct (wf_inputs order inputs Hwf t Ht) as [i ->]. by eexists.
Qed.

(** The body of the loop does not raise, and keeps every band. *)
Lemma month_step_total dt s :
  bands_present order (s_hc s) →
  ∃ s', month_step order inputs dt s = Some s' ∧
        bands_present order (s_hc s').
Proof using Hwf.
  intros Hpres. unfold month_step.
  destruct (attrition_loop order inputs Hwf _ Hpres) as (hc1 & -> & Hp1 & _).
  simpl.
  destruct (hire_loop order inputs Hwf _ Hp1) as (hc2 & -> & Hp2 & _).
  simpl.
  assert (∃ hc3 pr3,
    (if is_quarter_end dt
     then promotions order inputs dt (hc2, s_promo_rows s)
     else Some (hc2, s_promo_rows s)) = Some (hc3, pr3) ∧
    bands_present order hc3) as (hc3 & pr3 & -> & Hp3).
  { destruct (is_quarter_end dt); [|by eauto].
    by apply promotions_total. }
  simpl. destruct (record_total dt hc3 Hp3) as [r ->]. simpl. by eauto.
Qed.

Lemma run_total dates :
  ∃ s, run order inputs dates = Some s ∧ bands_present order (s_hc s).
Proof using Hwf.
  unfold run. destruct init_hc_total as (hc & -> & Hp). simpl.
  apply (for_each_total (λ s, bands_present order (s_hc s))); [|done].
  intros dt s _ Hs. by apply month_step_total.
Qed.

Lemma run_present dates s :
  run order inputs dates = Some s → bands_present order (s_hc s).
Proof using Hwf.
  intros Hrun. destruct (run_total dates) as (s' & Hrun' & Hp).
  rewrite Hrun in Hrun'. by simplify_eq.
Qed.

(** Running one more month. *)
Lemma run_snoc dates dt :
  run order inputs (dates ++ [dt])
  = run order inputs dates ≫= month_step order inputs dt.
Proof.
  unfold run. destruct (init_hc order inputs) as [hc|]; simpl; [|done].
  rewrite for_each_app. simpl.
  destruct (for_each _ dates _) as [s|]; simpl; [|done].
  by destruct (month_step order inputs dt s).
Qed.
End StepFacts.

(** ** The two arithmetics satisfy the order facts *)

Module B64Facts.
Import B64.

Lemma leb_zero_cases x :
  leb (of_Z 0) x = true ↔
  match x with
  | S754_zero _ => True
  | S754_infinity s | S754_finite s _ _ => s = false
  | S754_nan => False
  end.
Proof. destruct x as [[]|[]| |[] m e]; vm_compute; naive_solver. Qed.

Lemma shr_1_nonneg mrs : 0 ≤ shr_m mrs → 0 ≤ shr_m (shr_1 mrs).
Proof. destruct mrs as [[|[p|p|]|p] r s]; simpl; lia. Qed.

Lemma iter_shr_1_nonneg p mrs :
  0 ≤ shr_m mrs → 0 ≤ shr_m (SpecFloat.iter_pos shr_1 p mrs).
Proof.
  revert mrs. induction p as [p IH|p IH|]; intros mrs Hm; simpl;
    auto using shr_1_nonneg.
Qed.

Lemma shr_fexp_nonneg m e l :
  0 ≤ m → 0 ≤ shr_m (shr_fexp prec emax m e l).1.
Proof.
  intros Hm. unfold shr_fexp, shr.
  assert (0 ≤ shr_m (shr_record_of_loc m l)) by (by destruct l as [|[]]).
  destruct (fexp prec emax (Zdigits2 m + e) - e); simpl;
    auto using iter_shr_1_nonneg.
Qed.

Lemma round_nearest_even_nonneg m l : 0 ≤ m → 0 ≤ round_nearest_even m l.
Proof.
  intros Hm. destruct l as [|[]]; simpl; try lia. destruct (Z.even m); lia.
Qed.

(** Rounding a non-negative mantissa with a positive sign bit gives a
    non-negative number (possibly +0 or +infinity), never NaN. *)
Lemma binary_round_aux_nonneg mx ex lx :
  0 ≤ mx → leb (of_Z 0) (binary_round_aux prec emax false mx ex lx) = true.
Proof.
  intros Hm. unfold binary_round_aux.
  pose proof (shr_fexp_nonneg mx ex lx Hm) as H1.
  destruct (shr_fexp prec emax mx ex lx) as [mrs' e']. simpl in H1.
  pose proof (shr_fexp_nonneg _ e' loc_Exact
                (round_nearest_even_nonneg _ (loc_of_shr_record mrs') H1)) as H2.
  destruct (shr_fexp prec emax (round_nearest_even _ _) e' loc_Exact)
    as [mrs'' e'']. simpl in H2.
  destruct (shr_m mrs'') as [|m|m]; [done| |lia].
  by destruct (e'' <=? emax - prec).
Qed.

Lemma of_Z_nonneg n : 0 ≤ n → leb (of_Z 0) (of_Z n) = true.
Proof.
  intros Hn. destruct n as [|p|p]; [done| |lia].
  unfold of_Z, binary_normalize, binary_round.
  destruct (shl_align p 0 _) as [mz ez]. by apply binary_round_aux_nonneg.
Qed.

Lemma add_nonneg x y :
  leb (of_Z 0) x = true → leb (of_Z 0) y = true →
  leb (of_Z 0) (add x y) = true.
Proof.
  rewrite !leb_zero_cases.
  destruct x as [sx|sx| |sx mx ex], y as [sy|sy| |sy my ey];
    intros Hx Hy; simplify_eq/=; try done; [by destruct sx, sy|].
  rewrite <-leb_zero_cases.
  unfold binary_normalize, binary_round.
  destruct (shl_align _ _ _) as [mz ez]. by apply binary_round_aux_nonneg.
Qed.
End B64Facts.

#[export] Instance b64_laws : PyFloatLaws spec_float.
Proof.
  split.
  - intros x. unfold nonneg. simpl. unfold B64.gtb, B64.leb, SFltb, SFleb.
    by destruct (SFcompare _ x) as [[]|].
  - done.
  - apply B64Facts.add_nonneg.
  - done.
Qed.

(** ** Binary64: finite non-negative numbers and powers of two *)

(** Rounding to nearest never crosses a power of two, because powers of two
    are binary64 numbers.  This is enough to follow the headcounts of the
    program through attrition, hires and promotions without any real-number
    theory of rounding. *)
Module B64Bounds.
Import B64.

(** *** Powers of two *)

Lemma pow2_pos n : 0 ≤ n → 0 < 2 ^ n.
Proof. intros. by apply Z.pow_pos_nonneg. Qed.

Lemma pow2_nonneg n : 0 ≤ 2 ^ n.
Proof. by apply Z.pow_nonneg. Qed.

Lemma pow2_mono a b : a ≤ b → 2 ^ a ≤ 2 ^ b.
Proof. intros. by apply Z.pow_le_mono_r. Qed.

Lemma pow2_split a b : 0 ≤ a → 0 ≤ b → 2 ^ (a + b) = 2 ^ a * 2 ^ b.
Proof. intros. by apply Z.pow_add_r. Qed.

Lemma pow2_le_inv a b : 0 ≤ b → 2 ^ a ≤ 2 ^ b → a ≤ b.
Proof. intros Hb. by apply Z.pow_le_mono_r_iff. Qed.

Lemma pow2_lt_inv a b : 0 ≤ b → 2 ^ a < 2 ^ b → a < b.
Proof. intros Hb. by apply Z.pow_lt_mono_r_iff. Qed.

(** A positive number below [2 ^ a] forces [0 ≤ a]. *)
Lemma pow2_above_one m a : 0 < m → m ≤ 2 ^ a → 0 ≤ a.
Proof.
  intros Hm Hle. destruct (decide (0 ≤ a)) as [|Hneg]; [done|].
  rewrite Z.pow_neg_r in Hle by lia. lia.
Qed.

Lemma div_pow2_le m k a : 0 ≤ k ≤ a → m ≤ 2 ^ a → m / 2 ^ k ≤ 2 ^ (a - k).
Proof.
  intros Hk Hm. apply Z.div_le_upper_bound; [apply pow2_pos; lia|].
  rewrite <-pow2_split by lia. by replace (k + (a - k)) with a by lia.
Qed.

Lemma div_pow2_lt m k a : 0 ≤ k ≤ a → m < 2 ^ a → m / 2 ^ k < 2 ^ (a - k).
Proof.
  intros Hk Hm. apply Z.div_lt_upper_bound; [apply pow2_pos; lia|].
  rewrite <-pow2_split by lia. by replace (k + (a - k)) with a by lia.
Qed.

Lemma div_pow2_ge m k a : 0 ≤ k → 0 ≤ m → 2 ^ a ≤ m → 2 ^ (a - k) ≤ m / 2 ^ k.
Proof.
  intros Hk Hm Ha. destruct (decide (k ≤ a)) as [Hka|Hka].
  - apply Z.div_le_lower_bound; [apply pow2_pos; lia|].
    rewrite <-pow2_split by lia. by replace (k + (a - k)) with a by lia.
  - rewrite (Z.pow_neg_r 2 (a - k)) by lia.
    apply Z.div_pos; [done|apply pow2_pos; lia].
Qed.

Lemma pow2_mod k a : 0 ≤ k ≤ a → 2 ^ a mod 2 ^ k = 0.
Proof.
  intros Hk. replace a with ((a - k) + k) by lia.
  rewrite pow2_split by lia. apply Z_mod_mult.
Qed.

(** *** Number of binary digits *)

Lemma digits2_pos_bounds m :
  2 ^ (Z.pos (digits2_pos m) - 1) ≤ Z.pos m < 2 ^ Z.pos (digits2_pos m).
Proof.
  induction m as [m IH|m IH|]; cbn [digits2_pos].
  - rewrite Pos2Z.inj_succ.
    replace (Z.succ (Z.pos (digits2_pos m)) - 1)
      with (Z.succ (Z.pos (digits2_pos m) - 1)) by lia.
    rewrite !Z.pow_succ_r by lia. lia.
  - rewrite Pos2Z.inj_succ.
    replace (Z.succ (Z.pos (digits2_pos m)) - 1)
      with (Z.succ (Z.pos (digits2_pos m) - 1)) by lia.
    rewrite !Z.pow_succ_r by lia. lia.
  - simpl. lia.
Qed.

Lemma Zdigits2_bounds m :
  0 < m → 0 < Zdigits2 m ∧ 2 ^ (Zdigits2 m - 1) ≤ m < 2 ^ Zdigits2 m.
Proof.
  intros Hm. destruct m as [|p|p]; [lia| |lia]. simpl.
  split; [lia|apply digits2_pos_bounds].
Qed.

(** *** Shifting right *)

Lemma shr_1_spec m r s :
  0 ≤ m →
  shr_1 (Build_shr_record m r s) = Build_shr_record (m / 2) (Z.odd m) (r || s).
Proof.
  intros Hm. rewrite <-Z.div2_div.
  destruct m as [|[p|p|]|p]; try done; lia.
Qed.

Lemma iter_pos_nat {A : Type} (f : A → A) p x :
  SpecFloat.iter_pos f p x = Nat.iter (Pos.to_nat p) f x.
Proof.
  revert x. induction p as [p IH|p IH|]; intros x; cbn [SpecFloat.iter_pos].
  - rewrite !IH. rewrite Pos2Nat.inj_xI.
    replace (S (2 * Pos.to_nat p))%nat
      with (Pos.to_nat p + (Pos.to_nat p + 1))%nat by lia.
    rewrite !Nat.iter_add. done.
  - rewrite !IH. rewrite Pos2Nat.inj_xO.
    replace (2 * Pos.to_nat p)%nat
      with (Pos.to_nat p + Pos.to_nat p)%nat by lia.
    by rewrite Nat.iter_add.
  - done.
Qed.

Lemma iter_shr_1_spec (k : nat) m :
  0 ≤ m →
  shr_m (Nat.iter k shr_1 (Build_shr_record m false false)) = m / 2 ^ Z.of_nat k ∧
  (m mod 2 ^ Z.of_nat k = 0 →
   shr_r (Nat.iter k shr_1 (Build_shr_record m false false)) = false ∧
   shr_s (Nat.iter k shr_1 (Build_shr_record m false false)) = false).
Proof.
  intros Hm. induction k as [|k [IHm IHz]].
  - simpl. by rewrite Z.div_1_r.
  - rewrite Nat.iter_succ.
    destruct (Nat.iter k shr_1 (Build_shr_record m false false))
      as [mk rk sk] eqn:Hk.
    simpl in IHm, IHz.
    assert (0 < 2 ^ Z.of_nat k) as Hpow by (apply pow2_pos; lia).
    assert (0 ≤ mk) as Hmk by (subst mk; by apply Z.div_pos).
    rewrite shr_1_spec by done. simpl.
    rewrite Nat2Z.inj_succ, Z.pow_succ_r by lia. split.
    + subst mk. rewrite Z.div_div by lia. f_equal. lia.
    + intros Hmod.
      apply Z.mod_divide in Hmod as [c Hc]; [|lia].
      assert (m mod 2 ^ Z.of_nat k = 0) as Hmod'.
      { apply Z.mod_divide; [lia|]. exists (c * 2). lia. }
      destruct (IHz Hmod') as [-> ->].
      assert (mk = c * 2) as ->.
      { subst mk. rewrite Hc.
        replace (c * (2 * 2 ^ Z.of_nat k)) with (c * 2 * 2 ^ Z.of_nat k) by lia.
        apply Z.div_mul. lia. }
      split; [|done]. replace (c * 2) with (2 * c) by lia.
      by rewrite Z.odd_even.
Qed.

Lemma shr_spec m e n :
  0 ≤ m →
  ∃ mrs,
    shr (Build_shr_record m false false) e n = (mrs, e + Z.max 0 n) ∧
    shr_m mrs = m / 2 ^ Z.max 0 n ∧
    (m mod 2 ^ Z.max 0 n = 0 → shr_r mrs = false ∧ shr_s mrs = false).
Proof.
  intros Hm. destruct n as [|p|p]; simpl.
  - eexists. rewrite Z.add_0_r. split; [done|]. simpl.
    by rewrite Z.div_1_r.
  - eexists. split; [done|]. rewrite iter_pos_nat.
    replace (Z.max 0 (Z.pos p)) with (Z.of_nat (Pos.to_nat p)) by lia.
    by apply iter_shr_1_spec.
  - eexists. rewrite Z.add_0_r. split; [done|]. simpl.
    by rewrite Z.div_1_r.
Qed.

Lemma round_nearest_even_bounds mrs q :
  shr_m mrs = q →
  q ≤ round_nearest_even (shr_m mrs) (loc_of_shr_record mrs) ≤ q + 1 ∧
  (shr_r mrs = false ∧ shr_s mrs = false →
   round_nearest_even (shr_m mrs) (loc_of_shr_record mrs) = q).
Proof.
  intros <-. destruct mrs as [m [] []]; simpl; split; try lia;
    try (by intros [??]); try done.
  all: destruct (Z.even m); lia.
Qed.

(** *** Rounding *)

Lemma fexp_eq x : fexp prec emax x = Z.max (x - 53) (-1074).
Proof. reflexivity. Qed.

(** What [binary_round_aux] computes from an exact positive mantissa: a
    shift to the working exponent, rounding to nearest (the mantissa goes up
    by at most one, and stays when nothing was shifted out), and a second
    shift if the rounding carried. *)
Lemma round_aux_shape m e :
  0 < m →
  ∃ k1 mr k2,
    k1 = Z.max 0 (Z.max (Zdigits2 m + e - 53) (-1074) - e) ∧
    m / 2 ^ k1 ≤ mr ≤ m / 2 ^ k1 + 1 ∧
    (m mod 2 ^ k1 = 0 → mr = m / 2 ^ k1) ∧
    k2 = Z.max 0 (Z.max (Zdigits2 mr + (e + k1) - 53) (-1074) - (e + k1)) ∧
    binary_round_aux prec emax false m e loc_Exact
    = match mr / 2 ^ k2 with
      | 0 => S754_zero false
      | Z.pos m' =>
          if e + k1 + k2 <=? 971 then S754_finite false m' (e + k1 + k2)
          else S754_infinity false
      | Z.neg _ => S754_nan
      end.
Proof.
  intros Hm. unfold binary_round_aux, shr_fexp. rewrite fexp_eq.
  cbn [shr_record_of_loc].
  destruct (shr_spec m e (Z.max (Zdigits2 m + e - 53) (-1074) - e))
    as (mrs & -> & Hq & Hexact); [lia|].
  set (k1 := Z.max 0 (Z.max (Zdigits2 m + e - 53) (-1074) - e)) in *.
  destruct (round_nearest_even_bounds mrs _ Hq) as [Hmr Hmr'].
  set (mr := round_nearest_even (shr_m mrs) (loc_of_shr_record mrs)) in *.
  assert (0 ≤ m / 2 ^ k1) as Hq0
    by (apply Z.div_pos; [lia|apply pow2_pos; lia]).
  rewrite fexp_eq.
  destruct (shr_spec mr (e + k1)
              (Z.max (Zdigits2 mr + (e + k1) - 53) (-1074) - (e + k1)))
    as (mrs2 & -> & Hq2 & _); [lia|].
  exists k1, mr, (Z.max 0 (Z.max (Zdigits2 mr + (e + k1) - 53) (-1074) - (e + k1))).
  split_and!; [done|lia|lia|by auto|done|]. rewrite Hq2. done.
Qed.

(** Rounding does not cross a power of two: a positive value of at most
    [2 ^ J] rounds to a finite non-negative number that is still at most
    [2 ^ J], and a value of at least [2 ^ j] to one that is at least
    [2 ^ j]. *)
Lemma round_aux_bounds (m : positive) e J :
  e ≤ 971 → -1074 ≤ J ≤ 1023 → Z.pos m ≤ 2 ^ (J - e) →
  below J (binary_round_aux prec emax false (Z.pos m) e loc_Exact) ∧
  ∀ j, -1074 ≤ j → 2 ^ (j - e) ≤ Z.pos m →
       above j (binary_round_aux prec emax false (Z.pos m) e loc_Exact).
Proof.
  intros He HJ Hup.
  destruct (round_aux_shape (Z.pos m) e) as (k1 & mr & k2 & Hk1 & Hmr & Hex & Hk2 & ->);
    [lia|].
  destruct (Zdigits2_bounds (Z.pos m)) as (Hd0 & Hd1 & Hd2); [lia|].
  set (d := Zdigits2 (Z.pos m)) in *.
  assert (0 ≤ J - e) as HJe by (by eapply (pow2_above_one (Z.pos m))).
  assert (d - 1 ≤ J - e) as Hd.
  { apply pow2_le_inv; [done|]. lia. }
  assert (0 ≤ k1 ≤ J - e) as Hk1' by lia.
  assert (-1074 ≤ e + k1) as He1 by lia.
  assert (e + k1 ≤ 971) as He1' by lia.
  assert (0 < 2 ^ k1) as Hp1 by (apply pow2_pos; lia).
  assert (0 ≤ Z.pos m / 2 ^ k1) as Hq0 by (apply Z.div_pos; lia).
  assert (mr ≤ 2 ^ (J - (e + k1))) as Hmrup.
  { replace (J - (e + k1)) with (J - e - k1) by lia.
    destruct (decide (Z.pos m = 2 ^ (J - e))) as [Heq|Hne].
    - rewrite Hex; [by apply div_pow2_le|]. rewrite Heq. by apply pow2_mod.
    - pose proof (div_pow2_lt (Z.pos m) k1 (J - e) Hk1') as Hlt. lia. }
  assert (0 < mr →
          ∃ m2, mr / 2 ^ k2 = Z.pos m2 ∧ -1074 ≤ e + k1 + k2 ≤ 971 ∧
                Z.pos m2 ≤ 2 ^ (J - (e + k1 + k2)) ∧ 0 ≤ k2) as Hfin.
  { intros Hmr0.
    destruct (Zdigits2_bounds mr Hmr0) as (Hr0 & Hr1 & Hr2).
    set (dr := Zdigits2 mr) in *.
    assert (0 ≤ J - (e + k1)) as HJe1 by lia.
    assert (dr - 1 ≤ J - (e + k1)) as Hdr.
    { apply pow2_le_inv; [done|]. lia. }
    assert (0 ≤ k2 ≤ J - (e + k1)) as Hk2' by lia.
    assert (0 < 2 ^ k2) as Hp2 by (apply pow2_pos; lia).
    assert (0 < mr / 2 ^ k2) as Hm2.
    { destruct (decide (k2 = 0)) as [->|Hk2n].
      - rewrite Z.div_1_r. done.
      - assert (k2 = dr - 53) as Hk2e by lia.
        pose proof (div_pow2_ge mr k2 (dr - 1)) as Hge.
        assert (0 < 2 ^ (dr - 1 - k2)) by (apply pow2_pos; lia). lia. }
    destruct (mr / 2 ^ k2) as [|m2|m2] eqn:Hm2e; [lia| |lia].
    exists m2. split_and!; [done|lia|lia| |lia].
    rewrite <-Hm2e. replace (J - (e + k1 + k2)) with (J - (e + k1) - k2) by lia.
    by apply div_pow2_le. }
  split.
  - destruct (decide (mr = 0)) as [->|Hmr0].
    + rewrite Z.div_0_l; [done|]. apply Z.pow_nonzero; lia.
    + destruct Hfin as (m2 & -> & He2 & Hm2 & _); [lia|].
      rewrite (proj2 (Z.leb_le _ _)) by lia. done.
  - intros j Hj Hlow.
    assert (1 ≤ Z.pos m / 2 ^ k1) as Hq1.
    { assert (j - e < d) as Hjd.
      { apply pow2_lt_inv; [lia|]. lia. }
      pose proof (div_pow2_ge (Z.pos m) k1 (d - 1)) as Hge.
      assert (0 < 2 ^ (d - 1 - k1)) by (apply pow2_pos; lia). lia. }
    destruct Hfin as (m2 & Hm2e & He2 & Hm2 & Hk2'); [lia|].
    rewrite Hm2e, (proj2 (Z.leb_le _ _)) by lia. simpl.
    rewrite <-Hm2e.
    replace (j - (e + k1 + k2)) with (j - e - k1 - k2) by lia.
    apply div_pow2_ge; [done|lia|].
    etrans; [apply (div_pow2_ge (Z.pos m) k1 (j - e)); lia|lia].
Qed.

Lemma iter_xO m d : Z.pos (Pos.iter xO m d) = Z.pos m * 2 ^ Z.pos d.
Proof.
  induction d as [|d IH] using Pos.peano_ind.
  - simpl. lia.
  - rewrite Pos.iter_succ, Pos2Z.inj_xO, IH, Pos2Z.inj_succ.
    rewrite Z.pow_succ_r by lia. lia.
Qed.

Lemma shl_align_spec m e e' :
  ∃ mz, shl_align m e e' = (mz, Z.min e e') ∧
        Z.pos mz = Z.pos m * 2 ^ (e - Z.min e e').
Proof.
  unfold shl_align. destruct (e' - e) as [|p|p] eqn:Hd.
  - exists m. replace (Z.min e e') with e by lia.
    rewrite Z.sub_diag. split; [done|]. simpl. lia.
  - exists m. replace (Z.min e e') with e by lia.
    rewrite Z.sub_diag. split; [done|]. simpl. lia.
  - exists (Pos.iter xO m p). replace (Z.min e e') with e' by lia.
    split; [done|]. rewrite iter_xO. f_equal. f_equal. lia.
Qed.

Lemma round_bounds (m : positive) e J :
  e ≤ 971 → -1074 ≤ J ≤ 1023 → Z.pos m ≤ 2 ^ (J - e) →
  below J (binary_round prec emax false m e) ∧
  ∀ j, -1074 ≤ j → 2 ^ (j - e) ≤ Z.pos m →
       above j (binary_round prec emax false m e).
Proof.
  intros He HJ Hup. unfold binary_round.
  destruct (shl_align_spec m e (fexp prec emax (Z.pos (digits2_pos m) + e)))
    as (mz & -> & Hmz).
  set (ez := Z.min e (fexp prec emax (Z.pos (digits2_pos m) + e))) in *.
  assert (ez ≤ e) as Hez by lia.
  assert (0 ≤ J - e) as HJe by (by eapply (pow2_above_one (Z.pos m))).
  assert (0 < 2 ^ (e - ez)) as Hp by (apply pow2_pos; lia).
  destruct (round_aux_bounds mz ez J) as [Hb Ha]; [lia|done| |].
  { rewrite Hmz. replace (J - ez) with ((J - e) + (e - ez)) by lia.
    rewrite pow2_split by lia. nia. }
  split; [done|]. intros j Hj Hlow. apply Ha; [done|]. rewrite Hmz.
  destruct (decide (e ≤ j)) as [Hje|Hje].
  - replace (j - ez) with ((j - e) + (e - ez)) by lia.
    rewrite pow2_split by lia. nia.
  - etrans; [apply (pow2_mono (j - ez) (e - ez)); lia|]. nia.
Qed.

(** *** The operations on finite non-negative numbers *)

Lemma below_mono K K' x : K ≤ K' → below K x → below K' x.
Proof.
  intros HK. destruct x as [[]|[]| |[] m e]; simpl; try done.
  intros [He Hm]. split; [done|].
  etrans; [done|]. apply pow2_mono. lia.
Qed.

Lemma above_finite j x :
  above j x → ∃ m e, x = S754_finite false m e ∧ 2 ^ (j - e) ≤ Z.pos m.
Proof. destruct x as [[]|[]| |[] m e]; simpl; try done. by eauto. Qed.

Lemma below_nonneg K x : below K x → leb (of_Z 0) x = true.
Proof. by destruct x as [[]|[]| |[] m e]. Qed.

(** [max(0.0, h)] leaves a finite non-negative [h] as it is. *)
Lemma below_max K x :
  below K x → (if gtb x (of_Z 0) then x else of_Z 0) = x.
Proof. by destruct x as [[]|[]| |[] m e]. Qed.

Lemma of_Z_below n : 0 ≤ n ≤ 2 ^ 53 - 1 → below 53 (of_Z n).
Proof.
  intros Hn. destruct n as [|p|p]; [done| |lia].
  apply round_bounds; [lia|lia|]. rewrite Z.sub_0_r. lia.
Qed.

(** [float(n)] is [n] itself for an integer of at most 53 bits. *)
Lemma of_Z_represents n : 0 ≤ n ≤ 2 ^ 53 - 1 → represents n (of_Z n).
Proof.
  intros Hn. destruct n as [|p|p]; [done| |lia].
  unfold of_Z, binary_normalize, binary_round.
  destruct (digits2_pos_bounds p) as [Hd1 Hd2].
  set (d := Z.pos (digits2_pos p)) in *.
  assert (0 < d) as Hd0 by (unfold d; lia).
  assert (d ≤ 53) as Hd53.
  { assert (d - 1 < 53); [|lia]. apply pow2_lt_inv; lia. }
  destruct (shl_align_spec p 0 (fexp prec emax (d + 0))) as (mz & -> & Hmz).
  rewrite fexp_eq in *.
  replace (Z.min 0 (Z.max (d + 0 - 53) (-1074))) with (d - 53) in * by lia.
  replace (0 - (d - 53)) with (53 - d) in Hmz by lia.
  assert (0 < 2 ^ (53 - d)) as Hp by (apply pow2_pos; lia).
  assert (2 ^ 52 ≤ Z.pos mz < 2 ^ 53) as Hmz'.
  { rewrite Hmz. split.
    - replace 52 with ((d - 1) + (53 - d)) by lia.
      rewrite pow2_split by lia. nia.
    - replace 53 with (d + (53 - d)) at 2 by lia.
      rewrite pow2_split by lia. nia. }
  assert (Zdigits2 (Z.pos mz) = 53) as Hdz.
  { destruct (Zdigits2_bounds (Z.pos mz)) as (H0 & H1 & H2); [lia|].
    assert (Zdigits2 (Z.pos mz) - 1 < 53) by (apply pow2_lt_inv; lia).
    assert (52 < Zdigits2 (Z.pos mz)) by (apply pow2_lt_inv; lia). lia. }
  destruct (round_aux_shape (Z.pos mz) (d - 53))
    as (k1 & mr & k2 & Hk1 & _ & Hex & Hk2 & ->); [lia|].
  rewrite Hdz in Hk1. assert (k1 = 0) as -> by lia.
  rewrite Z.pow_0_r, Z.mod_1_r, Z.div_1_r in Hex. rewrite Hex in * by done.
  rewrite Hdz in Hk2. assert (k2 = 0) as -> by lia.
  rewrite Z.pow_0_r, Z.div_1_r, !Z.add_0_r.
  rewrite (proj2 (Z.leb_le _ _)) by lia. simpl.
  split; [lia|]. rewrite Hmz. f_equal. f_equal. lia.
Qed.

Lemma mul_below K x c :
  K ≤ 1023 → below K x → below 0 c → below K (mul x c).
Proof.
  intros HK Hx Hc.
  destruct x as [[]|[]| |[] mx ex], c as [[]|[]| |[] mc ec]; try done.
  destruct Hx as [Hex Hmx], Hc as [Hec Hmc].
  assert (0 ≤ K - ex) by (by eapply (pow2_above_one (Z.pos mx))).
  assert (0 ≤ 0 - ec) by (by eapply (pow2_above_one (Z.pos mc))).
  apply round_aux_bounds; [lia|lia|].
  replace (K - (ex + ec)) with ((K - ex) + (0 - ec)) by lia.
  rewrite pow2_split, Pos2Z.inj_mul by lia.
  apply Z.mul_le_mono_nonneg; lia.
Qed.

(** A product with a factor of at most one half can be taken from the
    other factor. *)
Lemma mul_covers K x p :
  K ≤ 1023 → below K x → below (-1) p → covers x (mul x p).
Proof.
  intros HK Hx Hp.
  destruct x as [[]|[]| |[] mx ex], p as [[]|[]| |[] mp ep]; try done;
    try (by left).
  right. destruct Hx as [Hex Hmx], Hp as [Hep Hmp].
  destruct (digits2_pos_bounds mx) as [Hd1 Hd2].
  set (d := Z.pos (digits2_pos mx)) in *.
  assert (0 < d) as Hd0 by (unfold d; lia).
  assert (0 ≤ K - ex) by (by eapply (pow2_above_one (Z.pos mx))).
  assert (0 ≤ -1 - ep) by (by eapply (pow2_above_one (Z.pos mp))).
  assert (d - 1 ≤ K - ex) by (apply pow2_le_inv; [done|lia]).
  exists (d - 1 + ex). split; [lia|]. split.
  - apply round_aux_bounds; [lia|lia|].
    replace (d - 1 + ex - (ex + ep)) with (d + (-1 - ep)) by lia.
    rewrite pow2_split, Pos2Z.inj_mul by lia.
    apply Z.mul_le_mono_nonneg; lia.
  - simpl. by replace (d - 1 + ex - ex) with (d - 1) by lia.
Qed.

(** The aligned mantissas of an addition or subtraction. *)
Lemma aligned mx ex ez :
  ez ≤ ex → Z.pos (shl_align mx ex ez).1 = Z.pos mx * 2 ^ (ex - ez).
Proof.
  intros Hez. destruct (shl_align_spec mx ex ez) as (mz & Heq & Hmz).
  rewrite Heq. cbn [fst]. rewrite Hmz. f_equal. f_equal. lia.
Qed.

Lemma add_below K x y :
  K + 1 ≤ 1023 → below K x → below K y → below (K + 1) (add x y).
Proof.
  intros HK Hx Hy.
  destruct x as [[]|[]| |[] mx ex], y as [[]|[]| |[] my ey]; try done;
    try (by eapply below_mono; [|done]; lia).
  destruct Hx as [Hex Hmx], Hy as [Hey Hmy].
  unfold add, SFadd. cbn [cond_Zopp]. rewrite !aligned by lia.
  set (ez := Z.min ex ey).
  assert (0 ≤ K - ex) by (by eapply (pow2_above_one (Z.pos mx))).
  assert (0 ≤ K - ey) by (by eapply (pow2_above_one (Z.pos my))).
  assert (0 < 2 ^ (ex - ez)) by (apply pow2_pos; lia).
  assert (0 < 2 ^ (ey - ez)) by (apply pow2_pos; lia).
  assert (Z.pos mx * 2 ^ (ex - ez) ≤ 2 ^ (K - ez)) as Hx'.
  { replace (K - ez) with ((K - ex) + (ex - ez)) by lia.
    rewrite pow2_split by lia. nia. }
  assert (Z.pos my * 2 ^ (ey - ez) ≤ 2 ^ (K - ez)) as Hy'.
  { replace (K - ez) with ((K - ey) + (ey - ez)) by lia.
    rewrite pow2_split by lia. nia. }
  destruct (Z.pos mx * 2 ^ (ex - ez) + Z.pos my * 2 ^ (ey - ez))
    as [|s|s] eqn:Hs; [lia| |lia].
  cbn [binary_normalize]. apply round_bounds; [lia|lia|].
  rewrite <-Hs. replace (K + 1 - ez) with (Z.succ (K - ez)) by lia.
  rewrite Z.pow_succ_r by lia. lia.
Qed.

Lemma add_above K j x y :
  K + 1 ≤ 1023 → -1074 ≤ j → below K x → below K y → above j x →
  above j (add x y).
Proof.
  intros HK Hj Hx Hy Ha.
  destruct x as [[]|[]| |[] mx ex], y as [[]|[]| |[] my ey]; try done.
  destruct Hx as [Hex Hmx], Hy as [Hey Hmy]. simpl in Ha.
  unfold add, SFadd. cbn [cond_Zopp]. rewrite !aligned by lia.
  set (ez := Z.min ex ey).
  assert (0 ≤ K - ex) by (by eapply (pow2_above_one (Z.pos mx))).
  assert (0 ≤ K - ey) by (by eapply (pow2_above_one (Z.pos my))).
  assert (0 < 2 ^ (ex - ez)) by (apply pow2_pos; lia).
  assert (0 < 2 ^ (ey - ez)) by (apply pow2_pos; lia).
  assert (Z.pos mx * 2 ^ (ex - ez) ≤ 2 ^ (K - ez)) as Hx'.
  { replace (K - ez) with ((K - ex) + (ex - ez)) by lia.
    rewrite pow2_split by lia. nia. }
  assert (Z.pos my * 2 ^ (ey - ez) ≤ 2 ^ (K - ez)) as Hy'.
  { replace (K - ez) with ((K - ey) + (ey - ez)) by lia.
    rewrite pow2_split by lia. nia. }
  assert (2 ^ (j - ez) ≤ Z.pos mx * 2 ^ (ex - ez)) as Hlow.
  { destruct (decide (ex ≤ j)) as [Hje|Hje].
    - replace (j - ez) with ((j - ex) + (ex - ez)) by lia.
      rewrite pow2_split by lia. nia.
    - etrans; [apply (pow2_mono (j - ez) (ex - ez)); lia|]. nia. }
  destruct (Z.pos mx * 2 ^ (ex - ez) + Z.pos my * 2 ^ (ey - ez))
    as [|s|s] eqn:Hs; [lia| |lia].
  cbn [binary_normalize].
  apply (round_bounds s ez (K + 1)); [lia|lia| |done|lia].
  rewrite <-Hs. replace (K + 1 - ez) with (Z.succ (K - ez)) by lia.
  rewrite Z.pow_succ_r by lia. lia.
Qed.

Lemma sub_below K x y :
  K ≤ 1023 → below K x → covers x y → below K (sub x y).
Proof.
  intros HK Hx [->|(j & Hj & Hy & Ha)].
  { by destruct x as [[]|[]| |[] mx ex]. }
  destruct x as [[]|[]| |[] mx ex], y as [[]|[]| |[] my ey]; try done.
  destruct Hx as [Hex Hmx], Hy as [Hey Hmy]. simpl in Ha.
  unfold sub, SFsub. cbn [cond_Zopp]. rewrite !aligned by lia.
  set (ez := Z.min ex ey).
  assert (0 ≤ K - ex) by (by eapply (pow2_above_one (Z.pos mx))).
  assert (0 ≤ j - ey) by (by eapply (pow2_above_one (Z.pos my))).
  assert (0 < 2 ^ (ex - ez)) by (apply pow2_pos; lia).
  assert (0 < 2 ^ (ey - ez)) by (apply pow2_pos; lia).
  assert (Z.pos mx * 2 ^ (ex - ez) ≤ 2 ^ (K - ez)) as Hx'.
  { replace (K - ez) with ((K - ex) + (ex - ez)) by lia.
    rewrite pow2_split by lia. nia. }
  assert (Z.pos my * 2 ^ (ey - ez) ≤ 2 ^ (j - ez)) as Hy'.
  { replace (j - ez) with ((j - ey) + (ey - ez)) by lia.
    rewrite pow2_split by lia. nia. }
  assert (2 ^ (j - ez) ≤ Z.pos mx * 2 ^ (ex - ez)) as Hlow.
  { destruct (decide (ex ≤ j)) as [Hje|Hje].
    - replace (j - ez) with ((j - ex) + (ex - ez)) by lia.
      rewrite pow2_split by lia. nia.
    - etrans; [apply (pow2_mono (j - ez) (ex - ez)); lia|]. nia. }
  destruct (Z.pos mx * 2 ^ (ex - ez) - Z.pos my * 2 ^ (ey - ez))
    as [|s|s] eqn:Hs; [done| |lia].
  cbn [binary_normalize]. apply round_bounds; [lia|lia|]. lia.
Qed.

(** Adding to a headcount does not take away what it covered. *)
Lemma add_covers K x y a :
  K + 1 ≤ 1023 → below K x → below K a → covers x y → covers (add x a) y.
Proof.
  intros HK Hx Ha [->|(j & Hj & Hy & Hab)]; [by left|].
  right. exists j. split_and!; [done..|]. by eapply add_above.
Qed.
End B64Bounds.

Module ExactFacts.
Lemma of_Z_0 : Exact.of_Z 0 = 0%Qc.
Proof. by apply Qc_is_canon. Qed.
Lemma of_Z_1 : Exact.of_Z 1 = 1%Qc.
Proof. by apply Qc_is_canon. Qed.

Lemma nonneg_iff (x : Qc) : nonneg x ↔ (0 ≤ x)%Qc.
Proof.
  unfold nonneg. simpl. unfold Exact.leb.
  by rewrite bool_decide_eq_true, of_Z_0.
Qed.

Lemma gtb_iff (x y : Qc) : (x >.? y) = true ↔ (y < x)%Qc.
Proof. simpl. unfold Exact.gtb. by rewrite bool_decide_eq_true. Qed.

Lemma leb_iff (x y : Qc) : (x <=.? y) = true ↔ (x ≤ y)%Qc.
Proof. simpl. unfold Exact.leb. by rewrite bool_decide_eq_true. Qed.
End ExactFacts.

#[export] Instance exact_laws : PyFloatLaws Qc.
Proof.
  split.
  - intros x Hx. apply ExactFacts.nonneg_iff. apply ExactFacts.gtb_iff in Hx.
    change (of_int 0) with (Exact.of_Z 0) in Hx.
    rewrite ExactFacts.of_Z_0 in Hx. by apply Qclt_le_weak.
  - by rewrite ExactFacts.nonneg_iff.
  - intros x y. rewrite !ExactFacts.nonneg_iff. intros Hx Hy.
    replace 0%Qc with (0 + 0)%Qc by ring. by apply Qcplus_le_compat.
  - by apply Qc_is_canon.
Qed.

(** Binary64 as Python shows it: [0.1 + 0.2 != 0.3], [1.0 - 0.1 == 0.9], and
    [round(x, 1)] on 0.25, 0.35, 36.45, 2.675, 0.05, 0.15, -0.04 gives 0.2,
    0.3, 36.5, 2.7, 0.1, 0.1, -0.0. *)
Example binary64_arithmetic :
  B64.add (decimal 1 10) (decimal 2 10) ≠ decimal 3 10 ∧
  B64.sub (B64.of_Z 1) (decimal 1 10) = decimal 9 10 ∧
  B64.round_1 <$> [decimal 25 100; decimal 35 100; decimal 3645 100;
                   decimal 2675 1000; decimal 5 100; decimal 15 100;
                   decimal (-4) 100]
  = [decimal 2 10; decimal 3 10; decimal 365 10; decimal 27 10;
     decimal 1 10; decimal 1 10; S754_zero true].
Proof. split_and!; [by vm_compute|by vm_compute..]. Qed.

(** ** The inputs dictionary *)

Section InputsFacts.
Context {F : Type} `{PyFloat F}.
Implicit Types (teams : list (band F)) (ui : string → widget_values F).

Lemma build_inputs_fold teams ui (acc : gmap string (band_input F)) k :
  k ∉ TEAM_ORDER teams →
  foldl (λ inputs b, <[team b := band_inputs b (ui (team b))]> inputs)
        acc teams !! k = acc !! k.
Proof.
  revert acc. induction teams as [|x l IH]; intros acc Hk; simpl; [done|].
  unfold TEAM_ORDER in Hk. rewrite fmap_cons, not_elem_of_cons in Hk.
  destruct Hk as [Hne Hk]. rewrite IH by done. by rewrite lookup_insert_ne.
Qed.

(** With distinct band names, [inputs[team]] is what the loop stored for
    that band. *)
Lemma build_inputs_lookup teams ui b :
  NoDup (TEAM_ORDER teams) → b ∈ teams →
  build_inputs teams ui !! team b = Some (band_inputs b (ui (team b))).
Proof.
  unfold build_inputs. generalize (∅ : gmap string (band_input F)).
  induction teams as [|x l IH]; intros acc Hnd Hb.
  - by apply elem_of_nil in Hb.
  - unfold TEAM_ORDER in Hnd. rewrite fmap_cons in Hnd.
    apply NoDup_cons in Hnd as [Hx Hnd]. simpl.
    apply elem_of_cons in Hb as [->|Hb]; [|by apply IH].
    rewrite build_inputs_fold by done. by rewrite lookup_insert_eq.
Qed.

Lemma build_inputs_lookup_None teams ui k :
  k ∉ TEAM_ORDER teams → build_inputs teams ui !! k = None.
Proof. intros Hk. unfold build_inputs. by rewrite build_inputs_fold. Qed.

Lemma build_inputs_lookup_Some teams ui k i :
  NoDup (TEAM_ORDER teams) → build_inputs teams ui !! k = Some i →
  ∃ b, b ∈ teams ∧ team b = k ∧ i = band_inputs b (ui k).
Proof.
  intros Hnd Hi. destruct (decide (k ∈ TEAM_ORDER teams)) as [Hk|Hk].
  - apply list_elem_of_fmap in Hk as (b & -> & Hb).
    rewrite build_inputs_lookup in Hi by done. simplify_eq. by exists b.
  - by rewrite build_inputs_lookup_None in Hi.
Qed.
End InputsFacts.

(** ** Recording *)

Section RecordFacts.
Context {F : Type} `{PyFloat F}.
Variable order : list string.
Variable inputs : gmap string (band_input F).
Implicit Types (hc moves bands : gmap string F) (t k : string).

Lemma record_inv dt hc r :
  record order dt hc = Some r →
  r_month r = dt ∧ record_bands order hc = Some (r_bands r) ∧
  row_total order (r_bands r) = Some (r_total r).
Proof.
  unfold record. intros Hr.
  destruct (record_bands order hc) as [bands|]; [|done]. simpl in Hr.
  destruct (row_total order bands) as [total|] eqn:Ht; by simplify_eq/=.
Qed.

Lemma pymax_zero_id (v : F) :
  (v >.? of_int 0) = true ∨ v = of_int 0 → pymax (of_int 0) v = v.
Proof.
  unfold pymax. intros [->| ->]; [done|]. by destruct (of_int 0 >.? of_int 0).
Qed.

Lemma pymax_zero_nonneg `{!PyFloatLaws F} (v : F) : nonneg (pymax (of_int 0) v).
Proof.
  unfold pymax. destruct (v >.? of_int 0) eqn:Hv.
  - by apply gt_zero_nonneg.
  - apply zero_nonneg.
Qed.

Lemma row_total_nonneg `{!PyFloatLaws F} bands total :
  (∀ t v, t ∈ order → bands !! t = Some v → nonneg v) →
  row_total order bands = Some total → nonneg total.
Proof.
  intros Hall. unfold row_total.
  apply (for_each_invariant nonneg); [|apply zero_nonneg].
  intros t acc acc' Ht Hacc Hstep.
  destruct (bands !! t) as [v|] eqn:Hv; simplify_eq/=.
  apply add_nonneg; [done|]. by eapply Hall.
Qed.

(** Every row of a run satisfies what every month's row satisfies. *)
Lemma run_rows_Forall (P : row F → Prop) :
  well_formed order inputs = true →
  (∀ dt s s' r, bands_present order (s_hc s) →
                month_step order inputs dt s = Some s' →
                s_rows s' = s_rows s ++ [r] → P r) →
  ∀ dates s, run order inputs dates = Some s →
             Forall P (s_rows s) ∧ length (s_rows s) = length dates.
Proof.
  intros Hwf Hstep dates.
  induction dates as [|dt dates IH] using rev_ind; intros s Hrun.
  - unfold run in Hrun. destruct (init_hc order inputs); by simplify_eq/=.
  - rewrite run_snoc in Hrun.
    destruct (run order inputs dates) as [s0|] eqn:Hrun0; [|done].
    simpl in Hrun. destruct (IH s0 eq_refl) as [Hall Hlen].
    destruct (month_step_inv _ _ _ _ _ Hrun) as (hc1 & hc2 & r & _ & _ & _ & _ & Hrows).
    rewrite Hrows, Forall_app, !length_app, Hlen. split; [|done].
    split; [done|]. apply Forall_singleton.
    eapply Hstep; [|done..]. by eapply run_present.
Qed.

(** The row of month number [n] was recorded by the iteration for that
    month, from the state the first [n] months had left. *)
Lemma run_row_at dates s n r :
  well_formed order inputs = true →
  run order inputs dates = Some s → s_rows s !! n = Some r →
  ∃ dt s0 s1,
    dates !! n = Some dt ∧
    run order inputs (take n dates) = Some s0 ∧
    month_step order inputs dt s0 = Some s1 ∧
    run order inputs (take (S n) dates) = Some s1 ∧
    s_rows s1 = s_rows s0 ++ [r].
Proof.
  intros Hwf. revert s.
  induction dates as [|dt dates IH] using rev_ind; intros s Hrun Hn.
  - unfold run in Hrun. destruct (init_hc order inputs); by simplify_eq/=.
  - pose proof Hrun as Hrun'. rewrite run_snoc in Hrun.
    destruct (run order inputs dates) as [s0|] eqn:Hrun0; [|done].
    simpl in Hrun.
    destruct (month_step_inv _ _ _ _ _ Hrun)
      as (_ & _ & r' & _ & _ & _ & _ & Hrows).
    destruct (run_rows_Forall (λ _, True) Hwf) with (dates := dates) (s := s0)
      as [_ Hlen]; [done|done|].
    rewrite Hrows in Hn.
    destruct (decide (n < length dates)%nat) as [Hlt|Hge].
    + rewrite lookup_app_l in Hn by lia.
      destruct (IH s0 eq_refl Hn) as (dt' & s1 & s2 & Hdt & H1 & H2 & H3 & H4).
      exists dt', s1, s2.
      rewrite lookup_app_l, !take_app_le by lia. done.
    + assert (n = length dates) as ->.
      { apply lookup_lt_Some in Hn. rewrite length_app in Hn. simpl in Hn. lia. }
      rewrite <-Hlen, list_lookup_middle in Hn by done. injection Hn as <-.
      exists dt, s0, s.
      rewrite list_lookup_middle, take_app_length by done.
      rewrite take_ge by (rewrite length_app; simpl; lia). done.
Qed.
End RecordFacts.

(** ** The monthly update *)

(** Claim C3.  Every month applies attrition (each band times one minus its
    own rate), then hires (a flat addition), then promotions; promotions run
    exactly when the month number is 3, 6, 9 or 12.  In any other month the
    state after the month is the post-attrition, post-hires state, no row is
    added to the promotion table, and the recorded headcount is that value
    (through the reporting [max], which leaves a value that is [0.0] or
    greater than [0.0] as it is). *)
Theorem month_step_three_steps {F : Type} `{PyFloat F} (order : list string)
    (inputs : gmap string (band_input F)) (dt : date) (s : sim_state F) :
  well_formed order inputs = true →
  bands_present order (s_hc s) →
  (is_quarter_end dt = true ↔
   month dt = 3 ∨ month dt = 6 ∨ month dt = 9 ∨ month dt = 12) ∧
  ∃ hc1 hc2 s' r,
    month_step order inputs dt s = Some s' ∧
    for_each (attrition inputs) order (s_hc s) = Some hc1 ∧
    (∀ t i h, t ∈ order → inputs !! t = Some i → s_hc s !! t = Some h →
              hc1 !! t = Some (h ⊗ (of_int 1 ⊖ attr i))) ∧
    for_each (hire inputs) order hc1 = Some hc2 ∧
    (∀ t i h, t ∈ order → inputs !! t = Some i → s_hc s !! t = Some h →
              hc2 !! t = Some (h ⊗ (of_int 1 ⊖ attr i) ⊕ hires i)) ∧
    (if is_quarter_end dt
     then promotions order inputs dt (hc2, s_promo_rows s)
          = Some (s_hc s', s_promo_rows s')
     else s_hc s' = hc2 ∧ s_promo_rows s' = s_promo_rows s) ∧
    s_rows s' = s_rows s ++ [r] ∧ r_month r = dt ∧
    (is_quarter_end dt = false →
     ∀ t i h, t ∈ order → inputs !! t = Some i → s_hc s !! t = Some h →
       let v := h ⊗ (of_int 1 ⊖ attr i) ⊕ hires i in
       s_hc s' !! t = Some v ∧
       r_bands r !! t = Some (pymax (of_int 0) v) ∧
       ((v >.? of_int 0) = true ∨ v = of_int 0 → r_bands r !! t = Some v)).
Proof.
  intros Hwf Hpres. split.
  { unfold is_quarter_end. rewrite bool_decide_eq_true.
    rewrite !elem_of_cons, elem_of_nil. tauto. }
  destruct (month_step_total order inputs Hwf dt s Hpres) as (s' & Hstep & _).
  destruct (month_step_inv _ _ _ _ _ Hstep)
    as (hc1 & hc2 & r & H1 & H2 & H3 & Hr & Hrows).
  destruct (attrition_loop order inputs Hwf _ Hpres)
    as (hc1' & H1' & Hp1 & Hv1 & _).
  rewrite H1 in H1'. simplify_eq.
  destruct (hire_loop order inputs Hwf _ Hp1) as (hc2' & H2' & Hp2 & Hv2 & _).
  rewrite H2 in H2'. simplify_eq.
  assert (∀ t i h, t ∈ order → inputs !! t = Some i → s_hc s !! t = Some h →
            hc2' !! t = Some (h ⊗ (of_int 1 ⊖ attr i) ⊕ hires i)) as Hv12.
  { intros t i h Ht Hi Hh. eapply Hv2; [done..|]. by eapply Hv1. }
  destruct (record_inv _ _ _ _ Hr) as (Hm & Hb & _).
  exists hc1', hc2', s', r. split_and!; try done.
  - destruct (is_quarter_end dt); [done|]. by injection H3.
  - intros Hq t i h Ht Hi Hh v. rewrite Hq in H3. injection H3 as Hhc Hpr.
    rewrite (record_bands_spec _ _ _ Hb t), decide_True by done.
    rewrite <-Hhc. rewrite (Hv12 t i h Ht Hi Hh). simpl.
    split_and!; [done..|]. intros Hv. by rewrite pymax_zero_id.
Qed.

Lemma month_step_three_steps_witness :
  ∃ s', month_step default_order default_inputs (Date 2025 1) start_state
        = Some s'.
Proof.
  destruct (month_step_three_steps default_order default_inputs (Date 2025 1)
              start_state) as [_ (hc1 & hc2 & s' & r & Hs & _)].
  - vm_compute. reflexivity.
  - apply (bool_decide_unpack (bands_present _ _)). vm_compute. exact I.
  - by exists s'.
Defined.

(** ** Reporting *)

(** Claim C6.  In every month the row holds, for every band, the maximum of
    0 and the band's internal headcount: the headcount itself when it is
    greater than [0.0], and [0.0] otherwise.  So every reported band value
    and the reported total (the program's sum of the reported values) are
    non-negative.  The state handed to the next month holds the internal
    headcount itself, not the clamped value.  This holds for the row of
    every month of every run: the row of month number [n] reports the state
    that the first [n + 1] months leave. *)
Theorem reported_headcount_clamped {F : Type} `{PyFloatLaws F}
    (order : list string) (inputs : gmap string (band_input F)) :
  well_formed order inputs = true →
  (∀ dt s, bands_present order (s_hc s) →
     ∃ s' r hc1 hc2,
       month_step order inputs dt s = Some s' ∧
       s_rows s' = s_rows s ++ [r] ∧
       for_each (attrition inputs) order (s_hc s) = Some hc1 ∧
       for_each (hire inputs) order hc1 = Some hc2 ∧
       (∀ t, t ∈ order →
          ∃ h, s_hc s' !! t = Some h ∧
               r_bands r !! t = Some (if h >.? of_int 0 then h else of_int 0) ∧
               nonneg (if h >.? of_int 0 then h else of_int 0)) ∧
       row_total order (r_bands r) = Some (r_total r) ∧
       nonneg (r_total r) ∧
       (if is_quarter_end dt
        then promotions order inputs dt (hc2, s_promo_rows s)
        else Some (hc2, s_promo_rows s)) = Some (s_hc s', s_promo_rows s')) ∧
  (∀ dates, ∃ s,
     run order inputs dates = Some s ∧
     length (s_rows s) = length dates ∧
     ∀ n r, s_rows s !! n = Some r →
       ∃ s_n,
         run order inputs (take (S n) dates) = Some s_n ∧
         (∀ t, t ∈ order →
            ∃ h, s_hc s_n !! t = Some h ∧
                 r_bands r !! t
                 = Some (if h >.? of_int 0 then h else of_int 0) ∧
                 nonneg (if h >.? of_int 0 then h else of_int 0)) ∧
         row_total order (r_bands r) = Some (r_total r) ∧
         nonneg (r_total r)).
Proof.
  intros Hwf.
  assert (∀ dt s s' r, bands_present order (s_hc s) →
            month_step order inputs dt s = Some s' →
            s_rows s' = s_rows s ++ [r] →
            (∀ t, t ∈ order →
               ∃ h, s_hc s' !! t = Some h ∧
                    r_bands r !! t
                    = Some (if h >.? of_int 0 then h else of_int 0) ∧
                    nonneg (if h >.? of_int 0 then h else of_int 0)) ∧
            row_total order (r_bands r) = Some (r_total r) ∧
            nonneg (r_total r)) as Hrow.
  { intros dt s s' r Hpres Hstep Hrows.
    destruct (month_step_total order inputs Hwf dt s Hpres) as (s'' & Hstep' & Hp').
    rewrite Hstep in Hstep'. simplify_eq.
    destruct (month_step_inv _ _ _ _ _ Hstep)
      as (hc1 & hc2 & r' & _ & _ & _ & Hr & Hrows').
    rewrite Hrows in Hrows'. apply app_inj_tail in Hrows' as [_ <-].
    destruct (record_inv _ _ _ _ Hr) as (_ & Hb & Ht).
    assert (∀ t, t ∈ order →
              ∃ h, s_hc s'' !! t = Some h ∧
                   r_bands r !! t
                   = Some (if h >.? of_int 0 then h else of_int 0) ∧
                   nonneg (if h >.? of_int 0 then h else of_int 0)) as Hbands.
    { intros t Hin. destruct (Hp' t Hin) as [h Hh]. exists h.
      rewrite (record_bands_spec _ _ _ Hb t), decide_True, Hh by done.
      split_and!; [done..|]. apply (pymax_zero_nonneg h). }
    split_and!; [exact Hbands|exact Ht|].
    apply (row_total_nonneg order (r_bands r) (r_total r)); [|exact Ht].
    intros t v Hin Hv. destruct (Hbands t Hin) as (h & _ & Hv' & ?).
    rewrite Hv in Hv'. by simplify_eq. }
  split.
  - intros dt s Hpres.
    destruct (month_step_total order inputs Hwf dt s Hpres) as (s' & Hstep & _).
    destruct (month_step_inv _ _ _ _ _ Hstep)
      as (hc1 & hc2 & r & H1 & H2 & H3 & _ & Hrows).
    destruct (Hrow dt s s' r Hpres Hstep Hrows) as (Hbands & Hsum & Htot).
    exists s', r, hc1, hc2.
    split_and!; [exact Hstep|exact Hrows|exact H1|exact H2|exact Hbands
                |exact Hsum|exact Htot|exact H3].
  - intros dates. destruct (run_total order inputs Hwf dates) as (s & Hrun & _).
    exists s. split; [done|].
    destruct (run_rows_Forall order inputs (λ _, True) Hwf)
      with (dates := dates) (s := s) as [_ Hlen]; [done|done|].
    split; [exact Hlen|]. intros n r Hn.
    destruct (run_row_at order inputs dates s n r Hwf Hrun Hn)
      as (dt & s0 & s1 & _ & Hrun0 & Hstep & Hrun1 & Hrows).
    exists s1. split; [exact Hrun1|].
    apply (Hrow dt s0 s1 r); [|exact Hstep|exact Hrows].
    by apply (run_present order inputs Hwf (take n dates)).
Qed.

(** With the default widget values, January's reported value of band 1-2 is
    its internal headcount, 10.8 = 10 * (1 - 0.02) + 1, which is greater
    than [0.0]. *)
Lemma reported_headcount_clamped_witness :
  ∃ s r h,
    run default_order default_inputs [Date 2025 1] = Some s ∧
    s_rows s !! 0%nat = Some r ∧
    s_hc s !! "1-2" = Some h ∧ (h >.? of_int 0) = true ∧
    r_bands r !! "1-2" = Some h.
Proof.
  destruct (reported_headcount_clamped default_order default_inputs)
    as [_ Hrun].
  - vm_compute. reflexivity.
  - destruct (Hrun [Date 2025 1]) as (s & Hs & _ & Hrows).
    destruct (s_rows s !! 0%nat) as [r|] eqn:Hr.
    + destruct (Hrows 0%nat r Hr) as (s1 & Hs1 & Hbands & _).
      change (take 1 [Date 2025 1]) with [Date 2025 1] in Hs1.
      rewrite Hs in Hs1. injection Hs1 as <-.
      destruct (Hbands "1-2"%string) as (h & Hh & Hv & _).
      { apply (bool_decide_unpack (_ ∈ _)). vm_compute. exact I. }
      assert ((h >.? of_int 0) = true) as Hpos.
      { revert Hs Hh. vm_compute. intros [= <-] [= <-]. reflexivity. }
      rewrite Hpos in Hv. exists s, r, h.
      split; [exact Hs|]. split; [exact Hr|].
      split; [exact Hh|]. split; [exact Hpos|exact Hv].
    + exfalso. revert Hs Hr. vm_compute. intros [= <-]. discriminate.
Defined.

(** The clamp is on the report only: with a starting headcount of -10 (a
    value the widgets do not produce), January is reported as 0 while the
    state keeps -10, and February again starts from -10. *)
Example clamp_leaves_state :
  let teams := [Band "A" "x" None (Widgets (-10) 0 (B64.of_Z 0) (B64.of_Z 0))] in
  (s ← run (TEAM_ORDER teams) (build_inputs teams (default_ui teams))
           [Date 2025 1; Date 2025 2];
   Some (s_hc s !! "A", (λ r, r_bands r !! "A") <$> s_rows s))
  = Some (Some (B64.of_Z (-10)), [Some (B64.of_Z 0); Some (B64.of_Z 0)]).
Proof. vm_compute. reflexivity. Qed.

(** ** The terminal band *)

Section TerminalFacts.
Context {F : Type} `{PyFloat F}.
Variable order : list string.
Variable inputs : gmap string (band_input F).
Implicit Types (hc moves : gmap string F) (t k : string).

Lemma promo_event_source moves dt t e :
  promo_event inputs moves dt t = Some e → row_has_successor inputs e.
Proof.
  unfold promo_event. intros He.
  destruct (inputs !! t) as [i|] eqn:Hi; [|done]. simpl in He.
  destruct (i_promo_to i) as [to_team|] eqn:Hto; [|done]. simpl in He.
  destruct (moves !! t) as [amt|]; simplify_eq/=. by exists i.
Qed.

Lemma month_step_promo_rows dt s s' :
  month_step order inputs dt s = Some s' →
  Forall (row_has_successor inputs) (s_promo_rows s) →
  Forall (row_has_successor inputs) (s_promo_rows s').
Proof.
  intros Hstep Hall.
  destruct (month_step_inv _ _ _ _ _ Hstep)
    as (hc1 & hc2 & r & _ & _ & H3 & _ & _).
  destruct (is_quarter_end dt); [|by injection H3 as _ <-].
  unfold promotions in H3. simpl in H3.
  destruct (compute_moves order inputs hc2) as [moves|]; [|done].
  simpl in H3. apply apply_moves_snd in H3. simpl in H3. rewrite H3.
  apply Forall_app. split; [done|]. apply Forall_forall. intros e He.
  apply list_elem_of_omap in He as (t & _ & He).
  by eapply promo_event_source.
Qed.

Lemma run_promo_rows dates s :
  run order inputs dates = Some s →
  Forall (row_has_successor inputs) (s_promo_rows s).
Proof.
  unfold run. intros Hrun.
  destruct (init_hc order inputs) as [hc|]; [|done]. simpl in Hrun.
  revert Hrun.
  apply (for_each_invariant
           (λ s, Forall (row_has_successor inputs) (s_promo_rows s)));
    [|by apply Forall_nil].
  intros dt s1 s2 _ Hall Hstep. by eapply month_step_promo_rows.
Qed.

(** The second pass never subtracts from a band without successor: its
    headcount after the pass is its headcount before plus the amounts that
    arrive, added one after the other. *)
Lemma terminal_only_receives moves l hc hc' k i h :
  inputs !! k = Some i → i_promo_to i = None →
  for_each (apply_move_hc inputs moves) l hc = Some hc' →
  hc !! k = Some h →
  hc' !! k = Some (foldl fadd h (incoming inputs moves k l)).
Proof.
  intros Hi Hterm. revert hc h.
  induction l as [|x l IH]; intros hc h Hrun Hh.
  - by simplify_eq/=.
  - rewrite for_each_cons in Hrun.
    destruct (apply_move_hc inputs moves x hc) as [hc1|] eqn:Hx; [|done].
    simpl in Hrun. unfold apply_move_hc in Hx. unfold incoming. simpl.
    destruct (inputs !! x) as [ix|] eqn:Hix; [|done]. simpl in *.
    destruct (i_promo_to ix) as [to_team|] eqn:Hto; simpl in *.
    + assert (x ≠ k) as Hne by (intros ->; congruence).
      destruct (moves !! x) as [amt|] eqn:Hamt; [|done]. simpl in Hx.
      destruct (hc !! x) as [hx|] eqn:Hhx; [|done]. simpl in Hx.
      destruct (<[x:=hx ⊖ amt]> hc !! to_team) as [h'|] eqn:Hh'; [|done].
      simplify_eq/=. case_decide as Hk.
      * subst to_team. rewrite lookup_insert_ne, Hh in Hh' by done.
        simplify_eq. simpl. apply (IH _ _ Hrun). by rewrite lookup_insert_eq.
      * apply (IH _ _ Hrun). by rewrite !lookup_insert_ne.
    + simplify_eq. by apply (IH _ _ Hrun).
Qed.
End TerminalFacts.

(** Claim C7.  The band without successor is never the source of a row of the
    promotion table; the inputs loop gives it the promotion rate 0 whatever
    its widget holds; the first pass leaves its move at 0.0, the second pass
    skips it, and its headcount after the pass is its headcount before plus
    what arrives from other bands. *)
Theorem terminal_band_never_promotes {F : Type} `{PyFloatLaws F}
    (teams : list (band F)) (ui : string → widget_values F) (b : band F) :
  NoDup (TEAM_ORDER teams) → b ∈ teams → promo_to b = None →
  let order := TEAM_ORDER teams in
  let inputs := build_inputs teams ui in
  (∃ i, inputs !! team b = Some i ∧ i_promo_to i = None ∧ promo i = of_int 0) ∧
  (∀ dates s e, run order inputs dates = Some s → e ∈ s_promo_rows s →
                from_band e ≠ team b) ∧
  (∀ hc moves, compute_moves order inputs hc = Some moves →
               moves !! team b = Some (of_int 0)) ∧
  (∀ moves dt st, apply_move inputs moves dt (team b) st = Some st) ∧
  (∀ moves dt hc promo_rows st' h,
     apply_moves inputs order moves dt (hc, promo_rows) = Some st' →
     hc !! team b = Some h →
     st'.1 !! team b
     = Some (foldl fadd h (incoming inputs moves (team b) order))).
Proof.
  intros Hnd Hb Hterm order inputs.
  assert (inputs !! team b = Some (band_inputs b (ui (team b)))) as Hi
    by (by apply build_inputs_lookup).
  assert (i_promo_to (band_inputs b (ui (team b))) = None) as Hto by done.
  split_and!.
  - eexists. split; [exact Hi|]. split; [done|].
    unfold band_inputs. simpl. rewrite Hterm. apply zero_pct.
  - intros dates s e Hrun He Heq.
    pose proof (run_promo_rows order inputs dates s Hrun) as Hall.
    rewrite Forall_forall in Hall. destruct (Hall e He) as (i & Hi' & Hsucc).
    rewrite Heq, Hi in Hi'. injection Hi' as <-. congruence.
  - intros hc moves Hm. rewrite (compute_moves_spec _ _ _ _ Hm).
    rewrite decide_True by (by apply list_elem_of_fmap_2).
    rewrite decide_False; [done|]. rewrite Hi. simpl. rewrite Hterm.
    by intros [? ?].
  - intros moves dt [hc pr]. unfold apply_move. rewrite Hi. simpl.
    by rewrite Hterm.
  - intros moves dt hc pr [hc' pr'] h Hrun Hh. simpl.
    eapply terminal_only_receives; [exact Hi|exact Hto| |exact Hh].
    by rewrite <-(apply_moves_fst inputs order moves dt hc pr), Hrun.
Qed.

Lemma terminal_band_never_promotes_witness :
  default_inputs !! "100-149"%string
  ≫= (λ i, Some (promo i)) = Some (S754_zero false).
Proof.
  destruct (terminal_band_never_promotes TEAMS (default_ui TEAMS)
              (Band "100-149" "MM" None
                 (Widgets 10 0 (B64.of_Z 2) (B64.of_Z 0))))
    as [(i & Hi & _ & Hp) _].
  - apply (bool_decide_unpack (NoDup _)). vm_compute. exact I.
  - unfold TEAMS. do 7 apply list_elem_of_further. apply list_elem_of_here.
  - reflexivity.
  - unfold default_inputs. simpl team in Hi. rewrite Hi. simpl. by rewrite Hp.
Defined.

(** ** The single-pool model against a table of one band *)

Section SingleBand.
Context {F : Type} `{PyFloat F}.
Variable b : band F.
Variable w : widget_values F.
Hypothesis Hterm : promo_to b = None.

Local Abbreviation t := (team b).
Local Abbreviation inputs :=
  ({[team b := band_inputs b w]} : gmap string (band_input F)).

Lemma simple_loop_spec months hc acc :
  simple_loop (w_hires w) (w_attr w) months hc acc
  = (default hc (last (simple_trace (w_hires w) (w_attr w) months hc)),
     acc ++ (round1 <$> simple_trace (w_hires w) (w_attr w) months hc)).
Proof.
  revert hc acc. induction months as [|dt months IH]; intros hc acc; simpl.
  - by rewrite app_nil_r.
  - rewrite IH, <-app_assoc. simpl. f_equal.
    generalize (simple_trace (w_hires w) (w_attr w) months
                  (simple_step (w_hires w) (w_attr w) hc)).
    intros l. rewrite last_cons. by destruct (last l).
Qed.

Lemma single_band_attrition h :
  for_each (attrition inputs) [t] {[t := h]}
  = Some {[t := h ⊗ (of_int 1 ⊖ w_attr w ⊘ of_int 100)]}.
Proof using Type.
  unfold attrition. cbn [for_each].
  rewrite !lookup_singleton_eq. cbn [mbind option_bind band_inputs attr].
  by rewrite insert_singleton_eq.
Qed.

Lemma single_band_hire h :
  for_each (hire inputs) [t] {[t := h]}
  = Some {[t := h ⊕ of_int (w_hires w)]}.
Proof using Type.
  unfold hire. cbn [for_each].
  rewrite !lookup_singleton_eq. cbn [mbind option_bind band_inputs hires].
  by rewrite insert_singleton_eq.
Qed.

(** Steps 1 and 2 on the one band are one step of the single-pool model. *)
Lemma single_band_steps_1_2 h :
  for_each (attrition inputs) [t] {[t := h]} ≫= for_each (hire inputs) [t]
  = Some {[t := simple_step (w_hires w) (w_attr w) h]}.
Proof using Type.
  rewrite single_band_attrition. cbn [mbind option_bind].
  by rewrite single_band_hire.
Qed.

Lemma single_band_promotions dt h promo_rows :
  promotions [t] inputs dt ({[t := h]}, promo_rows)
  = Some ({[t := h]}, promo_rows).
Proof using Hterm.
  unfold promotions, compute_moves, compute_move, apply_moves, apply_move.
  cbn [for_each fst]. rewrite !lookup_singleton_eq.
  cbn [mbind option_bind band_inputs i_promo_to]. by rewrite Hterm.
Qed.

Lemma single_band_month dt h rows promo_rows :
  let v := simple_step (w_hires w) (w_attr w) h in
  month_step [t] inputs dt (SimState {[t := h]} rows promo_rows)
  = Some (SimState {[t := v]}
            (rows ++ [Row dt {[t := pymax (of_int 0) v]}
                        (of_int 0 ⊕ pymax (of_int 0) v)])
            promo_rows).
Proof using Hterm.
  intros v. unfold month_step. cbn [s_hc s_promo_rows s_rows].
  rewrite single_band_attrition. cbn [mbind option_bind].
  rewrite single_band_hire. cbn [mbind option_bind].
  change (h ⊗ (of_int 1 ⊖ w_attr w ⊘ of_int 100) ⊕ of_int (w_hires w))
    with v.
  assert ((if is_quarter_end dt
           then promotions [t] inputs dt ({[t := v]}, promo_rows)
           else Some ({[t := v]}, promo_rows))
          = Some ({[t := v]}, promo_rows)) as ->.
  { destruct (is_quarter_end dt); [|done]. apply single_band_promotions. }
  cbn [mbind option_bind]. unfold record, record_bands, row_total. simpl.
  rewrite lookup_singleton_eq. simpl. rewrite insert_empty.
  by rewrite lookup_singleton_eq.
Qed.

Lemma single_band_loop dates h rows promo_rows :
  ∃ s, for_each (month_step [t] inputs) dates
         (SimState {[t := h]} rows promo_rows) = Some s ∧
       s_hc s = {[t := default h (last (simple_trace (w_hires w) (w_attr w)
                                          dates h))]} ∧
       s_promo_rows s = promo_rows ∧
       (λ r, r_bands r !! t) <$> s_rows s
       = ((λ r, r_bands r !! t) <$> rows) ++
         ((λ v, Some (pymax (of_int 0) v))
            <$> simple_trace (w_hires w) (w_attr w) dates h).
Proof using Hterm.
  revert h rows.
  induction dates as [|dt dates IH]; intros h rows.
  - eexists. split; [done|]. simpl. by rewrite app_nil_r.
  - rewrite for_each_cons, single_band_month. cbn [mbind option_bind].
    destruct (IH (simple_step (w_hires w) (w_attr w) h)
                 (rows ++ [Row dt {[t := pymax (of_int 0)
                                          (simple_step (w_hires w) (w_attr w) h)]}
                              (of_int 0 ⊕ pymax (of_int 0)
                                 (simple_step (w_hires w) (w_attr w) h))]))
      as (s & Hs & Hhc & Hpr & Hrows).
    exists s. split; [done|]. split_and!; [|done|].
    + rewrite Hhc. simpl.
      generalize (simple_trace (w_hires w) (w_attr w) dates
                    (simple_step (w_hires w) (w_attr w) h)).
      intros l. rewrite last_cons. by destruct (last l).
    + rewrite Hrows, fmap_app, <-app_assoc. simpl.
      by rewrite lookup_singleton_eq.
Qed.
End SingleBand.

(** Claim C10.  With the same starting headcount, hires and attrition, a table
    of one band without successor runs the recurrence of the single-pool
    model: steps 1 and 2 of a month are [hc * (1 - attrition/100) + hires],
    step 3 changes nothing, and after any number of months the band's
    internal headcount is the single-pool [hc].  They differ in what they
    record: [round(hc, 1)] there, [max(0.0, hc)] here. *)
Theorem single_pool_agrees_with_one_band {F : Type} `{PyFloat F}
    (b : band F) (ui : string → widget_values F) (dates : list date) :
  promo_to b = None →
  let t := team b in
  let w := ui t in
  let inputs := build_inputs [b] ui in
  let trace := simple_trace (w_hires w) (w_attr w) dates (of_int (w_start w)) in
  (∀ h, for_each (attrition inputs) [t] {[t := h]} ≫= for_each (hire inputs) [t]
        = Some {[t := simple_step (w_hires w) (w_attr w) h]}) ∧
  ∃ s, run (TEAM_ORDER [b]) inputs dates = Some s ∧
       s_hc s !! t
       = Some (simple_model (w_start w) (w_hires w) (w_attr w) dates).1 ∧
       s_promo_rows s = [] ∧
       (λ r, r_bands r !! t) <$> s_rows s
       = (λ v, Some (pymax (of_int 0) v)) <$> trace ∧
       (simple_model (w_start w) (w_hires w) (w_attr w) dates).2
       = round1 <$> trace.
Proof.
  intros Hterm t w inputs trace.
  assert (inputs = {[t := band_inputs b w]}) as ->.
  { unfold inputs, build_inputs. simpl. by rewrite insert_empty. }
  split; [apply single_band_steps_1_2|].
  unfold run, init_hc, TEAM_ORDER. simpl.
  rewrite lookup_singleton_eq. simpl. rewrite insert_empty.
  destruct (single_band_loop b w Hterm dates (of_int (w_start w)) [] [])
    as (s & Hs & Hhc & Hpr & Hrows).
  exists s. split; [exact Hs|].
  unfold simple_model. rewrite simple_loop_spec. simpl.
  split_and!; [|exact Hpr|exact Hrows|done].
  rewrite Hhc. apply lookup_singleton_eq.
Qed.

Lemma single_pool_agrees_with_one_band_witness :
  ∃ s, run ["100-149"%string]
           (build_inputs [Band "100-149" "MM" None
                            (Widgets 10 0 (B64.of_Z 2) (B64.of_Z 0))]
                         (default_ui TEAMS)) months_index = Some s ∧
       s_hc s !! "100-149"%string
       = Some (simple_model 10 0 (B64.of_Z 2) months_index).1.
Proof.
  destruct (single_pool_agrees_with_one_band
              (Band "100-149" "MM" None (Widgets 10 0 (B64.of_Z 2) (B64.of_Z 0)))
              (default_ui TEAMS) months_index)
    as [_ (s & Hs & Hhc & _)].
  - reflexivity.
  - exists s. split; [exact Hs|exact Hhc].
Defined.

(** ** The worked example *)

(** Claim C8.  Chain A -> B, A: start 100, hires 0, attrition 10%, promotion
    50%; B: start 0, no successor.  After February A is 81; March's attrition
    makes it 72.9; the promotion moves 36.45, leaving A = B = 36.45, and the
    promotion table has the one row (2025-03, A, B, 36.5). *)
Theorem two_band_first_quarter :
  let order := TEAM_ORDER AB in
  let inputs := build_inputs AB (default_ui AB) in
  (s ← run order inputs [Date 2025 1; Date 2025 2];
   hc ← for_each (attrition inputs) order (s_hc s);
   Some (s_hc s !! "A", hc !! "A", s_promo_rows s))
  = Some (Some (B64.of_Z 81), Some (decimal 729 10), []) ∧
  (s ← run order inputs first_quarter;
   Some (s_hc s !! "A", s_hc s !! "B", s_promo_rows s,
         (λ r, (r_bands r !! "A", r_bands r !! "B")) <$> s_rows s))
  = Some (Some (decimal 3645 100), Some (decimal 3645 100),
          [PromoRow "2025-03" "A" "B" (decimal 365 10)],
          [(Some (B64.of_Z 90), Some (B64.of_Z 0));
           (Some (B64.of_Z 81), Some (B64.of_Z 0));
           (Some (decimal 3645 100), Some (decimal 3645 100))]).
Proof. split; vm_compute; reflexivity. Qed.

(** ** All rates zero *)

(** Claim C4, evaluated.  With every rate at zero each band keeps its
    starting headcount in all 24 months, and the promotion table is not
    empty: it has one row per quarter end and band with a successor, 56 rows,
    each with amount 0.0. *)
Theorem zero_rates_run :
  tables_summary <$> simulate zero_rates_ui
  = Some (replicate 24 (map (λ n, Some (B64.of_Z n))
                            [10; 36; 15; 88; 44; 30; 27; 10]),
          56%nat,
          replicate 56 (B64.of_Z 0)).
Proof. vm_compute. reflexivity. Qed.

(** ** Order of application in binary64 *)

(** Claim C2, as stated, fails in the arithmetic of the program.
    In binary64 the order of the second pass shows: with the default widget
    values, in March 2025, visiting the source bands in reverse order leaves
    band 5-9 with a different headcount (it both sends and receives, and
    [(h - out) + in] and [(h + in) - out] round differently). *)
Lemma promotion_order_matters_in_binary64 :
  valid_config default_order default_inputs = true ∧
  is_quarter_end (Date 2025 3) = true ∧
  reverse default_order ≡ₚ default_order ∧
  ∃ x y,
    (s ← run default_order default_inputs [Date 2025 1; Date 2025 2];
     hc ← for_each (attrition default_inputs) default_order (s_hc s);
     hc ← for_each (hire default_inputs) default_order hc;
     moves ← compute_moves default_order default_inputs hc;
     st1 ← apply_moves default_inputs default_order moves (Date 2025 3)
             (hc, s_promo_rows s);
     st2 ← apply_moves default_inputs (reverse default_order) moves
             (Date 2025 3) (hc, s_promo_rows s);
     Some (st1.1 !! "5-9"%string, st2.1 !! "5-9"%string))
    = Some (Some x, Some y) ∧ x ≠ y.
Proof.
  split_and!.
  - vm_compute. reflexivity.
  - reflexivity.
  - apply reverse_Permutation.
  - eexists _, _. split.
    + vm_compute. reflexivity.
    + discriminate.
Qed.

(** ** Exact arithmetic: conservation *)

Section ExactConservation.
Variable order : list string.
Variable inputs : gmap string (band_input Qc).
Implicit Types (hc moves : gmap string Qc) (t k : string).

Lemma total_of_insert_notin l hc k v :
  k ∉ l → total_of l (<[k := v]> hc) = total_of l hc.
Proof.
  induction l as [|x l IH]; intros Hk; simpl; [done|].
  apply not_elem_of_cons in Hk as [Hne Hk].
  by rewrite lookup_insert_ne, IH.
Qed.

Lemma total_of_insert l hc k v old :
  NoDup l → k ∈ l → hc !! k = Some old →
  total_of l (<[k := v]> hc) = (total_of l hc - old + v)%Qc.
Proof.
  intros Hnd. induction Hnd as [|x l Hx Hnd IH]; intros Hk Hold.
  - by apply elem_of_nil in Hk.
  - simpl. destruct (decide (k = x)) as [->|Hne].
    + rewrite lookup_insert_eq, Hold, total_of_insert_notin by done.
      simpl. ring.
    + apply elem_of_cons in Hk as [?|Hk]; [done|].
      rewrite lookup_insert_ne, IH by done. ring.
Qed.

(** The program's own summation is [total_of]. *)
Lemma row_total_exact hc :
  bands_present order hc → row_total order hc = Some (total_of order hc).
Proof.
  intros Hpres. unfold row_total.
  assert (∀ l acc, (∀ t, t ∈ l → is_Some (hc !! t)) →
            for_each (λ t acc, v ← hc !! t; Some (acc ⊕ v)) l acc
            = Some (acc + total_of l hc)%Qc) as Hgen.
  { induction l as [|x l IH]; intros acc Hl.
    - simpl. f_equal. ring.
    - rewrite for_each_cons. destruct (Hl x) as [v Hv]; [left|].
      rewrite Hv. cbn [mbind option_bind]. rewrite IH.
      + simpl. rewrite Hv. simpl. f_equal. ring.
      + intros t Ht. apply Hl. by right. }
  rewrite Hgen by done. f_equal.
  change (of_int 0) with (Exact.of_Z 0). rewrite ExactFacts.of_Z_0. ring.
Qed.

Hypothesis Hwf : well_formed order inputs = true.

(** One move takes from the source what it gives to the successor. *)
Lemma apply_move_hc_total_of moves t hc hc' :
  t ∈ order → bands_present order hc →
  apply_move_hc inputs moves t hc = Some hc' →
  total_of order hc' = total_of order hc.
Proof using Hwf.
  intros Ht Hpres Hmove. unfold apply_move_hc in Hmove.
  destruct (inputs !! t) as [i|] eqn:Hi; [|done]. simpl in Hmove.
  destruct (i_promo_to i) as [to_team|] eqn:Hto; [|by simplify_eq].
  simpl in Hmove.
  destruct (moves !! t) as [amt|]; [|done]. simpl in Hmove.
  destruct (hc !! t) as [h|] eqn:Hh; [|done]. simpl in Hmove.
  destruct (<[t:=_]> hc !! to_team) as [h'|] eqn:Hh'; [|done].
  simplify_eq/=.
  pose proof (wf_nodup order inputs Hwf) as Hnd.
  pose proof (wf_successor order inputs Hwf t i to_team Ht Hi Hto) as Hin.
  rewrite (total_of_insert _ _ _ _ h' Hnd Hin Hh').
  rewrite (total_of_insert _ _ _ _ h Hnd Ht Hh). ring.
Qed.

Lemma promotions_total_of dt hc promo_rows hc' promo_rows' :
  bands_present order hc →
  promotions order inputs dt (hc, promo_rows) = Some (hc', promo_rows') →
  total_of order hc' = total_of order hc.
Proof using Hwf.
  intros Hpres Hprom. unfold promotions in Hprom. simpl in Hprom.
  destruct (compute_moves order inputs hc) as [moves|]; [|done].
  simpl in Hprom.
  pose proof (apply_moves_fst inputs order moves dt hc promo_rows) as Hfst.
  rewrite Hprom in Hfst. simpl in Hfst. symmetry in Hfst.
  revert Hfst.
  apply (for_each_invariant
           (λ hc1, bands_present order hc1 ∧
                   total_of order hc1 = total_of order hc)); [|done].
  intros t hc1 hc2 Ht [Hp1 Ht1] Hmove. split.
  - by eapply apply_move_hc_present.
  - rewrite <-Ht1. by eapply apply_move_hc_total_of.
Qed.
End ExactConservation.

(** Claim C1.  In exact arithmetic (the program's floating-point results
    agree with it up to rounding) the promotion step of a well-formed table
    does not change the grand total: the sum over the bands after the moves
    equals the sum before, in every quarter-end month. *)
Theorem promotions_conserve_total (order : list string)
    (inputs : gmap string (band_input Qc)) (dt : date) (s : sim_state Qc) :
  well_formed order inputs = true →
  bands_present order (s_hc s) →
  is_quarter_end dt = true →
  ∃ hc1 hc2 s' total,
    for_each (attrition inputs) order (s_hc s) = Some hc1 ∧
    for_each (hire inputs) order hc1 = Some hc2 ∧
    promotions order inputs dt (hc2, s_promo_rows s)
      = Some (s_hc s', s_promo_rows s') ∧
    month_step order inputs dt s = Some s' ∧
    row_total order hc2 = Some total ∧
    row_total order (s_hc s') = Some total.
Proof.
  intros Hwf Hpres Hq.
  destruct (month_step_total order inputs Hwf dt s Hpres) as (s' & Hstep & _).
  destruct (month_step_inv _ _ _ _ _ Hstep)
    as (hc1 & hc2 & r & H1 & H2 & H3 & _ & _).
  rewrite Hq in H3.
  destruct (attrition_loop order inputs Hwf _ Hpres) as (hc1' & H1' & Hp1 & _).
  rewrite H1 in H1'. injection H1' as <-.
  destruct (hire_loop order inputs Hwf _ Hp1) as (hc2' & H2' & Hp2 & _).
  rewrite H2 in H2'. injection H2' as <-.
  destruct (promotions_total order inputs Hwf dt _ (s_promo_rows s) Hp2)
    as (hc3 & pr3 & H3' & Hp3).
  rewrite H3 in H3'. injection H3' as Hhc Hpr.
  exists hc1, hc2, s', (total_of order hc2). split_and!; try done.
  - by apply row_total_exact.
  - rewrite row_total_exact by (by rewrite Hhc). f_equal.
    by eapply promotions_total_of.
Qed.

Lemma promotions_conserve_total_witness :
  ∃ s' total,
    month_step exact_order exact_inputs (Date 2025 3) exact_start_state
      = Some s' ∧
    row_total exact_order (s_hc s') = Some total.
Proof.
  destruct (promotions_conserve_total exact_order exact_inputs (Date 2025 3)
              exact_start_state)
    as (hc1 & hc2 & s' & total & _ & _ & _ & Hs & _ & Ht).
  - vm_compute. reflexivity.
  - apply (bool_decide_unpack (bands_present _ _)). vm_compute. exact I.
  - reflexivity.
  - exists s', total. split; [exact Hs|exact Ht].
Defined.

(** In binary64 the two totals agree only up to rounding: with the default
    widget values, in September 2025, the sums before and after the
    promotions differ, by less than 2^-40. *)
Example binary64_totals_differ_by_rounding :
  ∃ x y,
    (s ← run default_order default_inputs (take 8 months_index);
     hc ← for_each (attrition default_inputs) default_order (s_hc s);
     hc ← for_each (hire default_inputs) default_order hc;
     st ← promotions default_order default_inputs (Date 2025 9)
            (hc, s_promo_rows s);
     before ← row_total default_order hc;
     after ← row_total default_order st.1;
     Some (before, after)) = Some (x, y) ∧
    x ≠ y ∧
    B64.leb (SFabs (B64.sub x y)) (decimal 1 (2 ^ 40)) = true.
Proof.
  eexists _, _. split; [vm_compute; reflexivity|]. split; [discriminate|].
  vm_compute. reflexivity.
Qed.

(** ** Exact arithmetic: order of the second pass *)

Section ExactOrder.
Variable inputs : gmap string (band_input Qc).
Variable moves : gmap string Qc.
Implicit Types (hc : gmap string Qc) (t k : string).

Lemma alter_alter_comm (f g : Qc → Qc) i j hc :
  (∀ v, f (g v) = g (f v)) →
  alter f i (alter g j hc) = alter g j (alter f i hc).
Proof.
  intros Hfg. apply map_eq. intros k. rewrite !lookup_alter.
  repeat case_decide; simplify_eq; try done.
  rewrite <-!option_fmap_compose. apply option_fmap_ext. intros v. apply Hfg.
Qed.

Lemma shift_insert t to_team amt hc h h' :
  hc !! t = Some h → <[t := (h - amt)%Qc]> hc !! to_team = Some h' →
  shift t to_team amt hc
  = Some (<[to_team := (h' + amt)%Qc]> (<[t := (h - amt)%Qc]> hc)).
Proof.
  intros Hh Hh'. unfold shift. rewrite decide_True.
  - f_equal. apply map_eq. intros k.
    rewrite !lookup_alter, !lookup_insert.
    destruct (decide (to_team = k)) as [->|Hne], (decide (t = k)) as [->|Hne'].
    + rewrite lookup_insert_eq in Hh'. simplify_eq. by rewrite Hh.
    + rewrite lookup_insert_ne in Hh' by done. by rewrite Hh'.
    + by rewrite Hh.
    + done.
  - split; [by eexists|]. destruct (decide (t = to_team)) as [<-|Hne].
    + by eexists.
    + rewrite lookup_insert_ne in Hh' by done. by eexists.
Qed.

Lemma apply_move_hc_perform t hc :
  apply_move_hc inputs moves t hc
  = m ← planned_move inputs moves t; perform t m hc.
Proof.
  unfold apply_move_hc, planned_move.
  destruct (inputs !! t) as [i|]; [|done]. simpl.
  destruct (i_promo_to i) as [to_team|]; [|done].
  destruct (moves !! t) as [amt|]; [|done]. simpl.
  destruct (hc !! t) as [h|] eqn:Hh; simpl.
  - destruct (<[t:=_]> hc !! to_team) as [h'|] eqn:Hh'; simpl.
    + symmetry. by apply shift_insert.
    + unfold shift. rewrite decide_False; [done|]. intros [_ [h' Hto]].
      apply lookup_insert_None in Hh' as [? _]. congruence.
  - unfold shift. rewrite decide_False; [done|].
    intros [[? ?] _]. congruence.
Qed.

Lemma shift_lookup_is_Some t to_team amt hc hc' k :
  shift t to_team amt hc = Some hc' → is_Some (hc' !! k) ↔ is_Some (hc !! k).
Proof.
  unfold shift. case_decide; [|done]. intros [= <-].
  rewrite !lookup_alter.
  repeat case_decide; simplify_eq; by rewrite ?fmap_is_Some.
Qed.

Lemma shift_is_Some t to_team amt hc :
  is_Some (shift t to_team amt hc)
  ↔ is_Some (hc !! t) ∧ is_Some (hc !! to_team).
Proof.
  unfold shift. case_decide; split; try done.
Qed.

Lemma shift_comm t1 to1 a1 t2 to2 a2 hc :
  shift t1 to1 a1 hc ≫= shift t2 to2 a2
  = shift t2 to2 a2 hc ≫= shift t1 to1 a1.
Proof.
  destruct (shift t1 to1 a1 hc) as [hc1|] eqn:H1,
           (shift t2 to2 a2 hc) as [hc2|] eqn:H2; simpl; [| | |done].
  - pose proof (λ k, shift_lookup_is_Some _ _ _ _ _ k H1) as L1.
    pose proof (λ k, shift_lookup_is_Some _ _ _ _ _ k H2) as L2.
    pose proof (proj1 (shift_is_Some _ _ _ _) (mk_is_Some _ _ H1)) as [P1 Q1].
    pose proof (proj1 (shift_is_Some _ _ _ _) (mk_is_Some _ _ H2)) as [P2 Q2].
    unfold shift in *.
    rewrite decide_True in H1 by done. rewrite decide_True in H2 by done.
    simplify_eq.
    rewrite !decide_True by (by rewrite ?L1, ?L2).
    f_equal.
    rewrite (alter_alter_comm (λ v, v - a2)%Qc (λ v, v + a1)%Qc) by (intros; ring).
    rewrite (alter_alter_comm (λ v, v - a2)%Qc (λ v, v - a1)%Qc) by (intros; ring).
    rewrite (alter_alter_comm (λ v, v + a2)%Qc (λ v, v + a1)%Qc) by (intros; ring).
    rewrite (alter_alter_comm (λ v, v + a2)%Qc (λ v, v - a1)%Qc) by (intros; ring).
    done.
  - pose proof (λ k, shift_lookup_is_Some _ _ _ _ _ k H1) as L1.
    destruct (shift t2 to2 a2 hc1) as [hc3|] eqn:H3; [|done].
    apply mk_is_Some, shift_is_Some in H3. rewrite !L1 in H3.
    apply (proj2 (shift_is_Some t2 to2 a2 hc)) in H3.
    rewrite H2 in H3. by destruct H3.
  - pose proof (λ k, shift_lookup_is_Some _ _ _ _ _ k H2) as L2.
    destruct (shift t1 to1 a1 hc2) as [hc3|] eqn:H3; [|done].
    apply mk_is_Some, shift_is_Some in H3. rewrite !L2 in H3.
    apply (proj2 (shift_is_Some t1 to1 a1 hc)) in H3.
    rewrite H1 in H3. by destruct H3.
Qed.

Lemma perform_comm t1 m1 t2 m2 hc :
  perform t1 m1 hc ≫= perform t2 m2 = perform t2 m2 hc ≫= perform t1 m1.
Proof.
  destruct m1 as [[to1 a1]|], m2 as [[to2 a2]|]; simpl.
  - apply shift_comm.
  - by destruct (shift t1 to1 a1 hc).
  - by destruct (shift t2 to2 a2 hc).
  - done.
Qed.

(** Two iterations of the second pass commute. *)
Lemma apply_move_hc_comm x y hc :
  apply_move_hc inputs moves x hc ≫= apply_move_hc inputs moves y
  = apply_move_hc inputs moves y hc ≫= apply_move_hc inputs moves x.
Proof.
  rewrite (apply_move_hc_perform x hc), (apply_move_hc_perform y hc).
  destruct (planned_move inputs moves x) as [mx|] eqn:Hx,
           (planned_move inputs moves y) as [my|] eqn:Hy; simpl.
  - transitivity (perform x mx hc ≫= perform y my).
    + apply option_bind_ext_fun. intros hc1.
      by rewrite apply_move_hc_perform, Hy.
    + rewrite perform_comm. apply option_bind_ext_fun. intros hc1.
      by rewrite apply_move_hc_perform, Hx.
  - destruct (perform x mx hc) as [hc1|]; simpl; [|done].
    by rewrite apply_move_hc_perform, Hy.
  - destruct (perform y my hc) as [hc1|]; simpl; [|done].
    by rewrite apply_move_hc_perform, Hx.
  - done.
Qed.

(** Hence the headcounts after the second pass do not depend on the order
    in which the source bands are visited. *)
Lemma apply_moves_Permutation order order' dt hc promo_rows :
  order' ≡ₚ order →
  fst <$> apply_moves inputs order' moves dt (hc, promo_rows)
  = fst <$> apply_moves inputs order moves dt (hc, promo_rows).
Proof.
  intros Hperm. rewrite !apply_moves_fst.
  apply for_each_Permutation; [|done]. intros x y s. apply apply_move_hc_comm.
Qed.
End ExactOrder.

(** Claim C2, as amended.  Every outgoing amount is the band's headcount in
    the pre-promotion snapshot times its rate, and all of them are computed
    before any move is applied.  In exact arithmetic, visiting the source
    bands in any permutation of the band order then yields the same final
    headcount for every band.  (In binary64 the last bit of a band that both
    sends and receives can differ.) *)
Theorem promotion_order_independent_exact (order : list string)
    (inputs : gmap string (band_input Qc)) (dt : date)
    (hc : gmap string Qc) (promo_rows : list (promo_row Qc)) :
  well_formed order inputs = true →
  bands_present order hc →
  ∃ moves hc' promo_rows',
    compute_moves order inputs hc = Some moves ∧
    (∀ t i to_team h,
       t ∈ order → inputs !! t = Some i → i_promo_to i = Some to_team →
       hc !! t = Some h → moves !! t = Some (h ⊗ promo i)) ∧
    promotions order inputs dt (hc, promo_rows) = Some (hc', promo_rows') ∧
    ∀ order', order' ≡ₚ order →
      fst <$> apply_moves inputs order' moves dt (hc, promo_rows) = Some hc'.
Proof.
  intros Hwf Hpres.
  destruct (compute_moves_total order inputs Hwf hc Hpres) as [moves Hm].
  destruct (promotions_total order inputs Hwf dt hc promo_rows Hpres)
    as (hc' & pr' & Hprom & _).
  exists moves, hc', pr'. split_and!; [exact Hm| |exact Hprom|].
  - intros t i to_team h Ht Hi Hto Hh.
    rewrite (compute_moves_spec _ _ _ _ Hm t), decide_True by done.
    rewrite decide_True by (rewrite Hi; simpl; rewrite Hto; by eexists).
    unfold move_amount. rewrite Hi. simpl. rewrite Hto. simpl. by rewrite Hh.
  - intros order' Hperm. rewrite (apply_moves_Permutation _ _ order) by done.
    unfold promotions in Hprom. simpl in Hprom. rewrite Hm in Hprom.
    simpl in Hprom. by rewrite Hprom.
Qed.

Lemma promotion_order_independent_exact_witness :
  ∃ moves hc',
    compute_moves exact_order exact_inputs (s_hc exact_start_state)
      = Some moves ∧
    fst <$> apply_moves exact_inputs (reverse exact_order) moves (Date 2025 3)
              (s_hc exact_start_state, []) = Some hc'.
Proof.
  destruct (promotion_order_independent_exact exact_order exact_inputs
              (Date 2025 3) (s_hc exact_start_state) [])
    as (moves & hc' & pr' & Hm & _ & _ & Hperm).
  - vm_compute. reflexivity.
  - apply (bool_decide_unpack (bands_present _ _)). vm_compute. exact I.
  - exists moves, hc'. split; [exact Hm|].
    apply Hperm, reverse_Permutation.
Defined.

(** ** Exact arithmetic: headcount stays non-negative *)

Section ExactNonneg.
Variable order : list string.
Variable inputs : gmap string (band_input Qc).
Implicit Types (hc moves : gmap string Qc) (t k : string).

Hypothesis Hvalid : valid_config order inputs = true.

Lemma valid_config_wf : well_formed order inputs = true.
Proof using Hvalid.
  unfold valid_config in Hvalid.
  by apply andb_true_iff in Hvalid as [[? _]%andb_true_iff _].
Qed.

Lemma valid_config_rates t :
  t ∈ order →
  ∃ i, inputs !! t = Some i ∧
       (0 ≤ starting i)%Qc ∧ (0 ≤ hires i)%Qc ∧
       (0 ≤ attr i)%Qc ∧ (attr i < 1)%Qc ∧
       (0 ≤ promo i)%Qc ∧ (promo i ≤ 1)%Qc.
Proof using Hvalid.
  intros Ht. unfold valid_config in Hvalid.
  apply andb_true_iff in Hvalid as [[_ Hrates]%andb_true_iff _].
  rewrite forallb_forall in Hrates.
  specialize (Hrates t (proj1 (list_elem_of_In _ _) Ht)).
  destruct (inputs !! t) as [i|]; [|done]. exists i. split; [done|].
  apply andb_true_iff in Hrates as [Hrates _]. unfold rates_ok in Hrates.
  repeat (apply andb_true_iff in Hrates as [Hrates ?]).
  repeat match goal with
         | H : (_ <=.? _) = true |- _ => apply ExactFacts.leb_iff in H
         | H : (_ >.? _) = true |- _ => apply ExactFacts.gtb_iff in H
         end.
  change (of_int 0) with (Exact.of_Z 0) in *.
  change (of_int 1) with (Exact.of_Z 1) in *.
  rewrite ?ExactFacts.of_Z_0, ?ExactFacts.of_Z_1 in *. done.
Qed.

Lemma init_hc_nonneg hc :
  init_hc order inputs = Some hc → all_nonneg hc.
Proof using Hvalid.
  intros Hinit k h Hk. rewrite (init_hc_spec _ _ _ Hinit k) in Hk.
  case_decide as Hin; [|done].
  destruct (valid_config_rates k Hin) as (i & Hi & Hs & _).
  rewrite Hi in Hk. by simplify_eq/=.
Qed.

Lemma attrition_nonneg hc hc1 :
  bands_present order hc → all_nonneg hc →
  for_each (attrition inputs) order hc = Some hc1 → all_nonneg hc1.
Proof using Hvalid.
  intros Hpres Hnn Hrun k h1 Hk.
  destruct (attrition_loop order inputs valid_config_wf hc Hpres)
    as (hc1' & Hrun' & _ & Hin & Hout).
  rewrite Hrun in Hrun'. injection Hrun' as <-.
  destruct (decide (k ∈ order)) as [Hko|Hko].
  - destruct (Hpres k Hko) as [h Hh].
    destruct (valid_config_rates k Hko) as (i & Hi & _ & _ & _ & Ha & _).
    rewrite (Hin k i h Hko Hi Hh) in Hk. injection Hk as <-. simpl.
    apply Qcmult_nonneg_nonneg; [by eapply Hnn|].
    change (Exact.of_Z 1) with (of_int 1 : Qc).
    change (of_int 1) with (Exact.of_Z 1). rewrite ExactFacts.of_Z_1.
    apply Qclt_le_weak in Ha. by apply Qcle_minus_iff in Ha.
  - rewrite (Hout k Hko) in Hk. by eapply Hnn.
Qed.

Lemma hire_nonneg hc hc2 :
  bands_present order hc → all_nonneg hc →
  for_each (hire inputs) order hc = Some hc2 → all_nonneg hc2.
Proof using Hvalid.
  intros Hpres Hnn Hrun k h2 Hk.
  destruct (hire_loop order inputs valid_config_wf hc Hpres)
    as (hc2' & Hrun' & _ & Hin & Hout).
  rewrite Hrun in Hrun'. injection Hrun' as <-.
  destruct (decide (k ∈ order)) as [Hko|Hko].
  - destruct (Hpres k Hko) as [h Hh].
    destruct (valid_config_rates k Hko) as (i & Hi & _ & Hh0 & _).
    rewrite (Hin k i h Hko Hi Hh) in Hk. injection Hk as <-. simpl.
    apply Qcplus_nonneg_nonneg; [by eapply Hnn|done].
  - rewrite (Hout k Hko) in Hk. by eapply Hnn.
Qed.

(** The second pass: a band is a source at most once, and when its turn
    comes it still holds at least what the first pass reserved. *)
Lemma apply_loop_nonneg moves l hc hc' :
  NoDup l →
  (∀ k amt, moves !! k = Some amt → (0 ≤ amt)%Qc) →
  all_nonneg hc →
  (∀ k amt h, k ∈ l → moves !! k = Some amt → hc !! k = Some h →
              (amt ≤ h)%Qc) →
  for_each (apply_move_hc inputs moves) l hc = Some hc' → all_nonneg hc'.
Proof using Type.
  intros Hnd Hmoves. revert hc.
  induction Hnd as [|x l Hx Hnd IH]; intros hc Hnn Hle Hrun.
  - by simplify_eq/=.
  - rewrite for_each_cons in Hrun.
    destruct (apply_move_hc inputs moves x hc) as [hc1|] eqn:Hmove; [|done].
    simpl in Hrun. unfold apply_move_hc in Hmove.
    destruct (inputs !! x) as [i|] eqn:Hi; [|done]. simpl in Hmove.
    destruct (i_promo_to i) as [to_team|] eqn:Hto.
    + simpl in Hmove.
      destruct (moves !! x) as [amt|] eqn:Hamt; [|done]. simpl in Hmove.
      destruct (hc !! x) as [h|] eqn:Hh; [|done]. simpl in Hmove.
      destruct (<[x:=_]> hc !! to_team) as [h'|] eqn:Hh'; [|done].
      simplify_eq/=.
      assert (0 ≤ amt)%Qc as Hamt0 by (by eapply Hmoves).
      assert (amt ≤ h)%Qc as Hamth by (eapply Hle; [left|done..]).
      assert (all_nonneg (<[x:=(h - amt)%Qc]> hc)) as Hnn1.
      { apply map_Forall_insert_2; [|done]. by apply Qcle_minus_iff in Hamth. }
      assert (0 ≤ h')%Qc as Hh'0 by (by eapply Hnn1).
      refine (IH _ _ _ Hrun).
      * apply map_Forall_insert_2; [|done]. by apply Qcplus_nonneg_nonneg.
      * intros k amtk hk Hk Hmk Hhk.
        assert (k ≠ x) as Hne by (intros ->; done).
        destruct (decide (k = to_team)) as [->|Hne'].
        -- rewrite lookup_insert_eq in Hhk. injection Hhk as <-.
           rewrite lookup_insert_ne in Hh' by done.
           assert (amtk ≤ h')%Qc as Hle' by (eapply Hle; [by right|done..]).
           rewrite <-(Qcplus_0_r amtk). by apply Qcplus_le_compat.
        -- rewrite !lookup_insert_ne in Hhk by done.
           eapply Hle; [by right|done..].
    + simplify_eq. refine (IH hc1 Hnn _ Hrun).
      intros k amtk hk Hk. apply Hle. by right.
Qed.

Lemma promotions_nonneg dt hc promo_rows hc' promo_rows' :
  bands_present order hc → all_nonneg hc →
  promotions order inputs dt (hc, promo_rows) = Some (hc', promo_rows') →
  all_nonneg hc'.
Proof using Hvalid.
  intros Hpres Hnn Hprom. unfold promotions in Hprom. simpl in Hprom.
  destruct (compute_moves order inputs hc) as [moves|] eqn:Hm; [|done].
  simpl in Hprom.
  pose proof (apply_moves_fst inputs order moves dt hc promo_rows) as Hfst.
  rewrite Hprom in Hfst. simpl in Hfst. symmetry in Hfst.
  assert (∀ k amt, moves !! k = Some amt →
            (0 ≤ amt)%Qc ∧ ∀ h, hc !! k = Some h → (amt ≤ h)%Qc) as Hbound.
  { intros k amt Hk. rewrite (compute_moves_spec _ _ _ _ Hm k) in Hk.
    case_decide as Hko; [|done].
    destruct (valid_config_rates k Hko) as (i & Hi & _ & _ & _ & _ & Hp0 & Hp1).
    destruct (Hpres k Hko) as [h Hh].
    assert (0 ≤ h)%Qc as Hh0 by (by eapply Hnn).
    case_decide as Hs.
    - unfold move_amount in Hk. rewrite Hi in Hk. simpl in Hk.
      destruct (i_promo_to i); [|by destruct Hs]. simpl in Hk.
      rewrite Hh in Hk. injection Hk as <-. simpl. split.
      + by apply Qcmult_nonneg_nonneg.
      + intros h0 Hh'. rewrite Hh in Hh'. injection Hh' as <-.
        rewrite <-(Qcmult_1_r h) at 2. by apply Qcmult_le_mono_nonneg_l.
    - injection Hk as <-. change (of_int 0) with (Exact.of_Z 0).
      rewrite ExactFacts.of_Z_0. split; [done|].
      intros h0 Hh'. by eapply Hnn. }
  eapply (apply_loop_nonneg moves order hc hc');
    [by apply (wf_nodup order inputs), valid_config_wf| |done| |done].
  - intros k amt Hk. by apply (Hbound k amt Hk).
  - intros k amt h _ Hk Hh. by apply (Hbound k amt Hk).
Qed.

(** A non-negative headcount is reported as it is. *)
Lemma pymax_zero_exact (h : Qc) : (0 ≤ h)%Qc → pymax (of_int 0) h = h.
Proof using Type.
  intros Hh. apply pymax_zero_id.
  change (of_int 0) with (Exact.of_Z 0). rewrite ExactFacts.of_Z_0.
  destruct (Qcle_lt_or_eq _ _ Hh) as [Hlt| <-]; [left|by right].
  by apply ExactFacts.gtb_iff.
Qed.

Lemma month_step_nonneg dt s :
  bands_present order (s_hc s) → all_nonneg (s_hc s) →
  ∃ hc1 hc2 s' r,
    for_each (attrition inputs) order (s_hc s) = Some hc1 ∧ all_nonneg hc1 ∧
    for_each (hire inputs) order hc1 = Some hc2 ∧ all_nonneg hc2 ∧
    month_step order inputs dt s = Some s' ∧
    bands_present order (s_hc s') ∧ all_nonneg (s_hc s') ∧
    s_rows s' = s_rows s ++ [r] ∧
    ∀ t, t ∈ order → r_bands r !! t = s_hc s' !! t.
Proof using Hvalid.
  intros Hpres Hnn. pose proof valid_config_wf as Hwf.
  destruct (month_step_total order inputs Hwf dt s Hpres)
    as (s' & Hstep & Hpres').
  destruct (month_step_inv _ _ _ _ _ Hstep)
    as (hc1 & hc2 & r & H1 & H2 & H3 & Hr & Hrows).
  destruct (attrition_loop order inputs Hwf _ Hpres) as (hc1' & H1' & Hp1 & _).
  rewrite H1 in H1'. injection H1' as <-.
  destruct (hire_loop order inputs Hwf _ Hp1) as (hc2' & H2' & Hp2 & _).
  rewrite H2 in H2'. injection H2' as <-.
  pose proof (attrition_nonneg _ _ Hpres Hnn H1) as Hnn1.
  pose proof (hire_nonneg _ _ Hp1 Hnn1 H2) as Hnn2.
  assert (all_nonneg (s_hc s')) as Hnn3.
  { destruct (is_quarter_end dt).
    - by eapply promotions_nonneg.
    - injection H3 as <- _. done. }
  exists hc1, hc2, s', r. split_and!; try done.
  intros t Ht. destruct (record_inv _ _ _ _ Hr) as (_ & Hb & _).
  rewrite (record_bands_spec _ _ _ Hb t), decide_True by done.
  destruct (Hpres' t Ht) as [h Hh]. rewrite Hh. simpl. f_equal.
  apply pymax_zero_exact. by eapply Hnn3.
Qed.

Lemma run_nonneg dates :
  ∃ s, run order inputs dates = Some s ∧
       bands_present order (s_hc s) ∧ all_nonneg (s_hc s).
Proof using Hvalid.
  unfold run.
  destruct (init_hc_total order inputs valid_config_wf) as (hc0 & Hinit & Hp0).
  rewrite Hinit. simpl.
  destruct (for_each_total
              (λ s, bands_present order (s_hc s) ∧ all_nonneg (s_hc s))
              (month_step order inputs) dates (SimState hc0 [] []))
    as (s & Hs & Hp & Hn).
  - intros dt s _ [Hp Hn].
    destruct (month_step_nonneg dt s Hp Hn)
      as (_ & _ & s' & _ & _ & _ & _ & _ & Hs' & Hp' & Hn' & _).
    by exists s'.
  - split; [done|]. by apply init_hc_nonneg.
  - by exists s.
Qed.
End ExactNonneg.

(** ** Binary64: the headcounts of the configurations the widgets produce *)

Section B64Run.
Import B64.
Variable order : list string.
Variable inputs : gmap string (band_input spec_float).
Implicit Types (hc moves : gmap string spec_float) (t k : string) (K : Z).

Hypothesis Hwf : well_formed order inputs = true.
Hypothesis Hreach :
  ∀ t i, t ∈ order → inputs !! t = Some i → reachable_input i.

Local Abbreviation n_bands := (Z.of_nat (length order)).

Lemma attr_factor a : a ∈ attr_rates → below 0 (sub (of_Z 1) a).
Proof using Type.
  revert a. apply Forall_forall.
  apply (bool_decide_unpack (Forall _ _)). vm_compute. exact I.
Qed.

Lemma promo_factor p : p ∈ promo_rates → below (-1) p.
Proof using Type.
  revert p. apply Forall_forall.
  apply (bool_decide_unpack (Forall _ _)). vm_compute. exact I.
Qed.

Lemma bounded_present K hc : bounded_hc order K hc → bands_present order hc.
Proof using Type. intros Hb t Ht. destruct (Hb t Ht) as (h & -> & _). by eexists. Qed.

Lemma bounded_mono K K' hc :
  K ≤ K' → bounded_hc order K hc → bounded_hc order K' hc.
Proof using Type.
  intros HK Hb t Ht. destruct (Hb t Ht) as (h & Hh & Hbel).
  exists h. split; [done|]. by eapply B64Bounds.below_mono.
Qed.

Lemma init_bounded :
  ∃ hc0, init_hc order inputs = Some hc0 ∧ bounded_hc order 53 hc0.
Proof using Hwf Hreach.
  destruct (init_hc_total order inputs Hwf) as (hc0 & Hinit & _).
  exists hc0. split; [done|]. intros t Ht.
  rewrite (init_hc_spec _ _ _ Hinit t), decide_True by done.
  destruct (wf_inputs order inputs Hwf t Ht) as [i Hi]. rewrite Hi.
  exists (starting i). split; [done|].
  destruct (Hreach t i Ht Hi) as ((n & Hn & ->) & _).
  by apply B64Bounds.of_Z_below.
Qed.

Lemma attrition_bounded K hc :
  K ≤ 1023 → bounded_hc order K hc →
  ∃ hc1, for_each (attrition inputs) order hc = Some hc1 ∧
         bounded_hc order K hc1.
Proof using Hwf Hreach.
  intros HK Hb.
  destruct (attrition_loop order inputs Hwf hc (bounded_present K hc Hb))
    as (hc1 & Hrun & _ & Hin & _).
  exists hc1. split; [done|]. intros t Ht.
  destruct (Hb t Ht) as (h & Hh & Hbel).
  destruct (wf_inputs order inputs Hwf t Ht) as [i Hi].
  rewrite (Hin t i h Ht Hi Hh). eexists. split; [done|].
  destruct (Hreach t i Ht Hi) as (_ & _ & Ha & _).
  apply (B64Bounds.mul_below K h (sub (of_Z 1) (attr i))); [done..|].
  by apply attr_factor.
Qed.

Lemma hire_bounded K hc :
  53 ≤ K → K + 1 ≤ 1023 → bounded_hc order K hc →
  ∃ hc2, for_each (hire inputs) order hc = Some hc2 ∧
         bounded_hc order (K + 1) hc2.
Proof using Hwf Hreach.
  intros HK53 HK Hb.
  destruct (hire_loop order inputs Hwf hc (bounded_present K hc Hb))
    as (hc2 & Hrun & _ & Hin & _).
  exists hc2. split; [done|]. intros t Ht.
  destruct (Hb t Ht) as (h & Hh & Hbel).
  destruct (wf_inputs order inputs Hwf t Ht) as [i Hi].
  rewrite (Hin t i h Ht Hi Hh). eexists. split; [done|].
  destruct (Hreach t i Ht Hi) as (_ & (n & Hn & Hhires) & _).
  apply (B64Bounds.add_below K h (hires i)); [done..|].
  rewrite Hhires. eapply B64Bounds.below_mono; [|by apply B64Bounds.of_Z_below].
  done.
Qed.

(** The first pass: every amount is a finite non-negative number that the
    band it is computed from covers. *)
Lemma moves_bounded K hc moves :
  K ≤ 1023 → bounded_hc order K hc →
  compute_moves order inputs hc = Some moves →
  ∀ k amt, moves !! k = Some amt →
    below K amt ∧ ∀ h, hc !! k = Some h → covers h amt.
Proof using Hreach.
  intros HK Hb Hm k amt Hk.
  rewrite (compute_moves_spec _ _ _ _ Hm k) in Hk.
  case_decide as Hko; [|done]. case_decide as Hs.
  - unfold move_amount in Hk.
    destruct (inputs !! k) as [i|] eqn:Hi; [|done]. simpl in Hk.
    destruct (i_promo_to i); [|done]. simpl in Hk.
    destruct (Hb k Hko) as (h & Hh & Hbel). rewrite Hh in Hk.
    injection Hk as <-.
    destruct (Hreach k i Hko Hi) as (_ & _ & _ & Hp).
    apply promo_factor in Hp. split.
    + apply (B64Bounds.mul_below K h (promo i)); [done..|].
      by eapply B64Bounds.below_mono; [|done].
    + intros h0 Hh0. rewrite Hh in Hh0. injection Hh0 as <-.
      by apply (B64Bounds.mul_covers K h (promo i)).
  - injection Hk as <-. split; [done|]. intros h _. by left.
Qed.

(** The second pass.  A band is a source at most once; when its turn comes
    it still covers the amount the first pass computed, because in between
    it can only have received. *)
Lemma apply_loop_bounded moves l K hc hc' :
  NoDup l → (∀ k, k ∈ l → k ∈ order) →
  K + Z.of_nat (length l) ≤ 1023 →
  (∀ k amt, moves !! k = Some amt → below K amt) →
  bounded_hc order K hc →
  (∀ k amt h, k ∈ l → moves !! k = Some amt → hc !! k = Some h →
              covers h amt) →
  for_each (apply_move_hc inputs moves) l hc = Some hc' →
  bounded_hc order (K + Z.of_nat (length l)) hc'.
Proof using Hwf.
  intros Hnd. revert K hc.
  induction Hnd as [|x l Hx Hnd IH]; intros K hc Hsub HK Hmoves Hb Hcov Hrun.
  - simplify_eq/=. by rewrite Z.add_0_r.
  - rewrite for_each_cons in Hrun.
    destruct (apply_move_hc inputs moves x hc) as [hc1|] eqn:Hmove; [|done].
    simpl in Hrun. unfold apply_move_hc in Hmove.
    destruct (inputs !! x) as [i|] eqn:Hi; [|done]. simpl in Hmove.
    rewrite length_cons, Nat2Z.inj_succ in HK |- *.
    destruct (i_promo_to i) as [to_team|] eqn:Hto.
    + simpl in Hmove.
      destruct (moves !! x) as [amt|] eqn:Hamt; [|done]. simpl in Hmove.
      destruct (hc !! x) as [h|] eqn:Hh; [|done]. simpl in Hmove.
      destruct (<[x:=_]> hc !! to_team) as [h'|] eqn:Hh'; [|done].
      simplify_eq/=.
      assert (x ∈ order) as Hxo by (apply Hsub; left).
      assert (to_team ∈ order) as Htoo
        by (by eapply (wf_successor order inputs Hwf x i)).
      assert (below K amt) as Hamt0 by (by eapply Hmoves).
      assert (below K h) as Hh0.
      { destruct (Hb x Hxo) as (h0 & Hh0 & ?). by simplify_eq. }
      assert (below K (sub h amt)) as Hsub0.
      { apply B64Bounds.sub_below; [lia|done|]. eapply Hcov; [left|done..]. }
      assert (bounded_hc order K (<[x:=sub h amt]> hc)) as Hb1.
      { intros t Ht. destruct (decide (t = x)) as [->|Hne].
        - rewrite lookup_insert_eq. by eexists.
        - rewrite lookup_insert_ne by done. by apply Hb. }
      assert (below K h') as Hh'0.
      { destruct (Hb1 to_team Htoo) as (h0 & Hh0' & ?).
        change (h ⊖ amt) with (sub h amt) in Hh'. by simplify_eq. }
      assert (below (K + 1) (add h' amt)) as Hadd
        by (apply B64Bounds.add_below; [lia|done..]).
      replace (K + Z.succ (Z.of_nat (length l)))
        with (K + 1 + Z.of_nat (length l)) by lia.
      refine (IH (K + 1) _ _ _ _ _ _ Hrun).
      * intros k Hk. apply Hsub. by right.
      * lia.
      * intros k a Hk. eapply B64Bounds.below_mono; [|by eapply Hmoves]. lia.
      * intros t Ht. destruct (decide (t = to_team)) as [->|Hne].
        -- rewrite lookup_insert_eq. by eexists.
        -- rewrite lookup_insert_ne by done.
           destruct (Hb1 t Ht) as (h0 & Hh0' & ?). exists h0.
           split; [done|]. eapply B64Bounds.below_mono; [|done]. lia.
      * intros k amtk hk Hk Hmk Hhk.
        assert (k ≠ x) as Hne by (intros ->; done).
        destruct (decide (k = to_team)) as [->|Hne'].
        -- rewrite lookup_insert_eq in Hhk. injection Hhk as <-.
           rewrite lookup_insert_ne in Hh' by done.
           apply (B64Bounds.add_covers K h' amtk amt); [lia|done..|].
           eapply Hcov; [by right|done..].
        -- rewrite !lookup_insert_ne in Hhk by done.
           eapply Hcov; [by right|done..].
    + simplify_eq.
      eapply bounded_mono; [|refine (IH K hc1 _ _ Hmoves Hb _ Hrun)].
      * lia.
      * intros k Hk. apply Hsub. by right.
      * lia.
      * intros k amtk hk Hk. apply Hcov. by right.
Qed.

Lemma promotions_bounded K dt hc promo_rows hc' promo_rows' :
  K + n_bands ≤ 1023 → bounded_hc order K hc →
  promotions order inputs dt (hc, promo_rows) = Some (hc', promo_rows') →
  bounded_hc order (K + n_bands) hc'.
Proof using Hwf Hreach.
  intros HK Hb Hprom. unfold promotions in Hprom. simpl in Hprom.
  destruct (compute_moves order inputs hc) as [moves|] eqn:Hm; [|done].
  simpl in Hprom.
  pose proof (apply_moves_fst inputs order moves dt hc promo_rows) as Hfst.
  rewrite Hprom in Hfst. simpl in Hfst. symmetry in Hfst.
  assert (K ≤ 1023) as HK' by lia.
  pose proof (moves_bounded K hc moves HK' Hb Hm) as Hmoves.
  eapply (apply_loop_bounded moves order K hc hc');
    [by apply (wf_nodup order inputs)|done|done| |done| |done].
  - intros k amt Hk. by apply (Hmoves k amt Hk).
  - intros k amt h _ Hk Hh. by apply (Hmoves k amt Hk).
Qed.

(** One month: the headcounts stay finite and non-negative after each of
    the three steps, and the row reports them as they are. *)
Lemma month_step_bounded K dt s :
  53 ≤ K → K + 1 + n_bands ≤ 1023 → bounded_hc order K (s_hc s) →
  ∃ hc1 hc2 s' r,
    for_each (attrition inputs) order (s_hc s) = Some hc1 ∧
    bounded_hc order K hc1 ∧
    for_each (hire inputs) order hc1 = Some hc2 ∧
    bounded_hc order (K + 1) hc2 ∧
    month_step order inputs dt s = Some s' ∧
    bounded_hc order (K + 1 + n_bands) (s_hc s') ∧
    s_rows s' = s_rows s ++ [r] ∧
    ∀ t, t ∈ order → r_bands r !! t = s_hc s' !! t.
Proof using Hwf Hreach.
  intros HK53 HK Hb.
  destruct (month_step_total order inputs Hwf dt s (bounded_present K _ Hb))
    as (s' & Hstep & Hpres').
  destruct (month_step_inv _ _ _ _ _ Hstep)
    as (hc1 & hc2 & r & H1 & H2 & H3 & Hr & Hrows).
  destruct (attrition_bounded K (s_hc s)) as (hc1' & H1' & Hb1); [lia|done|].
  rewrite H1 in H1'. injection H1' as <-.
  destruct (hire_bounded K hc1) as (hc2' & H2' & Hb2); [lia|lia|done|].
  rewrite H2 in H2'. injection H2' as <-.
  assert (bounded_hc order (K + 1 + n_bands) (s_hc s')) as Hb3.
  { destruct (is_quarter_end dt).
    - by eapply (promotions_bounded (K + 1)).
    - injection H3 as <- _. eapply bounded_mono; [|done]. lia. }
  exists hc1, hc2, s', r. split_and!; try done.
  intros t Ht. destruct (record_inv _ _ _ _ Hr) as (_ & Hbands & _).
  rewrite (record_bands_spec _ _ _ Hbands t), decide_True by done.
  destruct (Hb3 t Ht) as (h & Hh & Hbel). rewrite Hh. simpl. f_equal.
  by apply (B64Bounds.below_max (K + 1 + n_bands)).
Qed.

Lemma run_bounded dates :
  53 + Z.of_nat (length dates) * (1 + n_bands) ≤ 1023 →
  ∃ s, run order inputs dates = Some s ∧
       bounded_hc order (53 + Z.of_nat (length dates) * (1 + n_bands)) (s_hc s).
Proof using Hwf Hreach.
  induction dates as [|dt dates IH] using rev_ind; intros Hlen.
  - destruct init_bounded as (hc0 & Hinit & Hb0).
    exists (SimState hc0 [] []). unfold run. rewrite Hinit. split; [done|].
    simpl. by rewrite Z.add_0_r.
  - rewrite length_app, Nat2Z.inj_add in Hlen |- *. simpl in Hlen |- *.
    destruct IH as (s0 & Hrun0 & Hb0); [lia|].
    pose proof (λ H1 H2, month_step_bounded _ dt s0 H1 H2 Hb0) as Hms.
    destruct Hms as (_ & _ & s' & _ & _ & _ & _ & _ & Hstep & Hb' & _);
      [lia|lia|].
    exists s'. rewrite run_snoc, Hrun0. split; [done|].
    eapply bounded_mono; [|done]. lia.
Qed.

(** Every row of a run reports the internal headcounts as they are. *)
Lemma run_rows_exact dates s n r :
  53 + Z.of_nat (length dates) * (1 + n_bands) ≤ 1023 →
  run order inputs dates = Some s → s_rows s !! n = Some r →
  ∃ s_n,
    run order inputs (take (S n) dates) = Some s_n ∧
    bounded_hc order 1023 (s_hc s_n) ∧
    ∀ t, t ∈ order → r_bands r !! t = s_hc s_n !! t.
Proof using Hwf Hreach.
  intros Hlen Hrun Hn.
  destruct (run_row_at order inputs dates s n r Hwf Hrun Hn)
    as (dt & s0 & s1 & Hdt & Hrun0 & Hstep & Hrun1 & Hrows).
  apply lookup_lt_Some in Hdt.
  destruct (run_bounded (take n dates)) as (s0' & Hrun0' & Hb0).
  { rewrite length_take. nia. }
  rewrite Hrun0 in Hrun0'. injection Hrun0' as <-.
  rewrite length_take in Hb0.
  pose proof (λ H1 H2, month_step_bounded _ dt s0 H1 H2 Hb0) as Hms.
  destruct Hms
    as (_ & _ & s' & r' & _ & _ & _ & _ & Hstep' & Hb' & Hrows' & Hrow);
    [lia|nia|].
  rewrite Hstep in Hstep'. injection Hstep' as <-.
  rewrite Hrows in Hrows'. apply app_inj_tail in Hrows' as [_ <-].
  exists s1. split_and!; [done| |done].
  eapply bounded_mono; [|done]. nia.
Qed.
End B64Run.

Section B64Widgets.
(** What the inputs loop stores for widget values in range is an entry the
    widgets can produce. *)
Lemma reachable_of_bounds (b : band spec_float) w :
  widget_bounds w → reachable_input (band_inputs b w).
Proof.
  intros (Hs & Hh & Ha & Hp). unfold reachable_input, band_inputs.
  cbn [starting hires attr promo]. split_and!.
  - by exists (w_start w).
  - by exists (w_hires w).
  - unfold attr_rates.
    by apply (list_elem_of_fmap_2 (λ a, B64.div a (B64.of_Z 100))).
  - unfold promo_rates.
    apply (list_elem_of_fmap_2 (λ p, B64.div p (B64.of_Z 100))).
    destruct (promo_to b); [done|].
    unfold promo_slider. by apply (list_elem_of_fmap_2 B64.of_Z), elem_of_seqZ.
Qed.

(** The default values of the band table are in the range of the widgets. *)
Lemma default_ui_in_bounds key : widget_bounds (default_ui TEAMS key).
Proof.
  unfold default_ui.
  assert (∀ w : widget_values spec_float,
            bool_decide (0 ≤ w_start w ≤ 2 ^ 53 - 1) &&
            bool_decide (0 ≤ w_hires w ≤ 2 ^ 53 - 1) &&
            bool_decide (w_attr w ∈ attr_slider) &&
            bool_decide (w_promo w ∈ promo_slider) = true →
            widget_bounds w) as Hdec.
  { intros w Hw. repeat (apply andb_true_iff in Hw as [Hw ?%bool_decide_eq_true]).
    apply bool_decide_eq_true in Hw. unfold widget_bounds. tauto. }
  destruct (list_find (λ b : band spec_float, team b = key) TEAMS)
    as [[n b]|] eqn:Hfind.
  - apply list_find_Some in Hfind as (Hb%list_elem_of_lookup_2 & _).
    revert b Hb. apply Forall_forall. unfold TEAMS.
    repeat (constructor; [apply Hdec; vm_compute; reflexivity|]).
    constructor.
  - apply Hdec. vm_compute. reflexivity.
Qed.

Lemma widgets_reachable (teams : list (band spec_float))
    (ui : string → widget_values spec_float) t i :
  NoDup (TEAM_ORDER teams) → (∀ key, widget_bounds (ui key)) →
  build_inputs teams ui !! t = Some i → reachable_input i.
Proof.
  intros Hnd Hui Hi.
  apply build_inputs_lookup_Some in Hi as (b & _ & _ & ->); [|done].
  by apply reachable_of_bounds.
Qed.
End B64Widgets.

(** Claim C9.  For a valid configuration (starting headcount and hires at
    least 0, attrition in [0,1), promotion in [0,1], distinct bands each with
    one successor at most), every headcount is at least 0 at the start and
    after each of the three steps of every month, so the reporting
    [max(0.0, hc)] changes nothing: the row holds the internal values.

    This is proved twice.  In exact arithmetic it holds for every valid
    configuration.  In binary64, the arithmetic of the program, it holds
    for every configuration that the widgets can produce, on any band table
    without repeated names whose successors are bands, over any horizon
    short enough that no headcount can reach [2^1023] (the table of the
    program with its 24 months needs [2^269]): every headcount is a finite
    number that is not negative, at the start, after attrition, after hires
    and after promotions, and every row of the run holds the internal
    values bit for bit. *)
Theorem headcount_stays_nonnegative (order : list string)
    (inputs : gmap string (band_input Qc))
    (teams : list (band spec_float)) (ui : string → widget_values spec_float)
    (dates : list date) :
  (valid_config order inputs = true →
   (∃ hc0, init_hc order inputs = Some hc0 ∧
           bands_present order hc0 ∧ all_nonneg hc0) ∧
   (∀ dt s,
      bands_present order (s_hc s) → all_nonneg (s_hc s) →
      ∃ hc1 hc2 s' r,
        for_each (attrition inputs) order (s_hc s) = Some hc1 ∧ all_nonneg hc1 ∧
        for_each (hire inputs) order hc1 = Some hc2 ∧ all_nonneg hc2 ∧
        month_step order inputs dt s = Some s' ∧
        bands_present order (s_hc s') ∧ all_nonneg (s_hc s') ∧
        s_rows s' = s_rows s ++ [r] ∧
        ∀ t, t ∈ order → r_bands r !! t = s_hc s' !! t) ∧
   (∀ dates, ∃ s, run order inputs dates = Some s ∧
                  bands_present order (s_hc s) ∧ all_nonneg (s_hc s))) ∧
  (well_formed (TEAM_ORDER teams) (build_inputs teams ui) = true →
   (∀ key, widget_bounds (ui key)) →
   53 + Z.of_nat (length dates) * (1 + Z.of_nat (length teams)) ≤ 1023 →
   (∃ hc0, init_hc (TEAM_ORDER teams) (build_inputs teams ui) = Some hc0 ∧
           bounded_hc (TEAM_ORDER teams) 53 hc0) ∧
   (∀ K dt s,
      53 ≤ K → K + 1 + Z.of_nat (length teams) ≤ 1023 →
      bounded_hc (TEAM_ORDER teams) K (s_hc s) →
      ∃ hc1 hc2 s' r,
        for_each (attrition (build_inputs teams ui)) (TEAM_ORDER teams) (s_hc s)
        = Some hc1 ∧
        bounded_hc (TEAM_ORDER teams) K hc1 ∧
        for_each (hire (build_inputs teams ui)) (TEAM_ORDER teams) hc1
        = Some hc2 ∧
        bounded_hc (TEAM_ORDER teams) (K + 1) hc2 ∧
        month_step (TEAM_ORDER teams) (build_inputs teams ui) dt s = Some s' ∧
        bounded_hc (TEAM_ORDER teams) (K + 1 + Z.of_nat (length teams))
                   (s_hc s') ∧
        s_rows s' = s_rows s ++ [r] ∧
        ∀ t, t ∈ TEAM_ORDER teams → r_bands r !! t = s_hc s' !! t) ∧
   (∃ s, run (TEAM_ORDER teams) (build_inputs teams ui) dates = Some s ∧
         bounded_hc (TEAM_ORDER teams) 1023 (s_hc s) ∧
         ∀ n r, s_rows s !! n = Some r →
           ∃ s_n,
             run (TEAM_ORDER teams) (build_inputs teams ui) (take (S n) dates)
             = Some s_n ∧
             bounded_hc (TEAM_ORDER teams) 1023 (s_hc s_n) ∧
             ∀ t, t ∈ TEAM_ORDER teams → r_bands r !! t = s_hc s_n !! t) ∧
   (∀ K (h : spec_float),
      below K h →
      nonneg h ∧ (if h >.? of_int 0 then h else of_int 0) = h)).
Proof.
  split.
  - intros Hvalid. split_and!.
    + destruct (init_hc_total order inputs (valid_config_wf _ _ Hvalid))
        as (hc0 & Hinit & Hp0).
      exists hc0. split_and!; [done..|]. by eapply init_hc_nonneg.
    + intros dt s. by apply month_step_nonneg.
    + by apply run_nonneg.
  - intros Hwf Hui Hlen.
    assert (length (TEAM_ORDER teams) = length teams) as Hn
      by apply length_fmap.
    assert (∀ t i, t ∈ TEAM_ORDER teams → build_inputs teams ui !! t = Some i →
                   reachable_input i) as Hreach.
    { intros t i _. apply widgets_reachable; [|done].
      by apply (wf_nodup _ _ Hwf). }
    split_and!.
    + by apply init_bounded.
    + intros K dt s HK53 HK Hb. rewrite <-Hn in HK |- *.
      by apply month_step_bounded.
    + rewrite <-Hn in Hlen.
      destruct (run_bounded _ _ Hwf Hreach dates Hlen) as (s & Hrun & Hb).
      exists s. split_and!; [done|by eapply bounded_mono| ].
      intros n r Hr. by eapply run_rows_exact.
    + intros K h Hh. split.
      * by eapply B64Bounds.below_nonneg.
      * by eapply B64Bounds.below_max.
Qed.

Lemma headcount_stays_nonnegative_witness :
  (∃ s, run exact_order exact_inputs months_index = Some s ∧
        all_nonneg (s_hc s)) ∧
  (∃ s, run default_order default_inputs months_index = Some s ∧
        bounded_hc default_order 1023 (s_hc s)).
Proof.
  destruct (headcount_stays_nonnegative exact_order exact_inputs
              TEAMS (default_ui TEAMS) months_index) as [Hexact Hb64].
  split.
  - destruct Hexact as (_ & _ & Hrun).
    + vm_compute. reflexivity.
    + destruct (Hrun months_index) as (s & Hs & _ & Hn).
      exists s. split; [exact Hs|exact Hn].
  - destruct Hb64 as (_ & _ & (s & Hs & Hb & _) & _).
    + vm_compute. reflexivity.
    + apply default_ui_in_bounds.
    + vm_compute. discriminate.
    + exists s. split; [exact Hs|exact Hb].
Defined.

(** The bound on the integers matters in binary64.  With a starting
    headcount and hires of [10^308], far beyond what the number input
    returns, January's sum overflows to infinity, March's promotion amount
    is [inf * 0.0], not a number, and the row then reports 0.0 for a
    headcount that is NaN. *)
Example binary64_overflow_beyond_widget_range :
  let w := Widgets (10 ^ 308) (10 ^ 308) (B64.of_Z 0) (B64.of_Z 0) in
  let teams := [Band "A" "" (Some "B"%string) w; Band "B" "" None w] in
  (s ← run (TEAM_ORDER teams) (build_inputs teams (default_ui teams))
           first_quarter;
   Some (s_hc s !! "A", (λ r, r_bands r !! "A") <$> s_rows s))
  = Some (Some S754_nan,
          [Some (S754_infinity false); Some (S754_infinity false);
           Some (B64.of_Z 0)]).
Proof. vm_compute. reflexivity. Qed.

(** In binary64, with the default widget values, the same holds in each of
    the 24 months: the row of the month is the internal headcount. *)
Example binary64_default_run_never_clamps :
  forallb
    (λ n, match run default_order default_inputs (take n months_index) with
          | Some s =>
              match last (s_rows s) with
              | Some r =>
                  forallb (λ t, bool_decide (r_bands r !! t = s_hc s !! t))
                          default_order
              | None => false
              end
          | None => false
          end)
    (seq 1 24) = true.
Proof. vm_compute. reflexivity. Qed.

(** ** Construction of the inputs *)


Section WidgetBounds.
Import B64.

Lemma attr_slider_ok a :
  a ∈ attr_slider →
  leb (of_Z 0) (div a (of_Z 100)) = true ∧
  gtb (of_Z 1) (div a (of_Z 100)) = true.
Proof.
  assert (Forall (λ a, leb (of_Z 0) (div a (of_Z 100)) = true ∧
                       gtb (of_Z 1) (div a (of_Z 100)) = true) attr_slider)
    as Hall.
  { unfold attr_slider. apply Forall_fmap, Forall_forall. intros k Hk.
    apply elem_of_seqZ in Hk.
    assert (k ∈ seqZ 0 31) as Hk' by (by apply elem_of_seqZ).
    clear Hk. revert k Hk'. apply Forall_forall.
    repeat (constructor; [by vm_compute|]). constructor. }
  rewrite Forall_forall in Hall. apply Hall.
Qed.

Lemma promo_slider_ok p :
  p ∈ promo_slider →
  leb (of_Z 0) (div p (of_Z 100)) = true ∧
  leb (div p (of_Z 100)) (of_Z 1) = true.
Proof.
  assert (Forall (λ p, leb (of_Z 0) (div p (of_Z 100)) = true ∧
                       leb (div p (of_Z 100)) (of_Z 1) = true) promo_slider)
    as Hall.
  { unfold promo_slider. apply Forall_fmap.
    repeat (constructor; [by vm_compute|]). constructor. }
  rewrite Forall_forall in Hall. apply Hall.
Qed.

Lemma rates_ok_of_bounds (b : band spec_float) w :
  widget_bounds w → rates_ok (band_inputs b w) = true.
Proof.
  intros (Hs & Hh & Ha & Hp). unfold rates_ok, band_inputs.
  cbn [starting hires attr promo fleb fgtb fdiv of_int b64_float].
  destruct (attr_slider_ok _ Ha) as [Ha0 Ha1].
  assert (leb (of_Z 0)
            (div match promo_to b with
                 | Some _ => w_promo w
                 | None => of_Z 0
                 end (of_Z 100)) = true ∧
          leb (div match promo_to b with
                   | Some _ => w_promo w
                   | None => of_Z 0
                   end (of_Z 100)) (of_Z 1) = true) as [Hp0 Hp1].
  { destruct (promo_to b); [by apply promo_slider_ok|by vm_compute]. }
  rewrite !B64Facts.of_Z_nonneg by lia.
  by rewrite Ha0, Ha1, Hp0, Hp1.
Qed.

End WidgetBounds.



(** * Further properties of the program *)

(** ** The two tables *)

Section TableFacts.
Context {F : Type} `{PyFloat F}.
Variable order : list string.
Variable inputs : gmap string (band_input F).
Implicit Types (hc moves bands : gmap string F) (t k : string).

Lemma run_months dates s :
  run order inputs dates = Some s → r_month <$> s_rows s = dates.
Proof.
  revert s. induction dates as [|dt dates IH] using rev_ind; intros s Hrun.
  - unfold run in Hrun. destruct (init_hc order inputs); by simplify_eq/=.
  - rewrite run_snoc in Hrun.
    destruct (run order inputs dates) as [s0|] eqn:Hrun0; [|done].
    simpl in Hrun.
    destruct (month_step_inv _ _ _ _ _ Hrun)
      as (hc1 & hc2 & r & _ & _ & _ & Hr & Hrows).
    destruct (record_inv _ _ _ _ Hr) as (Hm & _).
    rewrite Hrows, fmap_app, (IH s0 eq_refl). simpl. by rewrite Hm.
Qed.

(** A loop that fills a dictionary ran through: every key had a value. *)
Lemma fill_loop_inv {X V} (m : string → option X) (g : X → V) l
    (acc res : gmap string V) :
  for_each (λ t acc, x ← m t; Some (<[t := g x]> acc)) l acc = Some res →
  ∀ t, t ∈ l → is_Some (m t).
Proof.
  revert acc. induction l as [|x l IH]; intros acc Hrun t Ht.
  - by apply elem_of_nil in Ht.
  - rewrite for_each_cons in Hrun.
    destruct (m x) as [v|] eqn:Hv; [|done]. simpl in Hrun.
    apply elem_of_cons in Ht as [->|Ht]; [by rewrite Hv|by eapply IH].
Qed.

Lemma init_hc_keys hc : init_hc order inputs = Some hc → exact_keys order hc.
Proof.
  intros Hinit k. rewrite (init_hc_spec _ _ _ Hinit k).
  case_decide as Hk; [|by split; [intros []|]].
  split; [done|]. intros _. rewrite fmap_is_Some.
  by apply (fill_loop_inv _ _ _ _ _ Hinit).
Qed.

Lemma insert_present_keys hc t v k :
  is_Some (hc !! t) → is_Some (<[t := v]> hc !! k) ↔ is_Some (hc !! k).
Proof.
  intros Ht. rewrite lookup_insert_is_Some'. split; [|by right].
  by intros [->|?].
Qed.

Lemma attrition_keys l t hc hc' :
  attrition inputs t hc = Some hc' → exact_keys l hc → exact_keys l hc'.
Proof.
  unfold attrition. intros Hstep Hkeys k.
  destruct (hc !! t) as [h|] eqn:Hh; [|done]. simpl in Hstep.
  destruct (inputs !! t); simplify_eq/=.
  rewrite insert_present_keys by (by rewrite Hh). apply Hkeys.
Qed.

Lemma hire_keys l t hc hc' :
  hire inputs t hc = Some hc' → exact_keys l hc → exact_keys l hc'.
Proof.
  unfold hire. intros Hstep Hkeys k.
  destruct (hc !! t) as [h|] eqn:Hh; [|done]. simpl in Hstep.
  destruct (inputs !! t); simplify_eq/=.
  rewrite insert_present_keys by (by rewrite Hh). apply Hkeys.
Qed.

Lemma apply_move_hc_keys l moves t hc hc' :
  apply_move_hc inputs moves t hc = Some hc' →
  exact_keys l hc → exact_keys l hc'.
Proof.
  unfold apply_move_hc. intros Hstep Hkeys k.
  destruct (inputs !! t) as [i|]; [|done]. simpl in Hstep.
  destruct (i_promo_to i) as [to_team|]; [|simplify_eq; apply Hkeys].
  simpl in Hstep.
  destruct (moves !! t) as [amt|]; [|done]. simpl in Hstep.
  destruct (hc !! t) as [h|] eqn:Hh; [|done]. simpl in Hstep.
  destruct (<[t:=_]> hc !! to_team) as [h'|] eqn:Hh'; simplify_eq/=.
  rewrite insert_present_keys by (by rewrite Hh').
  rewrite insert_present_keys by (by rewrite Hh). apply Hkeys.
Qed.

Lemma promotions_keys l dt hc promo_rows st' :
  promotions order inputs dt (hc, promo_rows) = Some st' →
  exact_keys l hc → exact_keys l st'.1.
Proof.
  unfold promotions. simpl. intros Hprom Hkeys.
  destruct (compute_moves order inputs hc) as [moves|]; [|done].
  simpl in Hprom.
  pose proof (apply_moves_fst inputs order moves dt hc promo_rows) as Hfst.
  rewrite Hprom in Hfst. simpl in Hfst. symmetry in Hfst. revert Hfst.
  apply (for_each_invariant (exact_keys l)); [|done].
  intros t hc1 hc2 _ Hk Hstep. by eapply apply_move_hc_keys.
Qed.

Lemma month_step_keys l dt s s' :
  month_step order inputs dt s = Some s' →
  exact_keys l (s_hc s) → exact_keys l (s_hc s').
Proof.
  intros Hstep Hkeys.
  destruct (month_step_inv _ _ _ _ _ Hstep)
    as (hc1 & hc2 & r & H1 & H2 & H3 & _ & _).
  assert (exact_keys l hc1) as Hk1.
  { revert H1. apply (for_each_invariant (exact_keys l)); [|done].
    intros t ?? _ ??. by eapply attrition_keys. }
  assert (exact_keys l hc2) as Hk2.
  { revert H2. apply (for_each_invariant (exact_keys l)); [|done].
    intros t ?? _ ??. by eapply hire_keys. }
  destruct (is_quarter_end dt).
  - by apply (promotions_keys l _ _ _ _ H3).
  - by injection H3 as <- _.
Qed.

Lemma run_keys dates s :
  run order inputs dates = Some s →
  exact_keys order (s_hc s) ∧
  Forall (λ r, exact_keys order (r_bands r)) (s_rows s).
Proof.
  revert s. induction dates as [|dt dates IH] using rev_ind; intros s Hrun.
  - unfold run in Hrun.
    destruct (init_hc order inputs) as [hc|] eqn:Hinit; simplify_eq/=.
    split; [by apply init_hc_keys|by apply Forall_nil].
  - rewrite run_snoc in Hrun.
    destruct (run order inputs dates) as [s0|] eqn:Hrun0; [|done].
    simpl in Hrun. destruct (IH s0 eq_refl) as [Hk0 Hrows0].
    pose proof (month_step_keys order _ _ _ Hrun Hk0) as Hk.
    split; [done|].
    destruct (month_step_inv _ _ _ _ _ Hrun)
      as (hc1 & hc2 & r & _ & _ & _ & Hr & Hrows).
    destruct (record_inv _ _ _ _ Hr) as (_ & Hb & _).
    rewrite Hrows. apply Forall_app. split; [done|]. apply Forall_singleton.
    intros k. rewrite (record_bands_spec _ _ _ Hb k).
    case_decide as Hin.
    + rewrite fmap_is_Some. split; [done|]. intros _. by apply Hk.
    + split; [by intros []|done].
Qed.

Lemma apply_move_key moves dt t st st' :
  apply_move inputs moves dt t st = Some st' →
  row_key <$> promo_event inputs moves dt t = promo_key inputs dt t.
Proof.
  destruct st as [hc pr]. unfold apply_move, promo_event, promo_key.
  intros Hx. destruct (inputs !! t) as [i|]; [|done].
  cbn [mbind option_bind] in *.
  destruct (i_promo_to i) as [to_team|]; cbn [mbind option_bind] in *; [|done].
  by destruct (moves !! t) as [amt|].
Qed.

(** When the second pass ran through, the rows it appended are the ones of
    the bands with a successor, in the order of the loop. *)
Lemma apply_moves_keys l moves dt st st' :
  apply_moves inputs l moves dt st = Some st' →
  row_key <$> omap (promo_event inputs moves dt) l
  = omap (promo_key inputs dt) l.
Proof.
  unfold apply_moves. revert st.
  induction l as [|x l IH]; intros st Hrun; [done|].
  rewrite for_each_cons in Hrun.
  destruct (apply_move inputs moves dt x st) as [st1|] eqn:Hx; [|done].
  simpl in Hrun. specialize (IH _ Hrun).
  apply apply_move_key in Hx.
  change (omap (promo_key inputs dt) (x :: l))
    with (match promo_key inputs dt x with
          | Some y => y :: omap (promo_key inputs dt) l
          | None => omap (promo_key inputs dt) l
          end).
  change (omap (promo_event inputs moves dt) (x :: l))
    with (match promo_event inputs moves dt x with
          | Some y => y :: omap (promo_event inputs moves dt) l
          | None => omap (promo_event inputs moves dt) l
          end).
  rewrite <-Hx, <-IH. by destruct (promo_event inputs moves dt x).
Qed.

Lemma promo_key_is_Some dt t :
  is_Some (promo_key inputs dt t) ↔ is_Some (inputs !! t ≫= i_promo_to).
Proof.
  unfold promo_key. destruct (inputs !! t) as [i|]; simpl; [|done].
  destruct (i_promo_to i); simpl; [|done]. by split; eexists.
Qed.

Lemma promo_key_count dt l :
  length (omap (promo_key inputs dt) l)
  = length (filter (λ t, is_Some (inputs !! t ≫= i_promo_to)) l).
Proof.
  induction l as [|x l IH]; [done|]. rewrite filter_cons.
  change (omap (promo_key inputs dt) (x :: l))
    with (match promo_key inputs dt x with
          | Some y => y :: omap (promo_key inputs dt) l
          | None => omap (promo_key inputs dt) l
          end).
  pose proof (promo_key_is_Some dt x) as Hx.
  destruct (promo_key inputs dt x) as [y|].
  - rewrite decide_True by (apply Hx; by eexists). simpl. by rewrite IH.
  - rewrite decide_False; [done|]. intros Hs. apply Hx in Hs. by destruct Hs.
Qed.

Lemma run_promo_keys dates s :
  run order inputs dates = Some s →
  row_key <$> s_promo_rows s
  = dt ← filter (λ dt, is_quarter_end dt = true) dates;
    omap (promo_key inputs dt) order.
Proof.
  revert s. induction dates as [|dt dates IH] using rev_ind; intros s Hrun.
  - unfold run in Hrun. destruct (init_hc order inputs); by simplify_eq/=.
  - rewrite run_snoc in Hrun.
    destruct (run order inputs dates) as [s0|] eqn:Hrun0; [|done].
    simpl in Hrun. specialize (IH s0 eq_refl).
    destruct (month_step_inv _ _ _ _ _ Hrun)
      as (hc1 & hc2 & r & _ & _ & H3 & _ & _).
    rewrite filter_app, bind_app, <-IH. rewrite filter_cons, filter_nil.
    destruct (is_quarter_end dt) eqn:Hq.
    + rewrite decide_True by done. simpl. rewrite app_nil_r.
      unfold promotions in H3. simpl in H3.
      destruct (compute_moves order inputs hc2) as [moves|]; [|done].
      simpl in H3. pose proof (apply_moves_snd _ _ _ _ _ _ _ H3) as Hsnd.
      simpl in Hsnd. rewrite Hsnd, fmap_app. f_equal.
      by eapply apply_moves_keys.
    + rewrite decide_False by done. simpl. rewrite app_nil_r.
      by injection H3 as _ <-.
Qed.

Lemma run_promo_count dates s :
  run order inputs dates = Some s →
  length (s_promo_rows s)
  = (length (filter (λ dt, is_quarter_end dt = true) dates)
     * length (filter (λ t, is_Some (inputs !! t ≫= i_promo_to)) order))%nat.
Proof.
  intros Hrun. rewrite <-(length_fmap row_key), (run_promo_keys _ _ Hrun).
  induction (filter (λ dt, is_quarter_end dt = true) dates) as [|dt l IH];
    [done|].
  rewrite bind_cons, length_app, IH, promo_key_count. done.
Qed.
End TableFacts.

(** The headcount table has one row per month of the horizon, in the order of
    the months, and every row has a value for each band of the table and for
    nothing else. *)
Theorem simulate_rows_follow_months {F : Type} `{PyFloat F}
    (order : list string) (inputs : gmap string (band_input F))
    (dates : list date) (rows : list (row F)) (promo_rows : list (promo_row F)) :
  simulate_on order inputs dates = Some (rows, promo_rows) →
  r_month <$> rows = dates ∧
  Forall (λ r, exact_keys order (r_bands r)) rows.
Proof.
  unfold simulate_on. intros Hsim.
  destruct (run order inputs dates) as [s|] eqn:Hrun; simplify_eq/=.
  split; [by apply (run_months order inputs)|].
  by apply (run_keys order inputs dates).
Qed.

Lemma simulate_rows_follow_months_witness :
  ∃ rows, fst <$> simulate_on (TEAM_ORDER AB) (build_inputs AB (default_ui AB))
                    first_quarter = Some rows ∧
          r_month <$> rows = first_quarter.
Proof.
  destruct (simulate_on (TEAM_ORDER AB) (build_inputs AB (default_ui AB))
              first_quarter) as [[rows pr]|] eqn:Hsim.
  - exists rows. split; [reflexivity|].
    exact (proj1 (simulate_rows_follow_months _ _ _ _ _ Hsim)).
  - exfalso. revert Hsim. vm_compute. discriminate.
Defined.

(** The loop neither adds a band to [hc] nor removes one: after any number of
    months the keys of the internal dictionary are the bands of the table. *)
Theorem run_keeps_the_bands {F : Type} `{PyFloat F}
    (order : list string) (inputs : gmap string (band_input F))
    (dates : list date) (s : sim_state F) :
  run order inputs dates = Some s → exact_keys order (s_hc s).
Proof. intros Hrun. by apply (run_keys order inputs dates). Qed.

Lemma run_keeps_the_bands_witness :
  ∃ s, run (TEAM_ORDER AB) (build_inputs AB (default_ui AB)) first_quarter
       = Some s ∧
       exact_keys (TEAM_ORDER AB) (s_hc s).
Proof.
  destruct (run (TEAM_ORDER AB) (build_inputs AB (default_ui AB))
              first_quarter) as [s|] eqn:Hrun.
  - exists s. split; [reflexivity|].
    exact (run_keeps_the_bands _ _ _ _ Hrun).
  - exfalso. revert Hrun. vm_compute. discriminate.
Defined.

(** The promotion table lists the quarter-end months of the horizon in order
    and, within each, the bands with a successor in the order of the table,
    each with its successor as destination; so it has (number of quarter
    ends) times (number of bands with a successor) rows, whatever the
    amounts. *)
Theorem promotion_table_shape {F : Type} `{PyFloat F}
    (order : list string) (inputs : gmap string (band_input F))
    (dates : list date) (rows : list (row F)) (promo_rows : list (promo_row F)) :
  simulate_on order inputs dates = Some (rows, promo_rows) →
  row_key <$> promo_rows
  = (dt ← filter (λ dt, is_quarter_end dt = true) dates;
     omap (promo_key inputs dt) order) ∧
  length promo_rows
  = (length (filter (λ dt, is_quarter_end dt = true) dates)
     * length (filter (λ t, is_Some (inputs !! t ≫= i_promo_to)) order))%nat.
Proof.
  unfold simulate_on. intros Hsim.
  destruct (run order inputs dates) as [s|] eqn:Hrun; simplify_eq/=.
  split; [by apply run_promo_keys|by apply run_promo_count].
Qed.

Lemma promotion_table_shape_witness :
  ∃ promo_rows,
    snd <$> simulate_on (TEAM_ORDER AB) (build_inputs AB (default_ui AB))
              first_quarter = Some promo_rows ∧
    row_key <$> promo_rows = [("2025-03", "A", "B")]%string.
Proof.
  destruct (simulate_on (TEAM_ORDER AB) (build_inputs AB (default_ui AB))
              first_quarter) as [[rows pr]|] eqn:Hsim.
  - exists pr. split; [reflexivity|].
    rewrite (proj1 (promotion_table_shape _ _ _ _ _ Hsim)).
    vm_compute. reflexivity.
  - exfalso. revert Hsim. vm_compute. discriminate.
Defined.

(** Whatever the widgets hold and whatever the arithmetic, [simulate] on the
    band table of the program raises no [KeyError]: it returns 24 rows and a
    promotion table of 8 x 7 = 56 rows.  The promotion table is never empty,
    so the branch for [promo_df.empty] is never taken. *)
Theorem simulate_never_raises {F : Type} `{PyFloat F}
    (ui : string → widget_values F) :
  ∃ rows promo_rows,
    simulate ui = Some (rows, promo_rows) ∧
    length rows = 24%nat ∧ length promo_rows = 56%nat.
Proof.
  assert (well_formed (TEAM_ORDER TEAMS) (build_inputs TEAMS ui) = true) as Hwf
    by (vm_compute; reflexivity).
  destruct (run_total _ _ Hwf months_index) as (s & Hrun & _).
  exists (s_rows s), (s_promo_rows s). unfold simulate, simulate_on.
  rewrite Hrun. split; [done|]. split.
  - rewrite <-(length_fmap r_month), (run_months _ _ _ _ Hrun). done.
  - rewrite (run_promo_count _ _ _ _ Hrun). vm_compute. reflexivity.
Qed.

(** ** The keys of the inputs dictionary *)

Section InputsKeys.
Context {F : Type} `{PyFloat F}.
Implicit Types (teams : list (band F)) (ui : string → widget_values F).

Lemma build_inputs_snoc teams ui b :
  build_inputs (teams ++ [b]) ui
  = <[team b := band_inputs b (ui (team b))]> (build_inputs teams ui).
Proof. unfold build_inputs. by rewrite foldl_app. Qed.

Lemma build_inputs_last teams ui k :
  build_inputs teams ui !! k
  = (λ b, band_inputs b (ui k)) <$> last (filter (λ b, team b = k) teams).
Proof.
  induction teams as [|b teams IH] using rev_ind; [done|].
  rewrite build_inputs_snoc, filter_app, filter_cons, filter_nil.
  destruct (decide (team b = k)) as [<-|Hne].
  - by rewrite lookup_insert_eq, last_snoc.
  - by rewrite lookup_insert_ne, app_nil_r.
Qed.

Lemma build_inputs_is_Some teams ui k :
  is_Some (build_inputs teams ui !! k) ↔ k ∈ TEAM_ORDER teams.
Proof.
  destruct (decide (k ∈ TEAM_ORDER teams)) as [Hk|Hk].
  - split; [done|]. intros _. rewrite build_inputs_last, fmap_is_Some.
    apply list_elem_of_fmap in Hk as (b & -> & Hb).
    assert (b ∈ filter (λ b', team b' = team b) teams) as Hin
      by (by apply list_elem_of_filter).
    destruct (filter (λ b', team b' = team b) teams) as [|x l] using rev_ind.
    + by apply elem_of_nil in Hin.
    + rewrite last_snoc. by eexists.
  - rewrite build_inputs_lookup_None by done. split; [by intros []|done].
Qed.
End InputsKeys.

(** ** The second pass, band by band *)

Section BandEffect.
Context {F : Type} `{PyFloat F}.
Variable inputs : gmap string (band_input F).
Variable moves : gmap string F.
Implicit Types (hc : gmap string F) (t k : string).

Lemma apply_move_hc_band t hc hc' k h :
  apply_move_hc inputs moves t hc = Some hc' → hc !! k = Some h →
  hc' !! k = Some (band_effect inputs moves k h t).
Proof.
  unfold apply_move_hc, band_effect. intros Hx Hh.
  destruct (inputs !! t) as [i|]; [|done]. cbn [mbind option_bind] in *.
  destruct (i_promo_to i) as [to_team|]; [|by simplify_eq].
  cbn [mbind option_bind] in Hx.
  destruct (moves !! t) as [amt|]; [|done]. cbn [mbind option_bind] in Hx.
  destruct (hc !! t) as [ht|] eqn:Ht; [|done]. cbn [mbind option_bind] in Hx.
  destruct (<[t:=_]> hc !! to_team) as [h'|] eqn:Hh'; simplify_eq/=.
  destruct (decide (to_team = k)) as [->|Hne].
  - rewrite lookup_insert_eq. f_equal. f_equal.
    destruct (decide (t = k)) as [->|Hne'].
    + rewrite lookup_insert_eq in Hh'. by simplify_eq.
    + rewrite lookup_insert_ne in Hh' by done. by simplify_eq.
  - rewrite lookup_insert_ne by done.
    destruct (decide (t = k)) as [->|Hne'].
    + rewrite lookup_insert_eq. by simplify_eq.
    + by rewrite lookup_insert_ne.
Qed.

Lemma apply_loop_band l hc hc' k h :
  for_each (apply_move_hc inputs moves) l hc = Some hc' → hc !! k = Some h →
  hc' !! k = Some (foldl (band_effect inputs moves k) h l).
Proof.
  revert hc h. induction l as [|x l IH]; intros hc h Hrun Hh.
  - by simplify_eq/=.
  - rewrite for_each_cons in Hrun.
    destruct (apply_move_hc inputs moves x hc) as [hc1|] eqn:Hx; [|done].
    simpl in Hrun. simpl. apply (IH hc1); [done|].
    by eapply apply_move_hc_band.
Qed.
End BandEffect.

(** After the second pass the headcount of a band is its headcount before,
    changed once per source band in the order of the loop: minus the band's
    own move when the loop reaches the band itself, plus the move of a source
    whose successor the band is.  This is what the program computes bit for
    bit, in any arithmetic. *)
Theorem second_pass_band_by_band {F : Type} `{PyFloat F}
    (inputs : gmap string (band_input F)) (order : list string)
    (moves : gmap string F) (dt : date) (hc : gmap string F)
    (promo_rows : list (promo_row F)) (st' : gmap string F * list (promo_row F))
    (k : string) (h : F) :
  apply_moves inputs order moves dt (hc, promo_rows) = Some st' →
  hc !! k = Some h →
  st'.1 !! k = Some (foldl (band_effect inputs moves k) h order).
Proof.
  intros Hrun Hh. eapply apply_loop_band; [|exact Hh].
  by rewrite <-(apply_moves_fst inputs order moves dt hc promo_rows), Hrun.
Qed.

Lemma second_pass_band_by_band_witness :
  let inputs := build_inputs AB (default_ui AB) in
  let hc : gmap string spec_float :=
    {[ "A"%string := decimal 729 10; "B"%string := B64.of_Z 0 ]} in
  let moves : gmap string spec_float :=
    {[ "A"%string := decimal 3645 100; "B"%string := B64.of_Z 0 ]} in
  ∃ st', apply_moves inputs (TEAM_ORDER AB) moves (Date 2025 3) (hc, [])
         = Some st' ∧
         st'.1 !! "B"%string
         = Some (B64.add (B64.of_Z 0) (decimal 3645 100)).
Proof.
  intros inputs hc moves.
  destruct (apply_moves inputs (TEAM_ORDER AB) moves (Date 2025 3) (hc, []))
    as [st'|] eqn:Hrun.
  - exists st'. split; [reflexivity|].
    rewrite (second_pass_band_by_band inputs (TEAM_ORDER AB) moves
               (Date 2025 3) hc [] st' "B" (B64.of_Z 0) Hrun);
      [|by vm_compute].
    vm_compute. reflexivity.
  - exfalso. revert Hrun. vm_compute. discriminate.
Defined.

(** ** The first row *)

Section FirstRow.
Context {F : Type} `{PyFloat F}.
Variable order : list string.
Variable inputs : gmap string (band_input F).

(** Rows are only appended. *)
Lemma rows_grow dates s1 s :
  for_each (month_step order inputs) dates s1 = Some s →
  s_rows s1 `prefix_of` s_rows s.
Proof.
  apply (for_each_invariant (λ s, s_rows s1 `prefix_of` s_rows s)); [|done].
  intros dt s2 s3 _ Hpre Hstep.
  destruct (month_step_inv _ _ _ _ _ Hstep) as (_ & _ & r & _ & _ & _ & _ & ->).
  by apply prefix_app_r.
Qed.

Lemma first_row dt dates :
  well_formed order inputs = true → is_quarter_end dt = false →
  ∃ s r,
    run order inputs (dt :: dates) = Some s ∧
    head (s_rows s) = Some r ∧ r_month r = dt ∧
    ∀ t i, t ∈ order → inputs !! t = Some i →
      r_bands r !! t
      = Some (pymax (of_int 0)
                (starting i ⊗ (of_int 1 ⊖ attr i) ⊕ hires i)).
Proof.
  intros Hwf Hq.
  destruct (run_total order inputs Hwf (dt :: dates)) as (s & Hrun & _).
  exists s. pose proof Hrun as Hrun0. unfold run in Hrun.
  destruct (init_hc_total order inputs Hwf) as (hc0 & Hinit & Hp0).
  rewrite Hinit in Hrun. cbn [mbind option_bind] in Hrun.
  rewrite for_each_cons in Hrun.
  destruct (month_step order inputs dt (SimState hc0 [] [])) as [s1|] eqn:Hstep;
    [|done].
  cbn [mbind option_bind] in Hrun.
  destruct (month_step_inv _ _ _ _ _ Hstep)
    as (hc1 & hc2 & r & H1 & H2 & H3 & Hr & Hrows).
  simpl in H1, H3, Hrows. rewrite Hq in H3. injection H3 as Hhc _.
  destruct (attrition_loop order inputs Hwf hc0 Hp0) as (hc1' & H1' & Hp1 & Hv1 & _).
  rewrite H1 in H1'. injection H1' as <-.
  destruct (hire_loop order inputs Hwf hc1 Hp1) as (hc2' & H2' & _ & Hv2 & _).
  rewrite H2 in H2'. injection H2' as <-.
  destruct (record_inv _ _ _ _ Hr) as (Hm & Hb & _).
  exists r. split; [exact Hrun0|]. split_and!; [|done|].
  - destruct (rows_grow _ _ _ Hrun) as [more Hmore].
    rewrite Hmore, Hrows. done.
  - intros t i Ht Hi.
    rewrite (record_bands_spec _ _ _ Hb t), decide_True by done.
    rewrite <-Hhc.
    assert (hc0 !! t = Some (starting i)) as Hh0.
    { by rewrite (init_hc_spec _ _ _ Hinit t), decide_True, Hi by done. }
    rewrite (Hv2 t i _ Ht Hi (Hv1 t i _ Ht Hi Hh0)). done.
Qed.
End FirstRow.

(** The first row of the headcount table, which the metric "Start Total HC"
    reads, is not the starting headcount: when the first month is no quarter
    end, it holds for every band the starting headcount after that month's
    attrition and hires. *)
Theorem first_row_is_one_month_in {F : Type} `{PyFloat F}
    (order : list string) (inputs : gmap string (band_input F))
    (dt : date) (dates : list date) :
  well_formed order inputs = true → is_quarter_end dt = false →
  ∃ s r,
    run order inputs (dt :: dates) = Some s ∧
    head (s_rows s) = Some r ∧ r_month r = dt ∧
    ∀ t i, t ∈ order → inputs !! t = Some i →
      r_bands r !! t
      = Some (pymax (of_int 0)
                (starting i ⊗ (of_int 1 ⊖ attr i) ⊕ hires i)).
Proof. apply first_row. Qed.

Lemma first_row_is_one_month_in_witness :
  ∃ s r, run (TEAM_ORDER AB) (build_inputs AB (default_ui AB))
             (Date 2025 1 :: [Date 2025 2]) = Some s ∧
         head (s_rows s) = Some r ∧
         r_bands r !! "A"%string = Some (B64.of_Z 90).
Proof.
  destruct (first_row_is_one_month_in (TEAM_ORDER AB)
              (build_inputs AB (default_ui AB)) (Date 2025 1) [Date 2025 2])
    as (s & r & Hrun & Hhead & _ & Hbands).
  - vm_compute. reflexivity.
  - reflexivity.
  - exists s, r. split; [exact Hrun|]. split; [exact Hhead|].
    rewrite (Hbands "A"%string
               (band_inputs (Band "A" "" (Some "B"%string)
                               (Widgets 100 0 (B64.of_Z 10) (B64.of_Z 50)))
                            (default_ui AB "A"))).
    + vm_compute. reflexivity.
    + apply list_elem_of_here.
    + vm_compute. reflexivity.
Defined.

(** ** A successor that is no band *)

Section Dangling.
Context {F : Type} `{PyFloat F}.
Variable order : list string.
Variable inputs : gmap string (band_input F).
Hypothesis Hnd : NoDup order.
Hypothesis Hin : ∀ k, k ∈ order → is_Some (inputs !! k).

Lemma for_each_raises {A S} (P : S → Prop) (body : A → S → option S) l s x :
  x ∈ l → (∀ s, P s → body x s = None) →
  (∀ y s s', P s → body y s = Some s' → P s') →
  P s → for_each body l s = None.
Proof using Type.
  intros Hx Hfail Hkeep. revert s.
  induction l as [|y l IH]; intros s HP; [by apply elem_of_nil in Hx|].
  rewrite for_each_cons. destruct (body y s) as [s1|] eqn:Hy; [|done].
  simpl. apply elem_of_cons in Hx as [->|Hx].
  - rewrite Hfail in Hy by done. done.
  - apply IH; [done|]. by eapply Hkeep.
Qed.

Lemma keys_present (hc : gmap string F) :
  exact_keys order hc → bands_present order hc.
Proof using Type. intros Hk t Ht. by apply Hk. Qed.

Lemma steps_1_2_run hc :
  exact_keys order hc →
  ∃ hc2, for_each (attrition inputs) order hc ≫= for_each (hire inputs) order
         = Some hc2 ∧ exact_keys order hc2.
Proof using Hnd Hin.
  intros Hk.
  destruct (pointwise_loop_total
              (λ t h, i ← inputs !! t; Some (h ⊗ (of_int 1 ⊖ attr i)))
              order hc Hnd) as [hc1 H1].
  { intros t Ht. destruct (proj2 (Hk t) Ht) as [h ->], (Hin t Ht) as [i Hi].
    simpl. rewrite Hi. by eexists. }
  rewrite <-(for_each_ext _ _ _ _ (attrition_pointwise inputs)) in H1.
  assert (exact_keys order hc1) as Hk1.
  { revert H1. apply (for_each_invariant (exact_keys order)); [|done].
    intros t ?? _ ??. by eapply attrition_keys. }
  destruct (pointwise_loop_total
              (λ t h, i ← inputs !! t; Some (h ⊕ hires i))
              order hc1 Hnd) as [hc2 H2].
  { intros t Ht. destruct (proj2 (Hk1 t) Ht) as [h ->], (Hin t Ht) as [i Hi].
    simpl. rewrite Hi. by eexists. }
  rewrite <-(for_each_ext _ _ _ _ (hire_pointwise inputs)) in H2.
  exists hc2. rewrite H1. simpl. split; [done|].
  revert H2. apply (for_each_invariant (exact_keys order)); [|done].
  intros t ?? _ ??. by eapply hire_keys.
Qed.

Lemma month_without_promotions dt s :
  is_quarter_end dt = false → exact_keys order (s_hc s) →
  ∃ s', month_step order inputs dt s = Some s' ∧ exact_keys order (s_hc s').
Proof using Hnd Hin.
  intros Hq Hk. unfold month_step.
  destruct (steps_1_2_run _ Hk) as (hc2 & H12 & Hk2).
  destruct (for_each (attrition inputs) order (s_hc s)) as [hc1|]; [|done].
  simpl in H12. cbn [mbind option_bind]. rewrite H12, Hq.
  cbn [mbind option_bind].
  destruct (record_total order dt hc2 (keys_present _ Hk2)) as [r ->].
  simpl. by eexists.
Qed.

Variables (t : string) (i : band_input F) (to_team : string).
Hypothesis Ht : t ∈ order.
Hypothesis Hi : inputs !! t = Some i.
Hypothesis Hto : i_promo_to i = Some to_team.
Hypothesis Hout : to_team ∉ order.

Lemma promotions_raise dt hc promo_rows :
  exact_keys order hc → promotions order inputs dt (hc, promo_rows) = None.
Proof using Ht Hi Hto Hout.
  intros Hk. unfold promotions. simpl.
  destruct (compute_moves order inputs hc) as [moves|]; [|done]. simpl.
  unfold apply_moves.
  apply (for_each_raises (λ st, exact_keys order st.1) _ _ _ t); [done| | |done].
  - intros [hc1 pr] Hk1. simpl in Hk1. unfold apply_move. rewrite Hi.
    cbn [mbind option_bind]. rewrite Hto.
    destruct (moves !! t) as [amt|]; [|done]. cbn [mbind option_bind].
    destruct (hc1 !! t) as [h|]; [|done]. cbn [mbind option_bind].
    assert (to_team ≠ t) as Hne by (intros ->; done).
    rewrite lookup_insert_ne by done.
    destruct (hc1 !! to_team) as [h'|] eqn:Hh'; [|done].
    exfalso. apply Hout, Hk1. by eexists.
  - intros y [hc1 pr1] [hc2 pr2] Hk1 Hy. cbn [fst] in *.
    pose proof (apply_move_fst inputs moves dt y hc1 pr1) as Hfst.
    rewrite Hy in Hfst. simpl in Hfst. symmetry in Hfst.
    by eapply apply_move_hc_keys.
Qed.

Lemma month_with_promotions_raises dt s :
  is_quarter_end dt = true → exact_keys order (s_hc s) →
  month_step order inputs dt s = None.
Proof using Hnd Hin Ht Hi Hto Hout.
  intros Hq Hk. unfold month_step.
  destruct (steps_1_2_run _ Hk) as (hc2 & H12 & Hk2).
  destruct (for_each (attrition inputs) order (s_hc s)) as [hc1|]; [|done].
  simpl in H12. cbn [mbind option_bind]. rewrite H12, Hq.
  cbn [mbind option_bind]. by rewrite promotions_raise.
Qed.

Lemma loop_raises_at_quarter_end dates s :
  exact_keys order (s_hc s) →
  for_each (month_step order inputs) dates s = None
  ↔ Exists (λ dt, is_quarter_end dt = true) dates.
Proof using Hnd Hin Ht Hi Hto Hout.
  revert s. induction dates as [|dt dates IH]; intros s Hk.
  - split; [done|]. by intros ?%Exists_nil.
  - rewrite for_each_cons, Exists_cons.
    destruct (is_quarter_end dt) eqn:Hq.
    + rewrite month_with_promotions_raises by done. split; [by left|done].
    + destruct (month_without_promotions dt s Hq Hk) as (s' & -> & Hk').
      simpl. rewrite (IH s' Hk'). split; [by right|]. by intros [?|?].
Qed.

Lemma run_raises_at_quarter_end dates :
  run order inputs dates = None
  ↔ Exists (λ dt, is_quarter_end dt = true) dates.
Proof using Hnd Hin Ht Hi Hto Hout.
  unfold run.
  destruct (fill_loop_total (λ t, inputs !! t) starting order ∅ Hin)
    as [hc0 Hinit].
  change (init_hc order inputs = Some hc0) in Hinit. rewrite Hinit. simpl.
  apply loop_raises_at_quarter_end. simpl. by apply (init_hc_keys order inputs).
Qed.
End Dangling.

(** When some band names a successor that is not a band of the table (band
    names distinct, every band with its inputs), nothing is noticed until
    promotions run: the simulation raises [KeyError] exactly when the horizon
    contains a quarter-end month, and runs through otherwise. *)
Theorem missing_successor_raises_at_quarter_end {F : Type} `{PyFloat F}
    (order : list string) (inputs : gmap string (band_input F))
    (dates : list date) (t : string) (i : band_input F) (to_team : string) :
  NoDup order → (∀ k, k ∈ order → is_Some (inputs !! k)) →
  t ∈ order → inputs !! t = Some i → i_promo_to i = Some to_team →
  to_team ∉ order →
  run order inputs dates = None
  ↔ Exists (λ dt, is_quarter_end dt = true) dates.
Proof. intros. by eapply run_raises_at_quarter_end. Qed.

Lemma missing_successor_raises_at_quarter_end_witness :
  run (TEAM_ORDER dangling) (build_inputs dangling (default_ui dangling))
      first_quarter = None.
Proof.
  apply (missing_successor_raises_at_quarter_end
           (TEAM_ORDER dangling) (build_inputs dangling (default_ui dangling))
           first_quarter "A"
           (band_inputs (Band "A" "" (Some "C"%string)
                           (Widgets 100 0 (B64.of_Z 10) (B64.of_Z 50)))
                        (default_ui dangling "A")) "C").
  - apply (bool_decide_unpack (NoDup _)). vm_compute. exact I.
  - intros k Hk. apply build_inputs_is_Some, Hk.
  - apply (bool_decide_unpack (_ ∈ _)). vm_compute. exact I.
  - vm_compute. reflexivity.
  - reflexivity.
  - apply (bool_decide_unpack (_ ∉ _)). vm_compute. exact I.
  - apply Exists_cons_tl, Exists_cons_tl, Exists_cons_hd. reflexivity.
Defined.

(** ** Exact arithmetic: all rates zero *)

Section ZeroRates.
Variable order : list string.
Variable inputs : gmap string (band_input Qc).
Implicit Types (hc moves : gmap string Qc) (t k : string).

Hypothesis Hwf : well_formed order inputs = true.
Hypothesis Hzero :
  ∀ t i, t ∈ order → inputs !! t = Some i →
         attr i = 0%Qc ∧ hires i = 0%Qc ∧ promo i = 0%Qc.

Lemma zero_attrition hc :
  bands_present order hc → for_each (attrition inputs) order hc = Some hc.
Proof using Hwf Hzero.
  intros Hpres.
  destruct (attrition_loop order inputs Hwf hc Hpres)
    as (hc1 & -> & _ & Hin & Hout).
  f_equal. apply map_eq. intros k.
  destruct (decide (k ∈ order)) as [Hk|Hk]; [|by apply Hout].
  destruct (Hpres k Hk) as [h Hh], (wf_inputs order inputs Hwf k Hk) as [i Hi].
  rewrite (Hin k i h Hk Hi Hh), Hh. f_equal.
  destruct (Hzero k i Hk Hi) as (-> & _). simpl.
  change (Exact.of_Z 1) with (of_int 1 : Qc).
  change (of_int 1) with (Exact.of_Z 1). rewrite ExactFacts.of_Z_1. ring.
Qed.

Lemma zero_hires hc :
  bands_present order hc → for_each (hire inputs) order hc = Some hc.
Proof using Hwf Hzero.
  intros Hpres.
  destruct (hire_loop order inputs Hwf hc Hpres) as (hc1 & -> & _ & Hin & Hout).
  f_equal. apply map_eq. intros k.
  destruct (decide (k ∈ order)) as [Hk|Hk]; [|by apply Hout].
  destruct (Hpres k Hk) as [h Hh], (wf_inputs order inputs Hwf k Hk) as [i Hi].
  rewrite (Hin k i h Hk Hi Hh), Hh. f_equal.
  destruct (Hzero k i Hk Hi) as (_ & -> & _). simpl. ring.
Qed.

Lemma zero_moves hc moves t amt :
  compute_moves order inputs hc = Some moves → moves !! t = Some amt →
  amt = 0%Qc.
Proof using Hzero.
  intros Hm Ht. rewrite (compute_moves_spec _ _ _ _ Hm t) in Ht.
  case_decide as Hk; [|done]. case_decide as Hs.
  - unfold move_amount in Ht.
    destruct (inputs !! t) as [i|] eqn:Hi; [|done]. simpl in Ht.
    destruct (i_promo_to i); [|done]. simpl in Ht.
    destruct (hc !! t) as [h|]; simplify_eq/=.
    destruct (Hzero t i Hk Hi) as (_ & _ & ->). ring.
  - injection Ht as <-. by apply Qc_is_canon.
Qed.

Lemma zero_move_keeps hc moves t hc1 :
  (∀ amt, moves !! t = Some amt → amt = 0%Qc) →
  apply_move_hc inputs moves t hc = Some hc1 → hc1 = hc.
Proof using Type.
  intros Hamt Hstep. unfold apply_move_hc in Hstep.
  destruct (inputs !! t) as [i|]; [|done]. simpl in Hstep.
  destruct (i_promo_to i) as [to_team|]; [|by simplify_eq]. simpl in Hstep.
  destruct (moves !! t) as [amt|]; [|done]. simpl in Hstep.
  rewrite (Hamt amt eq_refl) in Hstep.
  destruct (hc !! t) as [h|] eqn:Hh; [|done]. simpl in Hstep.
  replace (h - 0)%Qc with h in Hstep by ring.
  rewrite (insert_id hc t h Hh) in Hstep.
  destruct (hc !! to_team) as [h'|] eqn:Hh'; [|done]. simpl in Hstep.
  replace (h' + 0)%Qc with h' in Hstep by ring.
  rewrite (insert_id hc to_team h' Hh') in Hstep. by simplify_eq.
Qed.

Lemma zero_promotions dt hc promo_rows :
  bands_present order hc →
  ∃ promo_rows',
    promotions order inputs dt (hc, promo_rows) = Some (hc, promo_rows') ∧
    (Forall (λ e, promoted_hc e = 0%Qc) promo_rows →
     Forall (λ e, promoted_hc e = 0%Qc) promo_rows').
Proof using Hwf Hzero.
  intros Hpres.
  destruct (promotions_total order inputs Hwf dt hc promo_rows Hpres)
    as (hc' & pr' & Hprom & _).
  pose proof Hprom as Hprom0.
  unfold promotions in Hprom. simpl in Hprom.
  destruct (compute_moves order inputs hc) as [moves|] eqn:Hm; [|done].
  simpl in Hprom.
  assert (hc' = hc) as ->.
  { pose proof (apply_moves_fst inputs order moves dt hc promo_rows) as Hfst.
    rewrite Hprom in Hfst. simpl in Hfst. symmetry in Hfst. revert Hfst.
    apply (for_each_invariant (λ hc1, hc1 = hc)); [|done].
    intros t hc1 hc2 _ -> Hstep. eapply zero_move_keeps; [|done].
    intros amt Hamt. exact (zero_moves hc moves t amt Hm Hamt). }
  exists pr'. split; [done|]. intros Hall.
  apply apply_moves_snd in Hprom. simpl in Hprom. rewrite Hprom.
  apply Forall_app. split; [done|]. apply Forall_forall. intros e He.
  apply list_elem_of_omap in He as (t & _ & He). unfold promo_event in He.
  destruct (inputs !! t) as [i|]; [|done]. simpl in He.
  destruct (i_promo_to i); [|done]. simpl in He.
  destruct (moves !! t) as [amt|] eqn:Hamt; simplify_eq/=.
  rewrite (zero_moves _ _ _ _ Hm Hamt). by apply Qc_is_canon.
Qed.

Lemma zero_month dt s :
  bands_present order (s_hc s) →
  ∃ s' r,
    month_step order inputs dt s = Some s' ∧ s_hc s' = s_hc s ∧
    s_rows s' = s_rows s ++ [r] ∧
    (∀ t, t ∈ order → r_bands r !! t = pymax (of_int 0) <$> s_hc s !! t) ∧
    (Forall (λ e, promoted_hc e = 0%Qc) (s_promo_rows s) →
     Forall (λ e, promoted_hc e = 0%Qc) (s_promo_rows s')).
Proof using Hwf Hzero.
  intros Hpres. unfold month_step.
  rewrite zero_attrition by done. cbn [mbind option_bind].
  rewrite zero_hires by done. cbn [mbind option_bind].
  assert (∃ pr',
    (if is_quarter_end dt
     then promotions order inputs dt (s_hc s, s_promo_rows s)
     else Some (s_hc s, s_promo_rows s)) = Some (s_hc s, pr') ∧
    (Forall (λ e, promoted_hc e = 0%Qc) (s_promo_rows s) →
     Forall (λ e, promoted_hc e = 0%Qc) pr')) as (pr' & -> & Hpr).
  { destruct (is_quarter_end dt); [by apply zero_promotions|by eauto]. }
  cbn [mbind option_bind].
  destruct (record_total order dt (s_hc s) Hpres) as [r Hr]. rewrite Hr.
  cbn [mbind option_bind]. eexists _, r. split; [done|].
  split_and!; [done|done| |done].
  intros t Ht. destruct (record_inv _ _ _ _ Hr) as (_ & Hb & _).
  by rewrite (record_bands_spec _ _ _ Hb t), decide_True.
Qed.

Lemma zero_run dates :
  ∃ hc0 s,
    init_hc order inputs = Some hc0 ∧ run order inputs dates = Some s ∧
    s_hc s = hc0 ∧
    Forall (λ r, ∀ t, t ∈ order →
                   r_bands r !! t = pymax (of_int 0) <$> hc0 !! t) (s_rows s) ∧
    Forall (λ e, promoted_hc e = 0%Qc) (s_promo_rows s).
Proof using Hwf Hzero.
  destruct (init_hc_total order inputs Hwf) as (hc0 & Hinit & Hp0).
  exists hc0. unfold run. rewrite Hinit. cbn [mbind option_bind].
  destruct (for_each_total
              (λ s, s_hc s = hc0 ∧
                    Forall (λ r, ∀ t, t ∈ order →
                              r_bands r !! t = pymax (of_int 0) <$> hc0 !! t)
                           (s_rows s) ∧
                    Forall (λ e, promoted_hc e = 0%Qc) (s_promo_rows s))
              (month_step order inputs) dates (SimState hc0 [] []))
    as (s & Hs & Hhc & Hrows & Hpr).
  - intros dt s _ (Hhc & Hrows & Hpr).
    destruct (zero_month dt s) as (s' & r & Hstep & Hhc' & Hrows' & Hr & Hpr');
      [by rewrite Hhc|].
    exists s'. split; [done|]. split_and!.
    + by rewrite Hhc'.
    + rewrite Hrows'. apply Forall_app. split; [done|].
      apply Forall_singleton. by rewrite <-Hhc.
    + by apply Hpr'.
  - by split_and!.
  - by exists s.
Qed.
End ZeroRates.

(** In exact arithmetic, on any well-formed table whose attrition rates,
    hires and promotion rates are all 0, the headcount dictionary after any
    number of months is the initial one, every row reports
    [max(0.0, starting headcount)] for every band, and every row of the
    promotion table has amount 0. *)
Theorem zero_rates_keep_headcount (order : list string)
    (inputs : gmap string (band_input Qc)) (dates : list date) :
  well_formed order inputs = true →
  (∀ t i, t ∈ order → inputs !! t = Some i →
          attr i = 0%Qc ∧ hires i = 0%Qc ∧ promo i = 0%Qc) →
  ∃ hc0 s,
    init_hc order inputs = Some hc0 ∧ run order inputs dates = Some s ∧
    s_hc s = hc0 ∧
    Forall (λ r, ∀ t, t ∈ order →
                   r_bands r !! t = pymax (of_int 0) <$> hc0 !! t) (s_rows s) ∧
    Forall (λ e, promoted_hc e = 0%Qc) (s_promo_rows s).
Proof. intros Hwf Hzero. by apply zero_run. Qed.

Lemma zero_rates_keep_headcount_witness :
  ∃ hc0 s,
    init_hc exact_order (build_inputs TEAMS exact_zero_ui) = Some hc0 ∧
    run exact_order (build_inputs TEAMS exact_zero_ui) months_index = Some s ∧
    s_hc s = hc0.
Proof.
  destruct (zero_rates_keep_headcount exact_order
              (build_inputs TEAMS exact_zero_ui) months_index)
    as (hc0 & s & Hinit & Hrun & Hhc & _).
  - vm_compute. reflexivity.
  - intros t i Ht Hi.
    repeat (apply elem_of_cons in Ht as [->|Ht]);
      [vm_compute in Hi; injection Hi as <-;
       repeat split; apply Qc_is_canon; reflexivity..|].
    by apply elem_of_nil in Ht.
  - exists hc0, s. split; [exact Hinit|]. split; [exact Hrun|exact Hhc].
Defined.

(** ** Exact arithmetic: the grand total against the single-pool model *)

Section TotalOf.
Implicit Types (hc : gmap string Qc) (l : list string).

Lemma of_Z_plus (a b : Z) :
  Exact.of_Z (a + b) = (Exact.of_Z a + Exact.of_Z b)%Qc.
Proof.
  unfold Exact.of_Z. apply Qc_is_canon. simpl.
  rewrite !Qred_correct. by rewrite inject_Z_plus.
Qed.

Lemma total_of_ext l hc hc' :
  (∀ t, t ∈ l → hc !! t = hc' !! t) → total_of l hc = total_of l hc'.
Proof.
  induction l as [|x l IH]; intros Heq; [done|]. simpl.
  rewrite (Heq x) by left. f_equal. apply IH. intros t Ht. apply Heq. by right.
Qed.

Lemma total_of_scaled l hc hc1 (c : Qc) :
  (∀ t, t ∈ l → ∃ h, hc !! t = Some h ∧ hc1 !! t = Some (h * c)%Qc) →
  total_of l hc1 = (total_of l hc * c)%Qc.
Proof.
  induction l as [|x l IH]; intros Hl; simpl; [ring|].
  destruct (Hl x) as (h & -> & ->); [left|]. simpl.
  rewrite IH; [ring|]. intros t Ht. apply Hl. by right.
Qed.

Lemma total_of_raised l hc hc2 (g : string → Qc) :
  (∀ t, t ∈ l → ∃ h, hc !! t = Some h ∧ hc2 !! t = Some (h + g t)%Qc) →
  total_of l hc2 = (total_of l hc + sum_over g l)%Qc.
Proof.
  induction l as [|x l IH]; intros Hl; simpl; [ring|].
  destruct (Hl x) as (h & -> & ->); [left|]. simpl.
  rewrite IH; [ring|]. intros t Ht. apply Hl. by right.
Qed.

Lemma total_of_values l hc (g : string → Qc) :
  (∀ t, t ∈ l → hc !! t = Some (g t)) → total_of l hc = sum_over g l.
Proof.
  induction l as [|x l IH]; intros Hl; simpl; [done|].
  rewrite (Hl x) by left. simpl. f_equal. apply IH.
  intros t Ht. apply Hl. by right.
Qed.

Lemma sum_over_ext {A : Type} (f g : A → Qc) (l : list A) :
  (∀ x, x ∈ l → f x = g x) → sum_over f l = sum_over g l.
Proof.
  induction l as [|x l IH]; intros Heq; [done|]. simpl.
  rewrite (Heq x) by left. f_equal. apply IH. intros y Hy. apply Heq. by right.
Qed.

Lemma sum_over_fmap {A B : Type} (f : B → Qc) (g : A → B) (l : list A) :
  sum_over f (g <$> l) = sum_over (f ∘ g) l.
Proof.
  induction l as [|x l IH]; [done|]. rewrite fmap_cons.
  unfold sum_over in *. cbn [foldr]. by rewrite IH.
Qed.

Lemma sum_over_of_int {A : Type} (f : A → Z) (l : list A) :
  sum_over (λ x, Exact.of_Z (f x)) l = Exact.of_Z (sum_int f l).
Proof.
  induction l as [|x l IH]; simpl.
  - by rewrite ExactFacts.of_Z_0.
  - by rewrite IH, of_Z_plus.
Qed.
End TotalOf.

Section Aggregate.
Variable order : list string.
Variable inputs : gmap string (band_input Qc).
Variable A : Qc.
Variable monthly_hires : Z.
Implicit Types (hc : gmap string Qc) (t k : string).

Hypothesis Hvalid : valid_config order inputs = true.
Hypothesis Hattr :
  ∀ t i, t ∈ order → inputs !! t = Some i → attr i = A ⊘ of_int 100.
Hypothesis Hhires :
  sum_over (λ t, default 0%Qc (hires <$> inputs !! t)) order
  = of_int monthly_hires.

Lemma month_total dt s :
  bands_present order (s_hc s) → all_nonneg (s_hc s) →
  ∃ s' r,
    month_step order inputs dt s = Some s' ∧
    bands_present order (s_hc s') ∧ all_nonneg (s_hc s') ∧
    s_rows s' = s_rows s ++ [r] ∧
    r_total r = total_of order (s_hc s') ∧
    total_of order (s_hc s')
    = simple_step monthly_hires A (total_of order (s_hc s)).
Proof using Hvalid Hattr Hhires.
  intros Hpres Hnn. pose proof (valid_config_wf _ _ Hvalid) as Hwf.
  destruct (month_step_nonneg order inputs Hvalid dt s Hpres Hnn)
    as (hc1 & hc2 & s' & r & H1 & _ & H2 & _ & Hstep & Hp' & Hn' & Hrows & Hr).
  exists s', r. split_and!; [done..| |].
  - destruct (month_step_inv _ _ _ _ _ Hstep)
      as (_ & _ & r' & _ & _ & _ & Hrec & Hrows').
    rewrite Hrows in Hrows'. apply app_inj_tail in Hrows' as [_ <-].
    destruct (record_inv _ _ _ _ Hrec) as (_ & Hb & Htot).
    rewrite row_total_exact in Htot.
    + injection Htot as <-. by apply total_of_ext.
    + intros t Ht. rewrite (Hr t Ht). by apply Hp'.
  - destruct (attrition_loop order inputs Hwf _ Hpres)
      as (hc1' & H1' & Hp1 & Hin1 & _).
    rewrite H1 in H1'. injection H1' as <-.
    destruct (hire_loop order inputs Hwf _ Hp1) as (hc2' & H2' & Hp2 & Hin2 & _).
    rewrite H2 in H2'. injection H2' as <-.
    destruct (month_step_inv _ _ _ _ _ Hstep)
      as (hc1' & hc2' & _ & H1' & H2' & H3 & _).
    rewrite H1 in H1'. injection H1' as <-.
    rewrite H2 in H2'. injection H2' as <-.
    assert (total_of order (s_hc s') = total_of order hc2) as ->.
    { destruct (is_quarter_end dt).
      - by eapply (promotions_total_of order inputs Hwf).
      - by injection H3 as <- _. }
    rewrite (total_of_raised order hc1 hc2
               (λ t, default 0%Qc (hires <$> inputs !! t))).
    + rewrite (total_of_scaled order (s_hc s) hc1 (of_int 1 ⊖ A ⊘ of_int 100)).
      * by rewrite Hhires.
      * intros t Ht. destruct (Hpres t Ht) as [h Hh].
        destruct (wf_inputs order inputs Hwf t Ht) as [i Hi].
        exists h. split; [done|].
        by rewrite (Hin1 t i h Ht Hi Hh), (Hattr t i Ht Hi).
    + intros t Ht. destruct (Hp1 t Ht) as [h Hh].
      destruct (wf_inputs order inputs Hwf t Ht) as [i Hi].
      exists h. split; [done|]. by rewrite (Hin2 t i h Ht Hi Hh), Hi.
Qed.

Lemma months_total dates s :
  bands_present order (s_hc s) → all_nonneg (s_hc s) →
  ∃ s',
    for_each (month_step order inputs) dates s = Some s' ∧
    r_total <$> s_rows s'
    = (r_total <$> s_rows s)
      ++ simple_trace monthly_hires A dates (total_of order (s_hc s)).
Proof using Hvalid Hattr Hhires.
  revert s. induction dates as [|dt dates IH]; intros s Hpres Hnn.
  - exists s. by rewrite app_nil_r.
  - destruct (month_total dt s Hpres Hnn)
      as (s1 & r & Hstep & Hp1 & Hn1 & Hrows & Hr & Htot).
    destruct (IH s1 Hp1 Hn1) as (s' & Hrun & Htrace).
    exists s'. rewrite for_each_cons, Hstep. cbn [mbind option_bind].
    split; [done|]. rewrite Htrace, Hrows, fmap_app, <-app_assoc.
    f_equal. cbn [simple_trace]. by rewrite <-Htot, <-Hr.
Qed.

Lemma run_total_trace (starting_headcount : Z) dates :
  sum_over (λ t, default 0%Qc (starting <$> inputs !! t)) order
  = of_int starting_headcount →
  ∃ s,
    run order inputs dates = Some s ∧
    r_total <$> s_rows s
    = simple_trace monthly_hires A dates (of_int starting_headcount).
Proof using Hvalid Hattr Hhires.
  intros Hstart. pose proof (valid_config_wf _ _ Hvalid) as Hwf.
  destruct (init_hc_total order inputs Hwf) as (hc0 & Hinit & Hp0).
  unfold run. rewrite Hinit. cbn [mbind option_bind].
  destruct (months_total dates (SimState hc0 [] [])) as (s & Hrun & Htrace);
    [done|by eapply init_hc_nonneg|].
  exists s. split; [done|]. rewrite Htrace.
  cbn [s_rows s_hc fmap list_fmap app]. f_equal.
  rewrite <-Hstart. apply total_of_values. intros t Ht.
  rewrite (init_hc_spec _ _ _ Hinit t), decide_True by done.
  by destruct (wf_inputs order inputs Hwf t Ht) as [i ->].
Qed.
End Aggregate.

Section AggregateWidgets.
Variable teams : list (band Qc).
Variable ui : string → widget_values Qc.

Lemma widget_sum (f : band_input Qc → Qc) (g : widget_values Qc → Z) :
  NoDup (TEAM_ORDER teams) →
  (∀ b w, f (band_inputs b w) = of_int (g w)) →
  sum_over (λ t, default 0%Qc (f <$> build_inputs teams ui !! t))
           (TEAM_ORDER teams)
  = of_int (sum_int (λ b, g (ui (team b))) teams).
Proof using Type.
  intros Hnd Hf. unfold TEAM_ORDER. rewrite sum_over_fmap.
  change (of_int (sum_int (λ b, g (ui (team b))) teams))
    with (Exact.of_Z (sum_int (λ b, g (ui (team b))) teams)).
  rewrite <-sum_over_of_int. apply sum_over_ext. intros b Hb. simpl.
  rewrite build_inputs_lookup by done. simpl. apply Hf.
Qed.

Lemma widgets_total_trace (A : Qc) dates :
  valid_config (TEAM_ORDER teams) (build_inputs teams ui) = true →
  (∀ b, b ∈ teams → w_attr (ui (team b)) = A) →
  ∃ s,
    run (TEAM_ORDER teams) (build_inputs teams ui) dates = Some s ∧
    r_total <$> s_rows s
    = simple_trace (sum_int (λ b, w_hires (ui (team b))) teams) A dates
        (of_int (sum_int (λ b, w_start (ui (team b))) teams)).
Proof using Type.
  intros Hvalid Hattr.
  pose proof (wf_nodup _ _ (valid_config_wf _ _ Hvalid)) as Hnd.
  apply run_total_trace; [done| | |].
  - intros t i Ht Hi.
    apply build_inputs_lookup_Some in Hi as (b & Hb & <- & ->); [|done].
    simpl. by rewrite Hattr.
  - by apply (widget_sum hires w_hires).
  - by apply (widget_sum starting w_start).
Qed.
End AggregateWidgets.

(** In exact arithmetic, for a valid configuration in which every band has
    the same attrition percentage [A], the Total column of the band model is
    the headcount of the single-pool model (before its rounding to one
    decimal) started at the sum of the starting headcounts, with the sum of
    the monthly hires and attrition [A]: promotions move people between
    bands and cancel in the total. *)
Theorem total_is_single_pool (teams : list (band Qc))
    (ui : string → widget_values Qc) (A : Qc) (dates : list date) :
  valid_config (TEAM_ORDER teams) (build_inputs teams ui) = true →
  (∀ b, b ∈ teams → w_attr (ui (team b)) = A) →
  ∃ s,
    run (TEAM_ORDER teams) (build_inputs teams ui) dates = Some s ∧
    r_total <$> s_rows s
    = simple_trace (sum_int (λ b, w_hires (ui (team b))) teams) A dates
        (of_int (sum_int (λ b, w_start (ui (team b))) teams)).
Proof. apply widgets_total_trace. Qed.

Lemma total_is_single_pool_witness :
  ∃ s,
    run exact_order
        (build_inputs TEAMS (uniform_attrition_ui (Exact.of_Z 2)))
        months_index = Some s ∧
    r_total <$> s_rows s
    = simple_trace
        (sum_int (λ b, w_hires (uniform_attrition_ui (Exact.of_Z 2) (team b)))
                 TEAMS)
        (Exact.of_Z 2) months_index
        (of_int (sum_int
                   (λ b, w_start (uniform_attrition_ui (Exact.of_Z 2) (team b)))
                   TEAMS)).
Proof.
  apply (total_is_single_pool TEAMS (uniform_attrition_ui (Exact.of_Z 2))
           (Exact.of_Z 2) months_index).
  - vm_compute. reflexivity.
  - intros b _. reflexivity.
Defined.

(** ** Exact arithmetic: the single-pool model in closed form *)

Section SinglePool.
Variable monthly_hires : Z.
Variable A E : Qc.
Local Abbreviation a := (A ⊘ of_int 100 : Qc).

Hypothesis HE : (E * a)%Qc = of_int monthly_hires.

Lemma simple_step_affine (hc : Qc) :
  simple_step monthly_hires A hc = (E + (hc - E) * (1 - a))%Qc.
Proof using HE.
  unfold simple_step. rewrite <-HE.
  change (of_int 1 : Qc) with (Exact.of_Z 1). rewrite ExactFacts.of_Z_1.
  generalize a. intros q. simpl. ring.
Qed.

Lemma simple_trace_closed months (hc : Qc) :
  simple_trace monthly_hires A months hc
  = (λ n, closed_form E a hc (S n)) <$> seq 0 (length months).
Proof using HE.
  revert hc. induction months as [|dt months IH]; intros hc; [done|].
  cbn [simple_trace length seq]. rewrite fmap_cons, <-fmap_S_seq, <-list_fmap_compose.
  rewrite IH. f_equal.
  - rewrite simple_step_affine. unfold closed_form. cbn [Qcpower]. ring.
  - apply list_fmap_ext. intros _ n _. unfold closed_form, compose.
    rewrite simple_step_affine. cbn [Qcpower].
    generalize ((1 - a) ^ n)%Qc. intros p. generalize a. intros q. ring.
Qed.

Lemma simple_model_closed (starting_headcount : Z) months :
  simple_model starting_headcount monthly_hires A months
  = (closed_form E a (of_int starting_headcount) (length months),
     (λ n, round1 (closed_form E a (of_int starting_headcount) (S n)))
       <$> seq 0 (length months)).
Proof using HE.
  unfold simple_model.
  pose proof (simple_loop_spec (Widgets 0 monthly_hires A 0%Qc) months
                (of_int starting_headcount) []) as Hspec.
  cbn [w_hires w_attr app] in Hspec. rewrite Hspec, simple_trace_closed.
  f_equal; [|by rewrite <-list_fmap_compose].
  destruct months as [|dt months _] using rev_ind.
  - unfold closed_form. simpl. ring.
  - rewrite length_app, Nat.add_1_r, seq_S, fmap_app. simpl.
    by rewrite last_snoc.
Qed.

Lemma simple_model_snoc (starting_headcount : Z) months dt :
  (simple_model starting_headcount monthly_hires A (months ++ [dt])).1
  = simple_step monthly_hires A
      (simple_model starting_headcount monthly_hires A months).1.
Proof using HE.
  rewrite !simple_model_closed, simple_step_affine. cbn [fst].
  rewrite length_app, Nat.add_1_r. unfold closed_form. cbn [Qcpower].
  generalize ((1 - a) ^ length months)%Qc. intros p.
  generalize a. intros q. ring.
Qed.

Hypothesis HA0 : (0 ≤ A)%Qc.
Hypothesis HA100 : (A ≤ of_int 100)%Qc.

Lemma rate_bounds : (0 ≤ a)%Qc ∧ (0 ≤ 1 - a)%Qc.
Proof using HA0 HA100.
  assert (0 ≤ / Exact.of_Z 100)%Qc as Hinv by done.
  split.
  - by apply Qcmult_nonneg_nonneg.
  - assert (A * / Exact.of_Z 100 ≤ Exact.of_Z 100 * / Exact.of_Z 100)%Qc
      as Hle by (by apply Qcmult_le_mono_nonneg_r).
    rewrite Qcmult_inv_r in Hle by done.
    apply Qcle_minus_iff in Hle. exact Hle.
Qed.

Lemma simple_step_rises (hc : Qc) :
  (hc ≤ E)%Qc →
  (hc ≤ simple_step monthly_hires A hc)%Qc ∧
  (simple_step monthly_hires A hc ≤ E)%Qc.
Proof using HE HA0 HA100.
  intros Hle. destruct rate_bounds as [Ha Ha1].
  apply Qcle_minus_iff in Hle. rewrite simple_step_affine. split.
  - apply Qcle_minus_iff.
    replace (E + (hc - E) * (1 - a) + - hc)%Qc with ((E + - hc) * a)%Qc
      by (generalize a; intros q; ring).
    by apply Qcmult_nonneg_nonneg.
  - apply Qcle_minus_iff.
    replace (E + - (E + (hc - E) * (1 - a)))%Qc with ((E + - hc) * (1 - a))%Qc
      by (generalize a; intros q; ring).
    by apply Qcmult_nonneg_nonneg.
Qed.

Lemma simple_step_falls (hc : Qc) :
  (E ≤ hc)%Qc →
  (E ≤ simple_step monthly_hires A hc)%Qc ∧
  (simple_step monthly_hires A hc ≤ hc)%Qc.
Proof using HE HA0 HA100.
  intros Hle. destruct rate_bounds as [Ha Ha1].
  apply Qcle_minus_iff in Hle. rewrite simple_step_affine. split.
  - apply Qcle_minus_iff.
    replace (E + (hc - E) * (1 - a) + - E)%Qc with ((hc + - E) * (1 - a))%Qc
      by (generalize a; intros q; ring).
    by apply Qcmult_nonneg_nonneg.
  - apply Qcle_minus_iff.
    replace (hc + - (E + (hc - E) * (1 - a)))%Qc with ((hc + - E) * a)%Qc
      by (generalize a; intros q; ring).
    by apply Qcmult_nonneg_nonneg.
Qed.

Lemma simple_model_rises (starting_headcount : Z) months :
  (of_int starting_headcount ≤ E)%Qc →
  (of_int starting_headcount
   ≤ (simple_model starting_headcount monthly_hires A months).1)%Qc ∧
  ((simple_model starting_headcount monthly_hires A months).1 ≤ E)%Qc.
Proof using HE HA0 HA100.
  intros Hle. induction months as [|dt months [IH1 IH2]] using rev_ind.
  - done.
  - rewrite simple_model_snoc.
    destruct (simple_step_rises _ IH2) as [Hup HleE].
    split; [by etrans|done].
Qed.

Lemma simple_model_falls (starting_headcount : Z) months :
  (E ≤ of_int starting_headcount)%Qc →
  (E ≤ (simple_model starting_headcount monthly_hires A months).1)%Qc ∧
  ((simple_model starting_headcount monthly_hires A months).1
   ≤ of_int starting_headcount)%Qc.
Proof using HE HA0 HA100.
  intros Hle. induction months as [|dt months [IH1 IH2]] using rev_ind.
  - done.
  - rewrite simple_model_snoc.
    destruct (simple_step_falls _ IH1) as [HleE Hdown].
    split; [done|by etrans].
Qed.
End SinglePool.

(** In exact arithmetic the variable [hc] of the single-pool model has a
    closed form.  When [E] is the headcount at which the monthly attrition
    equals the monthly hires, [E * (monthly_attrition / 100) =
    monthly_hires], the value of [hc] after the loop has run over [n] months
    is [E + (starting_headcount - E) * (1 - monthly_attrition / 100) ^ n].
    (The list [headcount] holds roundings of the binary64 values and is not
    described here.) *)
Theorem single_pool_closed_form (starting_headcount monthly_hires : Z)
    (A E : Qc) (months : list date) :
  (E * (A ⊘ of_int 100))%Qc = of_int monthly_hires →
  (simple_model starting_headcount monthly_hires A months).1
  = closed_form E (A ⊘ of_int 100) (of_int starting_headcount)
      (length months).
Proof. intros HE. by rewrite (simple_model_closed monthly_hires A E HE). Qed.

Lemma single_pool_closed_form_witness :
  (simple_model 100 4 (Exact.of_Z 2) months_index).1
  = closed_form (Exact.of_Z 200) (Exact.of_Z 2 ⊘ of_int 100) (of_int 100) 24.
Proof.
  apply (single_pool_closed_form 100 4 (Exact.of_Z 2) (Exact.of_Z 200)
           months_index).
  apply Qc_is_canon. vm_compute. reflexivity.
Defined.

(** In exact arithmetic, with an attrition percentage between 0 and 100 and
    [E] the headcount at which attrition equals hires, the single-pool
    headcount moves towards [E] month after month and never crosses it:
    started at or below [E] it never falls and stays at or below [E];
    started at or above [E] it never rises and stays at or above [E]. *)
Theorem single_pool_moves_to_equilibrium (starting_headcount monthly_hires : Z)
    (A E : Qc) (months : list date) (dt : date) :
  (E * (A ⊘ of_int 100))%Qc = of_int monthly_hires →
  (0 ≤ A)%Qc → (A ≤ of_int 100)%Qc →
  let hc := (simple_model starting_headcount monthly_hires A months).1 in
  let hc' :=
    (simple_model starting_headcount monthly_hires A (months ++ [dt])).1 in
  ((of_int starting_headcount ≤ E)%Qc →
   (of_int starting_headcount ≤ hc)%Qc ∧ (hc ≤ hc')%Qc ∧ (hc' ≤ E)%Qc) ∧
  ((E ≤ of_int starting_headcount)%Qc →
   (E ≤ hc')%Qc ∧ (hc' ≤ hc)%Qc ∧ (hc ≤ of_int starting_headcount)%Qc).
Proof.
  intros HE HA0 HA100 hc hc'. subst hc hc'. split; intros Hstart.
  - destruct (simple_model_rises monthly_hires A E HE HA0 HA100
                starting_headcount months Hstart) as [H1 H2].
    rewrite (simple_model_snoc monthly_hires A E HE).
    destruct (simple_step_rises monthly_hires A E HE HA0 HA100 _ H2) as [H3 H4].
    done.
  - destruct (simple_model_falls monthly_hires A E HE HA0 HA100
                starting_headcount months Hstart) as [H1 H2].
    rewrite (simple_model_snoc monthly_hires A E HE).
    destruct (simple_step_falls monthly_hires A E HE HA0 HA100 _ H1) as [H3 H4].
    done.
Qed.

Lemma single_pool_moves_to_equilibrium_witness :
  ((simple_model 100 4 (Exact.of_Z 2) months_index).1
   ≤ (simple_model 100 4 (Exact.of_Z 2) (months_index ++ [Date 2027 1])).1)%Qc.
Proof.
  destruct (single_pool_moves_to_equilibrium 100 4 (Exact.of_Z 2)
              (Exact.of_Z 200) months_index (Date 2027 1)) as [Hrise _].
  - apply Qc_is_canon. vm_compute. reflexivity.
  - vm_compute. discriminate.
  - vm_compute. discriminate.
  - destruct Hrise as (_ & Hstep & _).
    + vm_compute. discriminate.
    + exact Hstep.
Defined.
